(** * Windi CSS processor (src/lib/index.ts) and command line
      (src/cli/index.ts): a shallow embedding

    The class [Processor] of [src/lib/index.ts] is embedded as functions over
    an explicit processor state, and the function [compile] of the command
    line as a function over the files and the tables of the script.  The
    modules they import ([utils/style], [utils/tools], [lib/extract],
    [lib/variants], [utils/parser], ...) are not part of the verified
    sources: their operations are the fields of the classes [Imports],
    [MoreImports] and [Cli.CliImports], and every statement below holds for
    all of them. *)

From Stdlib Require Import ZArith String Ascii List Lia.
From stdpp Require Import base option list strings pretty gmap.

Set Warnings "-register-all".

Local Open Scope Z_scope.

(** ** Outcomes of a call

    A JavaScript call returns a value, raises an exception, or does not
    return; the last case shows up in the embedding as exhausted fuel. *)
Inductive outcome (A : Type) : Type :=
| Done (a : A)
| Throw (err : string)
| OutOfFuel.
Arguments Done {A} a.
Arguments Throw {A} err.
Arguments OutOfFuel {A}.

Definition obind {A B : Type} (m : outcome A) (k : A -> outcome B) : outcome B :=
  match m with
  | Done a => k a
  | Throw e => Throw e
  | OutOfFuel => OutOfFuel
  end.

Notation "x <- m ;;; k" := (obind m (fun x => k))
  (at level 100, m at next level, right associativity).

(** [arr.map(f)] / [arr.forEach(f)] with a callback that may raise: the
    callbacks run left to right and the first exception ends the loop. *)
Definition omap {A B : Type} (f : A -> outcome B) : list A -> outcome (list B) :=
  fix go (l : list A) : outcome (list B) :=
    match l with
    | [] => Done []
    | a :: l' => b <- f a ;;; bs <- go l' ;;; Done (b :: bs)
    end.

Definition ofold {S A : Type} (f : S -> A -> outcome S) : list A -> S -> outcome S :=
  fix go (l : list A) (s : S) : outcome S :=
    match l with
    | [] => Done s
    | a :: l' => s' <- f s a ;;; go l' s'
    end.

Definition is_done {A : Type} (m : outcome A) : bool :=
  match m with Done _ => true | _ => false end.

(** ** JavaScript strings and truthiness

    A string is the sequence of its UTF-16 code units, and a character of
    the embedding is one code unit below 256: the strings described are the
    strings of the Latin-1 range, and a place in a string counts code units
    as JavaScript does.  A string with a code unit above that range is not
    described. *)

Definition empty_str : string := EmptyString.

(** A string is truthy unless it is empty. *)
Definition str_truthy (s : string) : bool :=
  match s with EmptyString => false | String _ _ => true end.

(** [boolean | string], the type of [force] in [markAsImportant] and of the
    [important] option of the configuration. *)
Inductive BoolOrString : Type :=
| JBool (b : bool)
| JStr (s : string).

Definition bs_truthy (v : BoolOrString) : bool :=
  match v with
  | JBool b => b
  | JStr s => str_truthy s
  end.

(** ** The style model, as far as the processor reads and writes it *)

(** [instanceof Keyframes], [instanceof Container]: both classes extend
    [Style]. *)
Inductive StyleKind : Type := KStyle | KKeyframes | KContainer.

Global Instance StyleKind_eq_dec : EqDecision StyleKind.
Proof. solve_decision. Defined.

Record Property : Type := mkProperty {
  p_name : string;
  p_value : option string;
  p_comment : option string;
  p_important : bool;
}.

Record Meta : Type := mkMeta {
  m_layer : string;
  m_group : string;
  m_order : Z;
  m_variants : list string;
}.

(** ** The token tree of the class parser ([Element], from [interfaces])

    The processor reads [raw], [variants], [content], [type] and [important];
    [content] is a string, an array of elements or undefined. *)
Inductive ElementType : Type :=
| TUtility
| TGroup
| TAlias
| TOther.          (* any further tag of the union *)

Global Instance ElementType_eq_dec : EqDecision ElementType.
Proof. solve_decision. Defined.

Inductive Content (E : Type) : Type :=
| CNone
| CString (s : string)
| CArray (l : list E).
Arguments CNone {E}.
Arguments CString {E} s.
Arguments CArray {E} l.

Inductive Element : Type :=
| mkElement (raw : string) (variants : list string) (content : Content Element)
            (type : ElementType) (important : bool).

Definition e_raw (e : Element) : string := let 'mkElement r _ _ _ _ := e in r.
Definition e_variants (e : Element) : list string := let 'mkElement _ v _ _ _ := e in v.
Definition e_content (e : Element) : Content Element := let 'mkElement _ _ c _ _ := e in c.
Definition e_type (e : Element) : ElementType := let 'mkElement _ _ _ t _ := e in t.
Definition e_important (e : Element) : bool := let 'mkElement _ _ _ _ i := e in i.

(** ** The types the imported modules own

    [Hidden] is the private state of a [Style] (parent and child selectors,
    pseudo classes, wrappers, ...) that only the methods of [utils/style]
    touch; [UserFn] stands for the functions written in a configuration;
    [Utility] is the parsed-utility handle a dynamic generator receives
    ([lib/utilities/handler]); [RegExps] is the compiled [exclude]
    patterns. *)
Class Types : Type := {
  Hidden : Type;
  UserFn : Type;
  Utility : Type;
  RegExps : Type;
}.

Section Data.
Context {types : Types}.

Record Style : Type := mkStyle {
  s_kind : StyleKind;
  s_selector : option string;
  s_property : list Property;
  s_important : bool;
  s_atRules : option (list string);
  s_meta : Meta;
  s_hidden : Hidden;
}.

Definition set_selector (sel : string) (s : Style) : Style :=
  mkStyle (s_kind s) (Some sel) (s_property s) (s_important s) (s_atRules s) (s_meta s) (s_hidden s).

Definition set_important (b : bool) (s : Style) : Style :=
  mkStyle (s_kind s) (s_selector s) (s_property s) b (s_atRules s) (s_meta s) (s_hidden s).

Definition set_property (ps : list Property) (s : Style) : Style :=
  mkStyle (s_kind s) (s_selector s) ps (s_important s) (s_atRules s) (s_meta s) (s_hidden s).

Definition set_meta (m : Meta) (s : Style) : Style :=
  mkStyle (s_kind s) (s_selector s) (s_property s) (s_important s) (s_atRules s) m (s_hidden s).

Definition set_meta_variants (vs : list string) (s : Style) : Style :=
  set_meta (mkMeta (m_layer (s_meta s)) (m_group (s_meta s)) (m_order (s_meta s)) vs) s.

Definition set_meta_order (o : Z) (s : Style) : Style :=
  set_meta (mkMeta (m_layer (s_meta s)) (m_group (s_meta s)) o (m_variants (s_meta s))) s.

Definition prop_set_important (b : bool) (p : Property) : Property :=
  mkProperty (p_name p) (p_value p) (p_comment p) b.

Definition is_keyframes (s : Style) : bool := bool_decide (s_kind s = KKeyframes).
Definition is_container (s : Style) : bool := bool_decide (s_kind s = KContainer).

(** Modelled from the spec: the accessor [isAtrule] of [Style] (utils/style,
    absent from the sources).  The spec gives a Style an "optional list of
    wrapping at-rules"; a Style is an at-rule wrapper when that list has an
    entry. *)
Definition isAtrule (s : Style) : bool :=
  match s_atRules s with
  | Some (_ :: _) => true
  | _ => false
  end.

(** What [extract] and the dynamic generators return:
    [Style | Style[] | undefined]. *)
Inductive Output : Type :=
| OStyle (s : Style)
| OArray (l : list Style).

(** [toArray] / [if (!Array.isArray(styles)) styles = [styles]]. *)
Definition toArray (o : Output) : list Style :=
  match o with
  | OStyle s => [s]
  | OArray l => l
  end.

(** ** Configuration values

    Theme values are plain JavaScript data in which a function may stand at
    any place.  A function is kept as a code ([Fn]); calling it is
    [call_fn] below. *)
Inductive TV : Type :=
| TVUndef
| TVNull
| TVBool (b : bool)
| TVNum (n : Z)
| TVStr (s : string)
| TVObj (entries : list (string * TV))     (* objects and arrays, own keys in order *)
| TVFun (f : Fn)
with Fn : Type :=
| FUser (u : UserFn)                        (* a function written in the configuration *)
| FCombineFun (themeValue : Fn) (value : TV)   (* the closure of line 155 *)
| FCombineObj (themeValue : TV) (value : TV).  (* the closure of line 161 *)

Definition ThemeDict : Type := list (string * TV).

(** *** Property reads and writes on ordered objects *)

Fixpoint assoc_get {V : Type} (k : string) (l : list (string * V)) : option V :=
  match l with
  | [] => None
  | (k', v) :: l' => if String.eqb k k' then Some v else assoc_get k l'
  end.

(** [obj[k] = v]: an own key keeps its place, a new key goes last. *)
Fixpoint assoc_set {V : Type} (k : string) (v : V) (l : list (string * V)) : list (string * V) :=
  match l with
  | [] => [(k, v)]
  | (k', v') :: l' => if String.eqb k k' then (k, v) :: l' else (k', v') :: assoc_set k v l'
  end.

(** [delete obj[k]]. *)
Fixpoint assoc_del {V : Type} (k : string) (l : list (string * V)) : list (string * V) :=
  match l with
  | [] => []
  | (k', v') :: l' => if String.eqb k k' then l' else (k', v') :: assoc_del k l'
  end.

Definition assoc_has {V : Type} (k : string) (l : list (string * V)) : bool :=
  match assoc_get k l with Some _ => true | None => false end.

(** [{ ...a, ...b }] on ordered objects. *)
Definition assoc_spread {V : Type} (a b : list (string * V)) : list (string * V) :=
  fold_left (fun acc kv => assoc_set (fst kv) (snd kv) acc) b a.

(** The characters of a string as the entries ["0"], ["1"], ... *)
Fixpoint str_entries (i : nat) (s : string) : list (string * TV) :=
  match s with
  | EmptyString => []
  | String c s' => (pretty i, TVStr (String c EmptyString)) :: str_entries (S i) s'
  end.

(** [Object.entries(v)] and the own enumerable properties a spread copies. *)
Definition tv_entries (v : TV) : list (string * TV) :=
  match v with
  | TVObj es => es
  | TVStr s => str_entries 0 s
  | _ => []
  end.

Definition tv_is_fun (v : TV) : bool :=
  match v with TVFun _ => true | _ => false end.

(** A function stands somewhere in the value. *)
Fixpoint tv_has_fun (v : TV) : bool :=
  match v with
  | TVFun _ => true
  | TVObj es => existsb (fun kv => tv_has_fun (snd kv)) es
  | _ => false
  end.

(** [typeof v === 'object'] (true of [null] as well). *)
Definition tv_typeof_object (v : TV) : bool :=
  match v with TVObj _ | TVNull => true | _ => false end.

Definition tv_truthy (v : TV) : bool :=
  match v with
  | TVUndef | TVNull => false
  | TVBool b => b
  | TVNum n => negb (n =? 0)
  | TVStr s => str_truthy s
  | TVObj _ | TVFun _ => true
  end.

(** [v ?? d]. *)
Definition tv_nullish (v d : TV) : TV :=
  match v with
  | TVUndef | TVNull => d
  | _ => v
  end.

(** A property read [obj[k]] that yields [undefined] for a missing key. *)
Definition tv_get (k : string) (l : ThemeDict) : TV :=
  match assoc_get k l with Some v => v | None => TVUndef end.

(** ** Object literals used as tables

    The tables of the processor ([_variants] and the fields of [_plugin])
    are object literals.  A finite map holds the entries of a table, its own
    properties; besides, every object literal inherits the properties of
    [Object.prototype], so [key in table] holds for these names too, and
    [table[key]] reads the inherited value where the table has no entry of
    its own: a built-in method, or for [__proto__] the prototype itself. *)
Definition object_prototype_keys : list string :=
  ["constructor"; "hasOwnProperty"; "isPrototypeOf"; "propertyIsEnumerable";
   "toLocaleString"; "toString"; "valueOf"; "__defineGetter__"; "__defineSetter__";
   "__lookupGetter__"; "__lookupSetter__"; "__proto__"]%string.

Definition inherited (key : string) : bool := bool_decide (key ∈ object_prototype_keys).

(** [key in table]. *)
Definition js_in {V : Type} (key : string) (table : gmap string V) : bool :=
  bool_decide (is_Some (table !! key)) || inherited key.

(** [Object.prototype[name]()], called on a table without arguments:
    [__proto__] reads the prototype, which is no function, and
    [__defineGetter__] and [__defineSetter__] want a function as their
    second argument, so these three raise a TypeError; of the others,
    [__lookupGetter__] and [__lookupSetter__] return [undefined], and the
    rest return an object, a string or a boolean. *)
Definition raises_when_called (name : string) : bool :=
  bool_decide (name ∈ ["__proto__"; "__defineGetter__"; "__defineSetter__"]%string).

Definition returns_undefined (name : string) : bool :=
  bool_decide (name ∈ ["__lookupGetter__"; "__lookupSetter__"]%string).

(** ** Plugins and the configuration *)

(** A dynamic generator is called with [{ Utility, Style, Property,
    Keyframes }] (lines 1010-1015).  The three constructors passed along
    differ from the classes only in the default of their [important]
    argument, [uOptions.respectImportant && this._config.important ? true :
    false], read when the generator runs: the generator is a function of the
    utility and of that flag. *)
Definition UtilityGenerator : Type := Utility -> bool -> option Output.

(** A variant generator is called with the fixed [variantUtils], a fresh
    style and the configured separator (lines 1086-1090). *)
Definition VariantGenerator : Type := string -> Style.

Record PluginUtilOptions : Type := mkOptions {
  o_layer : option string;
  o_variants : option (list string);
  o_respectPrefix : option bool;
  o_respectImportant : option bool;
}.

(** The default value of [options] in [addUtilities] and [addDynamic]. *)
Definition default_options : PluginUtilOptions :=
  mkOptions (Some "utilities"%string) (Some []) (Some true) (Some true).

Inductive AddPluginType : Type :=
| PStatic | PUtilities | PComponents | PPreflights | PShortcuts.

(** A plugin handler is user code run with [pluginUtils].  It is modelled by
    the registrations it performs, in order.  [addUtilities], [addComponents]
    and [addBase] build their styles with [Style.generate] and file them with
    [_addPluginCache]; they stand here as the [_addPluginCache] calls they
    end in. *)
Inductive PluginCall : Type :=
| CallAddVariant (name : string) (generator : VariantGenerator)
| CallAddDynamic (key : string) (generator : UtilityGenerator)
                 (options : option (PluginUtilOptions + list string))
| CallAddPluginCache (type : AddPluginType) (key : string) (styles : list Style).

Definition Handler : Type := list PluginCall.

(** [corePlugins]: an allow-list or an object of overrides. *)
Inductive CorePlugins : Type :=
| CoreList (names : list string)
| CoreObject (flags : list (string * bool)).

(** [Config] (from [interfaces]): every option may be left out.  The keys
    the processor never reads by name are kept in [c_other]. *)
Inductive Config : Type :=
| mkConfig (presets : option (list Config))
           (theme : option ThemeDict)
           (plugins : option (list PluginEntry))
           (exclude : option (option RegExps))   (* the key may hold undefined *)
           (important : option BoolOrString)
           (prefix : option string)
           (separator : option string)
           (prefixer : option bool)
           (corePlugins : option CorePlugins)
           (other : list (string * TV))
with PluginEntry : Type :=
| PEOptionsFunction (f : list (string * string) -> PluginOutput)  (* __isOptionsFunction *)
| PEFunction (h : Handler)                                       (* a bare handler *)
| PEObject (o : PluginOutput)
with PluginOutput : Type :=
| mkPluginOutput (handler : Handler) (config : option Config).

Definition c_presets (c : Config) := let 'mkConfig x _ _ _ _ _ _ _ _ _ := c in x.
Definition c_theme (c : Config) := let 'mkConfig _ x _ _ _ _ _ _ _ _ := c in x.
Definition c_plugins (c : Config) := let 'mkConfig _ _ x _ _ _ _ _ _ _ := c in x.
Definition c_exclude (c : Config) := let 'mkConfig _ _ _ x _ _ _ _ _ _ := c in x.
Definition c_important (c : Config) := let 'mkConfig _ _ _ _ x _ _ _ _ _ := c in x.
Definition c_prefix (c : Config) := let 'mkConfig _ _ _ _ _ x _ _ _ _ := c in x.
Definition c_separator (c : Config) := let 'mkConfig _ _ _ _ _ _ x _ _ _ := c in x.
Definition c_prefixer (c : Config) := let 'mkConfig _ _ _ _ _ _ _ x _ _ := c in x.
Definition c_corePlugins (c : Config) := let 'mkConfig _ _ _ _ _ _ _ _ x _ := c in x.
Definition c_other (c : Config) := let 'mkConfig _ _ _ _ _ _ _ _ _ x := c in x.

Definition po_handler (o : PluginOutput) : Handler := let 'mkPluginOutput h _ := o in h.
Definition po_config (o : PluginOutput) : option Config := let 'mkPluginOutput _ c := o in c.

(** The empty object [{}] as a configuration. *)
Definition empty_config : Config :=
  mkConfig None None None None None None None None None [].

Definition set_c_presets (x : option (list Config)) (c : Config) : Config :=
  mkConfig x (c_theme c) (c_plugins c) (c_exclude c) (c_important c) (c_prefix c)
           (c_separator c) (c_prefixer c) (c_corePlugins c) (c_other c).

Definition set_c_theme (x : option ThemeDict) (c : Config) : Config :=
  mkConfig (c_presets c) x (c_plugins c) (c_exclude c) (c_important c) (c_prefix c)
           (c_separator c) (c_prefixer c) (c_corePlugins c) (c_other c).

(** ** The processor state *)

Record Cache : Type := mkCache {
  cache_html : list string;
  cache_classes : list string;
  cache_utilities : list string;
  cache_variants : list string;
}.

(** The closures [addDynamic] stores in [_plugin.dynamic] (lines 1016-1023):
    the one of a first registration, and the one of a registration under a
    key that is in the table already. *)
Inductive DynGen : Type :=
| DynFirst (generator : UtilityGenerator) (uOptions : PluginUtilOptions)
           (layer : string) (order : Z)
| DynChained (key : string) (generator : UtilityGenerator) (uOptions : PluginUtilOptions).

Record Plugin : Type := mkPlugin {
  pl_core : option (gmap string bool);
  pl_static : gmap string (list Style);
  pl_dynamic : gmap string DynGen;
  pl_utilities : gmap string (list Style);
  pl_components : gmap string (list Style);
  pl_preflights : gmap string (list Style);
  pl_shortcuts : gmap string (list Style);
  pl_alias : gmap string (list Element);
}.

(** The fields of the class.  [_variants] maps a name to the style its
    generator returns; object literals used as maps are finite maps, so the
    order of [Object.keys(this._variants)] is the order of [map_to_list],
    and a lookup sees the own keys of the object only, not the keys it
    inherits from [Object.prototype] (such as [constructor]). *)
Record Processor : Type := mkProc {
  _config : Config;
  _theme : option ThemeDict;
  _variants : gmap string Style;
  _cache : Cache;
  _plugin : Plugin;
}.

Definition set_config (c : Config) (p : Processor) : Processor :=
  mkProc c (_theme p) (_variants p) (_cache p) (_plugin p).
Definition set_theme (t : option ThemeDict) (p : Processor) : Processor :=
  mkProc (_config p) t (_variants p) (_cache p) (_plugin p).
Definition set_variants (v : gmap string Style) (p : Processor) : Processor :=
  mkProc (_config p) (_theme p) v (_cache p) (_plugin p).
Definition set_cache (c : Cache) (p : Processor) : Processor :=
  mkProc (_config p) (_theme p) (_variants p) c (_plugin p).
Definition set_plugin (pl : Plugin) (p : Processor) : Processor :=
  mkProc (_config p) (_theme p) (_variants p) (_cache p) pl.

Definition set_cache_classes (l : list string) (c : Cache) : Cache :=
  mkCache (cache_html c) l (cache_utilities c) (cache_variants c).
Definition set_cache_utilities (l : list string) (c : Cache) : Cache :=
  mkCache (cache_html c) (cache_classes c) l (cache_variants c).
Definition set_cache_variants (l : list string) (c : Cache) : Cache :=
  mkCache (cache_html c) (cache_classes c) (cache_utilities c) l.

Definition set_pl_core (x : option (gmap string bool)) (pl : Plugin) : Plugin :=
  mkPlugin x (pl_static pl) (pl_dynamic pl) (pl_utilities pl) (pl_components pl)
           (pl_preflights pl) (pl_shortcuts pl) (pl_alias pl).
Definition set_pl_static (x : gmap string (list Style)) (pl : Plugin) : Plugin :=
  mkPlugin (pl_core pl) x (pl_dynamic pl) (pl_utilities pl) (pl_components pl)
           (pl_preflights pl) (pl_shortcuts pl) (pl_alias pl).
Definition set_pl_utilities (x : gmap string (list Style)) (pl : Plugin) : Plugin :=
  mkPlugin (pl_core pl) (pl_static pl) (pl_dynamic pl) x (pl_components pl)
           (pl_preflights pl) (pl_shortcuts pl) (pl_alias pl).
Definition set_pl_components (x : gmap string (list Style)) (pl : Plugin) : Plugin :=
  mkPlugin (pl_core pl) (pl_static pl) (pl_dynamic pl) (pl_utilities pl) x
           (pl_preflights pl) (pl_shortcuts pl) (pl_alias pl).
Definition set_pl_preflights (x : gmap string (list Style)) (pl : Plugin) : Plugin :=
  mkPlugin (pl_core pl) (pl_static pl) (pl_dynamic pl) (pl_utilities pl) (pl_components pl)
           x (pl_shortcuts pl) (pl_alias pl).
Definition set_pl_shortcuts (x : gmap string (list Style)) (pl : Plugin) : Plugin :=
  mkPlugin (pl_core pl) (pl_static pl) (pl_dynamic pl) (pl_utilities pl) (pl_components pl)
           (pl_preflights pl) x (pl_alias pl).
Definition set_pl_dynamic (x : gmap string DynGen) (pl : Plugin) : Plugin :=
  mkPlugin (pl_core pl) (pl_static pl) x (pl_utilities pl) (pl_components pl)
           (pl_preflights pl) (pl_shortcuts pl) (pl_alias pl).

(** The state of [new Processor] before the constructor body runs
    (lines 80-98). *)
Definition initial_state : Processor :=
  mkProc empty_config None ∅ (mkCache [] [] [] [])
         (mkPlugin None ∅ ∅ ∅ ∅ ∅ ∅ ∅).

(** ** Reading the configuration

    [config(path, defaultValue)] is [getNestedValue(this._config, path) ??
    defaultValue] (line 926); for a path of one key that is the read of the
    field. *)
Definition config_important (p : Processor) : BoolOrString :=
  default (JBool false) (c_important (_config p)).    (* config('important', false) *)

Definition config_separator (p : Processor) : string :=
  default ":"%string (c_separator (_config p)).       (* config('separator', ':') *)

Definition config_prefix (p : Processor) : option string :=
  c_prefix (_config p).                               (* config('prefix') *)

Definition config_prefixer (p : Processor) : option bool :=
  c_prefixer (_config p).                             (* config('prefixer') *)

(** ** Style sheets and variant tables *)

Record StyleSheet : Type := mkSheet {
  children : list Style;
  prefixer : bool;
}.

(** What [resolveVariants(config)] of [lib/variants] returns. *)
Record VariantsByType : Type := mkVariantsByType {
  v_screen : gmap string Style;
  v_theme : gmap string Style;
  v_state : gmap string Style;
}.

End Data.

(** * The imported operations

    The methods of [Style] update the receiver in place and return it
    ([markAsImportant] calls [style.parent(..)] for its effect only), so
    each is a function from the receiver to the updated receiver.  An
    operation that runs the generators of the plugins, builds a regular
    expression from a text of the user, or is handed a value that is no
    style, may raise or not return: it yields an outcome.  The functions of
    a configuration (theme functions, variant generators, the callback
    [handleIgnored]) are described where they return. *)
Class Imports {types : Types} : Type := {
  (* utils/style *)
  new_Style : Style;                                    (* new Style() *)
  new_Container : Style;                                (* new Container() *)
  extend : Style -> Style -> Style;                     (* this.extend(item) *)
  (* this.extend(v), where v is what the method [name] inherited from
     Object.prototype returns when it is called on a table *)
  extend_other : Style -> string -> outcome Style;
  parent : Style -> string -> Style;                    (* this.parent(selector) *)
  updateMeta : Style -> string -> string -> Z -> Style; (* this.updateMeta(layer, group, order) *)
  Style_generate : string -> TV -> list Style;          (* Style.generate(selector, value) *)
  new_StyleSheet : StyleSheet;                          (* new StyleSheet() *)
  sheet_add : StyleSheet -> option Output -> StyleSheet; (* styleSheet.add(item) *)
  (* styleSheet.add(deepCopy(v)), where v is the value a table inherits
     from Object.prototype under [name] *)
  sheet_add_other : StyleSheet -> string -> outcome StyleSheet;
  sheet_sort : StyleSheet -> StyleSheet;                (* styleSheet.sort() *)
  sheet_sortby_sortGroup : StyleSheet -> StyleSheet;    (* styleSheet.sortby(sortGroup) *)
  sheet_combine : StyleSheet -> StyleSheet;             (* styleSheet.combine() *)
  (* config/order *)
  layerOrder : string -> Z;                             (* layerOrder[layer] *)
  pluginOrder_keys : list string;                       (* Object.keys(pluginOrder) *)
  (* utils/tools, utils/algorithm *)
  hash : string -> string;
  cssEscape : string -> string;
  testRegexr : string -> RegExps -> bool;
  combineTV : TV -> TV -> TV;                           (* combineConfig, on theme values *)
  combineConfig : Config -> Config -> Config;           (* combineConfig, on configurations *)
  (* new ClassParser(classNames, separator, variants).parse() *)
  parse : string -> option string -> list string -> list Element;
  (* extract(this, className, addComment, prefix) of lib/extract; it reads
     the processor and runs the generators of the plugins *)
  extract : Processor -> string -> bool -> option string -> outcome (option Output);
  (* resolveVariants(config) of lib/variants *)
  resolveVariants_import : Config -> VariantsByType;
  (* plugin(i) of plugin/index *)
  plugin_wrap : Handler -> PluginOutput;
  (* className.replace(new RegExp(`^${prefix}`), ''), by prefix and class
     name; the prefix is read as a regular expression, and building it
     raises a SyntaxError when it is none *)
  replace_leading : string -> string -> outcome string;
  (* i.match(/@screen/) together with i.replace(/\s*@screen\s*/, ''): the
     variant an at-rule names, if it names one *)
  screen_variant : string -> option string;
  (* a function of the configuration, called with the accessor [theme] and
     the helpers { negative, breakpoints }; the accessor reads [this._theme] *)
  user_call : UserFn -> option ThemeDict -> TV;
  (* deepCopy(v)(Utility), where v is the value the table of dynamic
     generators inherits from Object.prototype under [name] *)
  call_other : string -> Utility -> outcome (option Output);
}.

(** * The processor *)
Section Model.
Context {types : Types} {imports : Imports}.

(** ** [markAsImportant] (lines 314-326) *)

Definition effective_important (p : Processor) (force : BoolOrString) : BoolOrString :=
  if bs_truthy force then force else config_important p.

Definition flag_important (style : Style) : Style :=
  set_property (map (prop_set_important true) (s_property style))
               (set_important true style).

Definition markAsImportant (p : Processor) (style : Style) (force : BoolOrString) : Style :=
  let important := effective_important p force in
  if bs_truthy important then
    match important with
    | JStr sel => parent style sel
    | JBool _ => flag_important style
    end
  else style.

(** ** [wrapWithVariants] (lines 287-307) *)

(** What [this._variants[i]()] evaluates to: the style of a generator of the
    table, or what the method [name] inherited from [Object.prototype]
    returns. *)
Inductive Called : Type :=
| CalledStyle (s : Style)
| CalledOther (name : string).

(** [this._variants[i]()]: a name that is neither an entry nor inherited
    reads [undefined], and calling that raises a TypeError. *)
Definition call_variant (p : Processor) (i : string) : outcome Called :=
  match _variants p !! i with
  | Some st => Done (CalledStyle st)
  | None =>
      if inherited i && negb (raises_when_called i) then Done (CalledOther i)
      else Throw "TypeError: this._variants[i] is not a function"
  end.

(** [(previousValue.atRules as string[])[0]], read under [isAtrule]. *)
Definition first_atRule (s : Style) : string :=
  match s_atRules s with
  | Some (a :: _) => a
  | _ => empty_str
  end.

(** [previousValue.extend(currentValue)]. *)
Definition extend_called (previousValue : Style) (currentValue : Called) : outcome Style :=
  match currentValue with
  | CalledStyle s => Done (extend previousValue s)
  | CalledOther name => extend_other previousValue name
  end.

(** One step of the [reduce] callback.  [extend] has updated
    [previousValue] in place when [isAtrule] is read from it, so the test
    sees the extended style. *)
Definition wrap_step (acc : Style * list string) (currentValue : Called)
  : outcome (Style * list string) :=
  output <- extend_called (fst acc) currentValue ;;;
  Done (output, if isAtrule output then snd acc ++ [first_atRule output] else snd acc).

(** The body of the [styles.map] callback after the variant styles have been
    fetched. *)
Definition wrap_with (generated : list Called) (style : Style) : outcome Style :=
  r <- ofold wrap_step generated (new_Style, []) ;;;
  let '(folded, atrules) := r in
  let wrapped := extend folded style in
  let wrapped := if is_container style then extend new_Container wrapped else wrapped in
  match atrules with
  | [] => Done wrapped
  | _ :: _ => Done (set_meta_variants atrules wrapped)
  end.

Definition wrap_style (p : Processor) (variants : list string) (style : Style) : outcome Style :=
  if is_keyframes style then Done style
  else generated <- omap (call_variant p) variants ;;; wrap_with generated style.

Definition wrapWithVariants (p : Processor) (variants : list string) (styles : Output)
  : outcome (option (list Style)) :=
  let styles := toArray styles in
  match variants with
  | [] => Done (Some styles)
  | _ :: _ => wrapped <- omap (wrap_style p variants) styles ;;; Done (Some wrapped)
  end.

(** ** [addDynamic] (lines 997-1025) and the closures it stores *)

Definition normalize_options (options : option (PluginUtilOptions + list string))
  : PluginUtilOptions :=
  match options with
  | None => default_options
  | Some (inl o) => o
  | Some (inr vs) => mkOptions None (Some vs) None None     (* { variants: options } *)
  end.

(** The method returns [generator]; the embedding returns the state. *)
Definition addDynamic (p : Processor) (key : string) (generator : UtilityGenerator)
           (options : option (PluginUtilOptions + list string)) : Processor :=
  let uOptions := normalize_options options in
  let layer := default "utilities"%string (o_layer uOptions) in
  let order := layerOrder layer + 1 in
  let dynamic := pl_dynamic (_plugin p) in
  let closure :=
    if js_in key dynamic then DynChained key generator uOptions
    else DynFirst generator uOptions layer order in
  set_plugin (set_pl_dynamic (<[key := closure]> dynamic) (_plugin p)) p.

(** [uOptions.respectImportant && this._config.important ? true : false]. *)
Definition important_default (p : Processor) (uOptions : PluginUtilOptions) : bool :=
  default false (o_respectImportant uOptions)
  && match c_important (_config p) with Some v => bs_truthy v | None => false end.

(** Calling a stored closure in the processor state [p] of the time of the
    call.  [DynChained] reads [this._plugin.dynamic[key]] when it is called;
    [deepCopy] hands a function back as it is.  One unit of fuel is one
    frame of the call stack. *)
Fixpoint call_dynamic (fuel : nat) (p : Processor) (g : DynGen) (u : Utility)
  : outcome (option Output) :=
  match fuel with
  | O => OutOfFuel
  | S fuel' =>
      match g with
      | DynFirst generator uOptions layer order =>
          match generator u (important_default p uOptions) with
          | None => Done None
          | Some (OArray l) =>
              Done (Some (OArray (map (fun i => updateMeta i layer "plugin"%string order) l)))
          | Some (OStyle st) =>
              Done (Some (OStyle (updateMeta st layer "plugin"%string order)))
          end
      | DynChained key generator uOptions =>
          r <- match pl_dynamic (_plugin p) !! key with
               | Some stored => call_dynamic fuel' p stored u
               | None =>
                   if inherited key then call_other key u
                   else Throw "TypeError: deepCopy(...) is not a function"
               end ;;;
          match r with
          | Some out => Done (Some out)
          | None => Done (generator u (important_default p uOptions))
          end
      end
  end.

(** ** String helpers and prefixes *)

Definition set_atRules (x : option (list string)) (s : Style) : Style :=
  mkStyle (s_kind s) (s_selector s) (s_property s) (s_important s) x (s_meta s) (s_hidden s).

Definition set_prefixer (b : bool) (sh : StyleSheet) : StyleSheet :=
  mkSheet (children sh) b.

(** White space as [trim] and [\s] see it: the code units 9 to 13, the
    blank and the no-break space U+00A0, which are the white space and the
    line terminators of the language below 256. *)
Definition is_space (c : ascii) : bool :=
  let n := nat_of_ascii c in
  ((9 <=? n)%nat && (n <=? 13)%nat) || (n =? 32)%nat || (n =? 160)%nat.

Fixpoint trim_start (s : string) : string :=
  match s with
  | EmptyString => EmptyString
  | String c s' => if is_space c then trim_start s' else s
  end.

Fixpoint rev_string (acc s : string) : string :=
  match s with
  | EmptyString => acc
  | String c s' => rev_string (String c acc) s'
  end.

(** The string without the white space it ends with. *)
Fixpoint trim_end (s : string) : string :=
  match s with
  | EmptyString => EmptyString
  | String c s' =>
      match trim_end s' with
      | EmptyString => if is_space c then EmptyString else String c EmptyString
      | t => String c t
      end
  end.

(** [s.trim()]. *)
Definition js_trim (s : string) : string := trim_end (trim_start s).

(** [s.split(/\s+/g)]: the pieces between the runs of white space; [cur] is
    the piece being read, reversed, and [skipping] tells that the previous
    character was white space. *)
Fixpoint split_spaces (cur : string) (skipping : bool) (s : string) : list string :=
  match s with
  | EmptyString => [rev_string EmptyString cur]
  | String c s' =>
      if is_space c then
        if skipping then split_spaces EmptyString true s'
        else rev_string EmptyString cur :: split_spaces EmptyString true s'
      else split_spaces (String c cur) false s'
  end.

Definition js_split_spaces (s : string) : list string := split_spaces EmptyString false s.

(** [l.join(sep)]. *)
Fixpoint js_join (sep : string) (l : list string) : string :=
  match l with
  | [] => EmptyString
  | [x] => x
  | x :: l' => x +:+ sep +:+ js_join sep l'
  end.

(** [classNames.trim().split(/\s+/g).join(' ')]. *)
Definition normalize_classNames (classNames : string) : string :=
  js_join " " (js_split_spaces (js_trim classNames)).

(** [removePrefix] (lines 309-312). *)
Definition removePrefix (p : Processor) (className : string) : outcome string :=
  match config_prefix p with
  | Some prefix => if str_truthy prefix then replace_leading prefix className else Done className
  | None => Done className
  end.

(** ** The accumulators of [interpret] and [compile]

    [success], [ignored] and [styleSheet] are the locals the helper closures
    push to; [a_utilities] is [this._cache.utilities], the one field of the
    processor [interpret] writes. *)
Record Acc : Type := mkAcc {
  a_utilities : list string;
  a_success : list string;
  a_ignored : list string;
  a_sheet : StyleSheet;
}.

Definition push_utility (x : string) (a : Acc) : Acc :=
  mkAcc (a_utilities a ++ [x]) (a_success a) (a_ignored a) (a_sheet a).
Definition push_success (x : string) (a : Acc) : Acc :=
  mkAcc (a_utilities a) (a_success a ++ [x]) (a_ignored a) (a_sheet a).
Definition push_ignored (x : string) (a : Acc) : Acc :=
  mkAcc (a_utilities a) (a_success a) (a_ignored a ++ [x]) (a_sheet a).
Definition add_style (item : option Output) (a : Acc) : Acc :=
  mkAcc (a_utilities a) (a_success a) (a_ignored a) (sheet_add (a_sheet a) item).

(** The processor as the callbacks see it during a walk. *)
Definition proc_at (p : Processor) (a : Acc) : Processor :=
  set_cache (set_cache_utilities (a_utilities a) (_cache p)) p.

Definition HandleIgnored : Type := option (string -> option Output).

(** [_hIgnored] (lines 359-370 and 492-503, the same text). *)
Definition _hIgnored (handleIgnored : HandleIgnored) (className : string) (a : Acc) : Acc :=
  let a :=
    match handleIgnored with
    | Some h =>
        match h className with
        | Some style => push_success className (add_style (Some style) a)
        | None => push_ignored className a
        end
    | None => a
    end in
  push_ignored className a.

(** [this._config.exclude && testRegexr(selector, this._config.exclude)]. *)
Definition excluded (p : Processor) (selector : string) : bool :=
  match c_exclude (_config p) with
  | Some (Some patterns) => testRegexr selector patterns
  | _ => false
  end.

(** [variants[0] && selector in { ...this._plugin.utilities,
    ...this._plugin.components }]. *)
Definition plugin_selector (p : Processor) (variants : list string) (selector : string) : bool :=
  match variants with
  | v :: _ =>
      str_truthy v && js_in selector (pl_components (_plugin p) ∪ pl_utilities (_plugin p))
  | [] => false
  end.

(** [success.push(selector); styleSheet.add(deepCopy(this._plugin.utilities[selector]))]
    (lines 386-387 and 518-519): the selector may be an entry of the
    components only, or a name the tables inherit. *)
Definition add_plugin_utility (p : Processor) (selector : string) (a : Acc) : outcome Acc :=
  let a := push_success selector a in
  match pl_utilities (_plugin p) !! selector with
  | Some l => Done (add_style (Some (OArray l)) a)
  | None =>
      if inherited selector then
        sheet <- sheet_add_other (a_sheet a) selector ;;;
        Done (mkAcc (a_utilities a) (a_success a) (a_ignored a) sheet)
      else Done (add_style None a)
  end.

(** The tail shared by the two [_gStyle]: wrap, then file the result. *)
Definition wrap_and_add (p : Processor) (handleIgnored : HandleIgnored)
           (variants : list string) (selector : string) (result : Output) (a : Acc)
  : outcome Acc :=
  wrapped <- wrapWithVariants p variants result ;;;
  match wrapped with
  | Some w => Done (add_style (Some (OArray w)) (push_success selector a))
  | None => Done (_hIgnored handleIgnored selector a)
  end.

(** ** [interpret] (lines 348-468) *)

(** [_gStyle] of [interpret] (lines 372-414). *)
Definition interpret_gStyle (p : Processor) (handleIgnored : HandleIgnored)
           (baseClass : string) (variants : list string) (selector : string)
           (important : bool) (prefix : option string) (a : Acc) : outcome Acc :=
  let this := proc_at p a in
  if excluded this selector then Done (push_ignored selector a)
  else if plugin_selector this variants selector then add_plugin_utility this selector a
  else
    result <- extract this baseClass false prefix ;;;
    match result with
    | Some result =>
        let escapedSelector := "." +:+ cssEscape selector in
        let result :=
          match result with
          | OStyle st =>
              OStyle (markAsImportant this (set_selector escapedSelector st) (JBool important))
          | OArray l =>
              OArray (map (fun i =>
                             if is_keyframes i then i
                             else markAsImportant this (set_selector escapedSelector i)
                                                  (JBool important)) l)
          end in
        wrap_and_add this handleIgnored variants selector result a
    | None => Done (_hIgnored handleIgnored selector a)
    end.

(** The key [(u.content as string) in this._plugin.alias] looks up: the
    content converted to a string. *)
Definition content_key (c : Content Element) : string :=
  match c with
  | CString s => s
  | CNone => "undefined"
  | CArray l => js_join "," (map (fun _ => "[object Object]"%string) l)
  end.

(** [type === 'alias' && content in this._plugin.alias], with the body
    read when the test holds.  Under a name the table inherits, the value
    read is no array: [forEach] is not a function of it, and both places
    that walk the body (lines 421 and 451, through line 439) raise a
    TypeError. *)
Definition alias_body (p : Processor) (type : ElementType) (content : Content Element)
  : outcome (option (list Element)) :=
  if bool_decide (type = TAlias) then
    match pl_alias (_plugin p) !! content_key content with
    | Some body => Done (Some body)
    | None =>
        if inherited (content_key content)
        then Throw "TypeError: forEach is not a function"
        else Done None
    end
  else Done None.

(** [_eval] (lines 417-434) inside [_hGroup(obj, parentVariants)]; of [obj]
    it reads [variants] and [important].  The nesting of groups is followed
    by recursion on the element; [depth] bounds how deep alias bodies are
    expanded inside alias bodies. *)
Fixpoint interpret_eval (depth : nat) (p : Processor) (handleIgnored : HandleIgnored)
  : list string -> list string -> bool -> Element -> Acc -> outcome Acc :=
  fix _eval (parentVariants objVariants : list string) (objImportant : bool)
            (u : Element) (a : Acc) {struct u} : outcome Acc :=
    match u with
    | mkElement raw variants content type important =>
        if bool_decide (type = TGroup) then
          (* _hGroup(u, obj.variants) *)
          match content with
          | CArray l => ofold (fun a u' => _eval objVariants variants important u' a) l a
          | _ => Done a
          end
        else
          found <- alias_body p type content ;;;
          match found with
          | Some body =>
              match depth with
              | O => OutOfFuel
              | S depth' =>
                  ofold (fun a i => interpret_eval depth' p handleIgnored
                                      parentVariants objVariants objImportant i a) body a
              end
          | None =>
              let variants := parentVariants ++ objVariants ++ variants in
              let important := objImportant || important in
              match content with
              | CString c =>
                  let selector :=
                    (if important then "!" else EmptyString) +:+ js_join ":" (variants ++ [c]) in
                  interpret_gStyle p handleIgnored c variants selector important
                                   (config_prefix p) a
              | _ => Done a
              end
          end
    end.

(** [_hGroup] (lines 416-436). *)
Definition interpret_hGroup (depth : nat) (p : Processor) (handleIgnored : HandleIgnored)
           (obj : Element) (parentVariants : list string) (a : Acc) : outcome Acc :=
  match e_content obj with
  | CArray l =>
      ofold (fun a u => interpret_eval depth p handleIgnored parentVariants
                          (e_variants obj) (e_important obj) u a) l a
  | _ => Done a
  end.

(** The callback of [ast.forEach] in [_gAst] (lines 439-456); [rec] is
    [_gAst] itself, called on an alias body. *)
Definition interpret_gAst_step (rec : option (list Element -> Acc -> outcome Acc))
           (depth : nat) (p : Processor) (ignoreProcessed : bool)
           (handleIgnored : HandleIgnored) (a : Acc) (obj : Element) : outcome Acc :=
  if ignoreProcessed && bool_decide (e_raw obj ∈ a_utilities a) then Done a
  else
    let a := if ignoreProcessed then push_utility (e_raw obj) a else a in
    match e_type obj with
    | TUtility =>
        match e_content obj with
        | CArray _ => Done a
        | CString c =>
            if str_truthy c then
              interpret_gStyle p handleIgnored c (e_variants obj) (e_raw obj)
                               (e_important obj) (config_prefix p) a
            else Done a
        | CNone => Done a
        end
    | TGroup => interpret_hGroup depth p handleIgnored obj [] a
    | type =>
        found <- alias_body p type (e_content obj) ;;;
        match found with
        | Some body =>
            match rec with
            | Some _gAst => _gAst body a
            | None => OutOfFuel
            end
        | None => Done (_hIgnored handleIgnored (e_raw obj) a)
        end
    end.

(** [_gAst] (lines 438-457). *)
Fixpoint interpret_gAst (depth : nat) (p : Processor) (ignoreProcessed : bool)
         (handleIgnored : HandleIgnored) (ast : list Element) (a : Acc) : outcome Acc :=
  ofold (interpret_gAst_step
           match depth with
           | O => None
           | S depth' => Some (interpret_gAst depth' p ignoreProcessed handleIgnored)
           end
           depth p ignoreProcessed handleIgnored) ast a.

Record InterpretResult : Type := mkInterpretResult {
  ir_success : list string;
  ir_ignored : list string;
  ir_styleSheet : StyleSheet;
}.

(** [if (!this.config('prefixer')) styleSheet.prefixer = false]. *)
Definition apply_prefixer (p : Processor) (sh : StyleSheet) : StyleSheet :=
  if default false (config_prefixer p) then sh else set_prefixer false sh.

(** [interpret] returns its result and leaves the processor in the second
    component. *)
Definition interpret (depth : nat) (p : Processor) (classNames : string)
           (ignoreProcessed : bool) (handleIgnored : HandleIgnored)
  : outcome (InterpretResult * Processor) :=
  let ast := parse classNames (Some (config_separator p)) (cache_variants (_cache p)) in
  let a0 := mkAcc (cache_utilities (_cache p)) [] [] new_StyleSheet in
  a <- interpret_gAst depth p ignoreProcessed handleIgnored ast a0 ;;;
  Done (mkInterpretResult (a_success a) (a_ignored a)
                          (sheet_sort (apply_prefixer p (a_sheet a))),
        proc_at p a).

(** ** [compile] (lines 470-591) *)

(** Line 488: [outputClassName ?? prefix + hash(...)]. *)
Definition compile_className (classNames prefix : string) (outputClassName : option string)
  : string :=
  match outputClassName with
  | Some name => name
  | None => prefix +:+ hash (normalize_classNames classNames)
  end.

(** [_gStyle] of [compile] (lines 505-547). *)
Definition compile_gStyle (p : Processor) (showComment : bool) (handleIgnored : HandleIgnored)
           (buildSelector : string) (baseClass : string) (variants : list string)
           (selector : string) (important : bool) (a : Acc) : outcome Acc :=
  if excluded p selector then Done (push_ignored selector a)
  else if plugin_selector p variants selector then add_plugin_utility p selector a
  else
    result <- extract p baseClass showComment None ;;;
    match result with
    | Some result =>
        let result :=
          match result with
          | OArray l =>
              OArray (map (fun i =>
                             if is_keyframes i then set_meta_order 20 i
                             else markAsImportant p (set_selector buildSelector i)
                                                  (JBool important)) l)
          | OStyle st =>
              OStyle (markAsImportant p (set_selector buildSelector st) (JBool important))
          end in
        wrap_and_add p handleIgnored variants selector result a
    | None => Done (_hIgnored handleIgnored selector a)
    end.

(** [_hGroup] of [compile] (lines 549-566). *)
Fixpoint compile_hGroup (p : Processor) (showComment : bool) (handleIgnored : HandleIgnored)
         (buildSelector : string) (parentVariants : list string) (obj : Element) (a : Acc)
         {struct obj} : outcome Acc :=
  match obj with
  | mkElement _ objVariants content _ objImportant =>
      match content with
      | CArray l =>
          ofold (fun a u =>
                   if bool_decide (e_type u = TGroup) then
                     compile_hGroup p showComment handleIgnored buildSelector objVariants u a
                   else
                     let variants := parentVariants ++ objVariants ++ e_variants u in
                     match e_content u with
                     | CString c =>
                         let selector := js_join ":" (variants ++ [c]) in
                         baseClass <- removePrefix p c ;;;
                         compile_gStyle p showComment handleIgnored buildSelector
                                        baseClass variants selector
                                        (objImportant || e_important u) a
                     | _ => Done a
                     end) l a
      | _ => Done a
      end
  end.

(** The callback of [ast.forEach] (lines 568-580). *)
Definition compile_step (p : Processor) (showComment : bool) (handleIgnored : HandleIgnored)
           (buildSelector : string) (a : Acc) (obj : Element) : outcome Acc :=
  match e_type obj with
  | TUtility =>
      match e_content obj with
      | CArray _ => Done a
      | CString c =>
          if str_truthy c then
            baseClass <- removePrefix p c ;;;
            compile_gStyle p showComment handleIgnored buildSelector baseClass
                           (e_variants obj) (e_raw obj) (e_important obj) a
          else Done a
      | CNone => Done a
      end
  | TGroup => compile_hGroup p showComment handleIgnored buildSelector [] obj a
  | _ => Done (_hIgnored handleIgnored (e_raw obj) a)
  end.

Record CompileResult : Type := mkCompileResult {
  cr_success : list string;
  cr_ignored : list string;
  cr_className : option string;
  cr_styleSheet : StyleSheet;
}.

(** The default of [prefix]. *)
Definition default_prefix : string := "windi-".

Definition compile (p : Processor) (classNames : string) (prefix : string)
           (showComment ignoreGenerated : bool) (handleIgnored : HandleIgnored)
           (outputClassName : option string) : outcome (CompileResult * Processor) :=
  let ast := parse classNames (Some (config_separator p)) (cache_variants (_cache p)) in
  let className := compile_className classNames prefix outputClassName in
  if ignoreGenerated && bool_decide (className ∈ cache_classes (_cache p)) then
    Done (mkCompileResult [] [] (Some className) new_StyleSheet, p)
  else
    let buildSelector := "." +:+ className in
    let a0 := mkAcc (cache_utilities (_cache p)) [] [] new_StyleSheet in
    a <- ofold (compile_step p showComment handleIgnored buildSelector) ast a0 ;;;
    let className' :=
      match a_success a with
      | [] => None
      | _ :: _ => Some className
      end in
    let p' :=
      match className' with
      | Some name =>
          if ignoreGenerated && str_truthy name then
            set_cache (set_cache_classes (cache_classes (_cache p) ++ [name]) (_cache p)) p
          else p
      | None => p
      end in
    Done (mkCompileResult (a_success a) (a_ignored a) className'
                          (sheet_combine (sheet_sortby_sortGroup (apply_prefixer p (a_sheet a)))),
          p').

(** ** Configuration resolution (lines 130-258, 853-887, 1070-1094) *)

Inductive VariantTypes : Type := VScreen | VTheme | VState.

(** [{ ...a, ...b }] on finite maps: the keys of [b] win. *)
Definition spread_map {V : Type} (a b : gmap string V) : gmap string V := b ∪ a.

(** [resolveVariants] (lines 250-258). *)
Definition resolveVariants (p : Processor) (type : option VariantTypes) : gmap string Style :=
  let variants := resolveVariants_import (_config p) in
  match type with
  | Some VScreen => v_screen variants
  | Some VTheme => v_theme variants
  | Some VState => v_state variants
  | None => spread_map (spread_map (v_screen variants) (v_theme variants)) (v_state variants)
  end.

(** Calling a theme function with the accessor [theme] and the helpers
    [{ negative, breakpoints }]; [view] is [this._theme] at the time of the
    call, which is all the accessor reads. *)
Fixpoint call_fn (view : option ThemeDict) (f : Fn) : TV :=
  match f with
  | FUser u => user_call u view
  | FCombineFun themeValue value =>
      combineTV (call_fn view themeValue)
                match value with
                | TVFun g => call_fn view g
                | _ => tv_nullish value (TVObj [])
                end
  | FCombineObj themeValue value =>
      combineTV themeValue
                match value with
                | TVFun g => call_fn view g
                | _ => tv_nullish value (TVObj [])
                end
  end.

(** [_reduceFunction] (lines 150-167). *)
Definition _reduceFunction (theme : ThemeDict) (extendTheme : TV) : ThemeDict :=
  fold_left
    (fun theme kv =>
       let '(key, value) := kv in
       match tv_get key theme with
       | TVFun themeValue => assoc_set key (TVFun (FCombineFun themeValue value)) theme
       | (TVObj _ | TVNull) as themeValue =>
           assoc_set key (TVFun (FCombineObj themeValue value)) theme
       | _ => assoc_set key value theme
       end)
    (tv_entries extendTheme) theme.

(** [x ?? y] on options of a record. *)
Definition or_else {A : Type} (x y : option A) : option A :=
  match x with Some _ => x | None => y end.

(** [{ ...presets, ...userConfig, theme }]. *)
Definition spread_config (presets userConfig : Config) (theme : ThemeDict) : Config :=
  mkConfig (or_else (c_presets userConfig) (c_presets presets))
           (Some theme)
           (or_else (c_plugins userConfig) (c_plugins presets))
           (or_else (c_exclude userConfig) (c_exclude presets))
           (or_else (c_important userConfig) (c_important presets))
           (or_else (c_prefix userConfig) (c_prefix presets))
           (or_else (c_separator userConfig) (c_separator presets))
           (or_else (c_prefixer userConfig) (c_prefixer presets))
           (or_else (c_corePlugins userConfig) (c_corePlugins presets))
           (assoc_spread (c_other presets) (c_other userConfig)).

(** Lines 136-147 of [_resolveConfig], after the presets are resolved. *)
Definition merge_theme (userConfig presets : Config) : Config :=
  let userTheme := c_theme userConfig in
  let userConfig := set_c_theme None userConfig in
  let extendTheme :=
    match userTheme with
    | Some ut => if assoc_has "extend" ut then tv_nullish (tv_get "extend" ut) (TVObj [])
                 else TVObj []
    | None => TVObj []
    end in
  let theme := default [] (c_theme presets) in
  let theme :=
    match userTheme with
    | Some ut =>
        fold_left (fun theme kv =>
                     assoc_set (fst kv)
                               (if tv_is_fun (snd kv) then snd kv else TVObj (tv_entries (snd kv)))
                               theme)
                  (assoc_del "extend" ut) theme
    | None => theme
    end in
  let theme :=
    if tv_truthy extendTheme && tv_typeof_object extendTheme
    then _reduceFunction theme extendTheme else theme in
  spread_config presets userConfig theme.

(** [_resolvePresets] (lines 169-185); [resolve] is [_resolveConfig]. *)
Definition _resolvePresets (resolve : Config -> Config -> outcome Config)
           (presets : list Config) : outcome Config :=
  r <- ofold (fun (acc : Config * ThemeDict) p =>
                let '(config, extend) := acc in
                let '(extend, p) :=
                  match c_theme p with
                  | Some t =>
                      if assoc_has "extend" t && tv_truthy (tv_get "extend" t)
                      then (_reduceFunction extend (tv_get "extend" t),
                            set_c_theme (Some (assoc_del "extend" t)) p)
                      else (extend, p)
                  | None => (extend, p)
                  end in
                config <- resolve p config ;;; Done (config, extend))
             presets (empty_config, []) ;;;
  let '(config, extend) := r in
  match c_theme config with
  | Some t => Done (set_c_theme (Some (assoc_set "extend" (TVObj extend) t)) config)
  | None => Done (set_c_theme (Some [("extend"%string, TVObj extend)]) config)
  end.

(** [_resolveConfig] (lines 130-148).  The recursion follows the nesting of
    [presets]; one unit of fuel is one call. *)
Fixpoint _resolveConfig (fuel : nat) (userConfig presets : Config) : outcome Config :=
  match fuel with
  | O => OutOfFuel
  | S fuel' =>
      r <- match c_presets userConfig with
           | Some ps =>
               resolved <- _resolvePresets (_resolveConfig fuel') ps ;;;
               presets <- _resolveConfig fuel' resolved presets ;;;
               Done (set_c_presets None userConfig, presets)
           | None => Done (userConfig, presets)
           end ;;;
      Done (merge_theme (fst r) (snd r))
  end.

(** One of the two loops of [_resolveFunction]: [snapshot] is
    [Object.entries(dict)], taken before the loop; [assign k r theme] is the
    theme after [dict[k] = r]; [view theme] is what the accessor reads while
    the theme is [theme]. *)
Definition resolve_entries (view : ThemeDict -> option ThemeDict)
           (assign : string -> TV -> ThemeDict -> ThemeDict)
           (snapshot : list (string * TV)) (theme : ThemeDict) : ThemeDict :=
  fold_left
    (fun theme kv =>
       match snd kv with
       | TVFun value => assign (fst kv) (call_fn (view theme) value) theme
       | _ => theme
       end)
    snapshot theme.

(** [dict[k] = r] where [dict] is the object under [theme.extend]. *)
Definition assign_extend (k : string) (r : TV) (theme : ThemeDict) : ThemeDict :=
  assoc_set "extend" (TVObj (assoc_set k r (tv_entries (tv_get "extend" theme)))) theme.

(** [_resolveFunction] (lines 187-201).  The two dicts are fixed before the
    first loop runs.  [live] tells whether [this._theme] is the object
    [config.theme] the loops update, as it is for [this._config] (lines 240,
    876 and 879); for the configuration of a plugin (line 858) the accessor
    reads the theme of the processor. *)
Definition _resolveFunction (live : bool) (p : Processor) (config : Config) : Config :=
  match c_theme config with
  | None => config
  | Some theme0 =>
      let view := fun theme => if live then Some theme else _theme p in
      let extend0 :=
        if assoc_has "extend" theme0 then tv_nullish (tv_get "extend" theme0) (TVObj [])
        else TVObj [] in
      let theme1 := resolve_entries view assoc_set theme0 theme0 in
      let theme2 :=
        match extend0 with
        | TVObj es => resolve_entries view assign_extend es theme1
        | _ => theme1
        end in
      set_c_theme (Some theme2) config
  end.

(** [this._config = this._resolveFunction(this._config)] (lines 242 and
    878).  The functions are replaced inside the object [config.theme]; that
    object is [this._theme] too, so the accessor, and every later reader of
    [this._theme], sees the resolved entries (line 879 assigns it once
    more). *)
Definition resolve_own_config (p : Processor) : Processor :=
  let config := _resolveFunction true p (_config p) in
  set_theme (c_theme config) (set_config config p).

(** [_addPluginCache] (lines 217-222). *)
Definition plugin_cache (type : AddPluginType) (pl : Plugin) : gmap string (list Style) :=
  match type with
  | PStatic => pl_static pl
  | PUtilities => pl_utilities pl
  | PComponents => pl_components pl
  | PPreflights => pl_preflights pl
  | PShortcuts => pl_shortcuts pl
  end.

Definition set_plugin_cache (type : AddPluginType) (m : gmap string (list Style)) (pl : Plugin)
  : Plugin :=
  match type with
  | PStatic => set_pl_static m pl
  | PUtilities => set_pl_utilities m pl
  | PComponents => set_pl_components m pl
  | PPreflights => set_pl_preflights m pl
  | PShortcuts => set_pl_shortcuts m pl
  end.

(** Under a name the table inherits, [key in this._plugin[type]] holds and
    the spread of line 220 is handed a value that cannot be iterated: the
    call raises a TypeError and files nothing. *)
Definition _addPluginCache (p : Processor) (type : AddPluginType) (key : string)
           (styles : list Style) : outcome Processor :=
  let m := plugin_cache type (_plugin p) in
  let file entry := set_plugin (set_plugin_cache type (<[key := entry]> m) (_plugin p)) p in
  match m !! key with
  | Some old => Done (file (old ++ styles))
  | None =>
      if inherited key then Throw "TypeError: this._plugin[type][key] is not iterable"
      else Done (file styles)
  end.

(** [addVariant] (lines 1081-1094); the method returns [style]. *)
Definition addVariant (p : Processor) (name : string) (generator : VariantGenerator)
  : Processor :=
  let style := generator (config_separator p) in
  let p := set_variants (<[name := style]> (_variants p)) p in
  set_cache (set_cache_variants (cache_variants (_cache p) ++ [name]) (_cache p)) p.

(** [_replaceStyleVariants] (lines 203-215), on one at-rule and on a list
    of styles. *)
Definition replace_atRule (p : Processor) (i : string) : outcome string :=
  match screen_variant i with
  | Some variant =>
      called <- call_variant p variant ;;;
      match called with
      | CalledStyle st =>
          match s_atRules st with
          | Some (atRule :: _) => Done atRule
          | _ => Done i
          end
      | CalledOther name =>
          (* [.atRules] of what an inherited method has returned *)
          if returns_undefined name
          then Throw "TypeError: Cannot read properties of undefined"
          else Done i
      end
  | None => Done i
  end.

Definition _replaceStyleVariants (p : Processor) (styles : list Style) : outcome (list Style) :=
  omap (fun style =>
          match s_atRules style with
          | Some ats => ats' <- omap (replace_atRule p) ats ;;; Done (set_atRules (Some ats') style)
          | None => Done style
          end) styles.

(** [addBase] (lines 1070-1079); the method returns the styles. *)
Definition addBase (p : Processor) (baseStyles : list (string * TV)) : outcome Processor :=
  ofold (fun p kv =>
           let styles := map (fun i => updateMeta i "base"%string "plugin"%string 10)
                             (Style_generate (fst kv) (snd kv)) in
           styles <- _replaceStyleVariants p styles ;;;
           _addPluginCache p PPreflights (fst kv) styles)
        baseStyles p.

(** [theme(path)] for a path of one key (line 930). *)
Definition theme_key (p : Processor) (key : string) : TV :=
  match _theme p with
  | Some t => tv_get key t
  | None => TVUndef
  end.

(** [_loadVariables] (lines 224-228). *)
Definition _loadVariables (p : Processor) : outcome Processor :=
  let config := theme_key p "vars" in
  if tv_truthy config then
    addBase p [(":root"%string,
                TVObj (fold_left (fun acc kv => assoc_set ("--" +:+ fst kv) (snd kv) acc)
                                 (tv_entries config) []))]
  else Done p.

(** A step that updates a state in place or raises: the state it leaves,
    which is the state it has found when it raises, and the exception, if
    any. *)
Definition kept {S : Type} (s : S) (m : outcome S) : S * outcome unit :=
  match m with
  | Done s' => (s', Done tt)
  | Throw e => (s, Throw e)
  | OutOfFuel => (s, OutOfFuel)
  end.

(** A loop of steps that update a state in place: an exception ends the
    loop and leaves the state as the steps so far have made it. *)
Definition run_loop {S A : Type} (f : S -> A -> S * outcome unit)
  : list A -> S -> S * outcome unit :=
  fix go (l : list A) (s : S) : S * outcome unit :=
    match l with
    | [] => (s, Done tt)
    | a :: l' =>
        let r := f s a in
        match snd r with
        | Done _ => go l' (fst r)
        | _ => r
        end
    end.

(** One step after another. *)
Definition and_then {S : Type} (r : S * outcome unit) (k : S -> S * outcome unit)
  : S * outcome unit :=
  match snd r with
  | Done _ => k (fst r)
  | _ => r
  end.

(** A run of calls that update the processor or raise. *)
Definition run_calls {A : Type} (f : Processor -> A -> outcome Processor)
  : list A -> Processor -> Processor * outcome unit :=
  run_loop (fun p a => kept p (f p a)).

(** The processor of a run, when the run has gone through. *)
Definition finished (r : Processor * outcome unit) : outcome Processor :=
  _ <- snd r ;;; Done (fst r).

(** The body of a handler, call by call; a call that raises ends the
    handler. *)
Definition run_call (p : Processor) (c : PluginCall) : outcome Processor :=
  match c with
  | CallAddVariant name generator => Done (addVariant p name generator)
  | CallAddDynamic key generator options => Done (addDynamic p key generator options)
  | CallAddPluginCache type key styles => _addPluginCache p type key styles
  end.

Definition run_handler (handler : Handler) (p : Processor) : Processor * outcome unit :=
  run_calls run_call handler p.

(** The loop of lines 866-873 over the entries of [pluginTheme.extend]. *)
Definition extend_plugin_theme (pluginTheme : ThemeDict) (extendTheme : TV) : ThemeDict :=
  fold_left
    (fun pluginTheme kv =>
       let '(key, value) := kv in
       let themeValue := tv_get key pluginTheme in
       if tv_truthy themeValue && tv_typeof_object themeValue then
         assoc_set key (TVObj (assoc_spread (tv_entries themeValue) (tv_entries value)))
                   pluginTheme
       else if tv_truthy value && tv_typeof_object value then
         assoc_set key value pluginTheme
       else pluginTheme)
    (tv_entries extendTheme) pluginTheme.

(** The run of [loadPlugin] (lines 853-882): the processor the call
    leaves, and the exception of the handler, if it has raised one. *)
Definition loadPlugin_run (p : Processor) (plugin : PluginOutput)
  : Processor * outcome unit :=
  let p :=
    match po_config plugin with
    | Some config =>
        let config := _resolveFunction false p config in
        let config := combineConfig config (_config p) in
        let pluginTheme :=
          match c_theme config with
          | Some pluginTheme =>
              let extendTheme := tv_get "extend" pluginTheme in
              if tv_truthy extendTheme && tv_typeof_object extendTheme
              then Some (extend_plugin_theme pluginTheme extendTheme)
              else Some pluginTheme
          | None => None
          end in
        set_theme pluginTheme (set_config (set_c_theme pluginTheme config) p)
    | None => p
    end in
  let p := resolve_own_config p in
  let p := set_variants (resolveVariants p None) p in
  run_handler (po_handler plugin) p.

(** [loadPlugin]: the processor the call leaves, which is the one the
    handler has reached when it raises. *)
Definition loadPlugin (p : Processor) (plugin : PluginOutput) : Processor :=
  fst (loadPlugin_run p plugin).

(** [loadPluginWithOptions] (lines 884-887), called without [userOptions]. *)
Definition loadPluginWithOptions (p : Processor)
           (optionsFunction : list (string * string) -> PluginOutput)
  : Processor * outcome unit :=
  loadPlugin_run p (optionsFunction []).

(** The callback of [this._config.plugins?.map] (line 241). *)
Definition load_entry (p : Processor) (i : PluginEntry) : outcome Processor :=
  finished match i with
           | PEOptionsFunction f => loadPluginWithOptions p f
           | PEFunction h => loadPlugin_run p (plugin_wrap h)
           | PEObject o => loadPlugin_run p o
           end.

(** Line 246. *)
Definition core_plugins (corePlugins : CorePlugins) : gmap string bool :=
  match corePlugins with
  | CoreList names => fold_left (fun m i => <[i := true]> m) names ∅
  | CoreObject flags =>
      fold_left (fun m kv => <[fst kv := snd kv]> m) flags
                (fold_left (fun m i => <[i := true]> m)
                           (drop (length pluginOrder_keys / 2) pluginOrder_keys) ∅)
  end.

(** [resolveConfig] (lines 238-248); the method returns [this._config]. *)
Definition resolveConfig (fuel : nat) (p : Processor) (config : option Config)
           (presets : Config) : outcome Processor :=
  let userConfig :=
    let c := default empty_config config in
    mkConfig (c_presets c) (c_theme c) (c_plugins c)
             (Some (match config with Some c => mjoin (c_exclude c) | None => None end))
             (c_important c) (c_prefix c) (c_separator c) (c_prefixer c)
             (c_corePlugins c) (c_other c) in
  resolved <- _resolveConfig fuel userConfig presets ;;;
  let p := set_config resolved p in
  let p := set_theme (c_theme (_config p)) p in
  p <- ofold load_entry (default [] (c_plugins (_config p))) p ;;;
  let p := resolve_own_config p in
  let p := set_variants (spread_map (_variants p) (resolveVariants p None)) p in
  let p := set_cache (set_cache_variants (fst <$> map_to_list (_variants p)) (_cache p)) p in
  p <- _loadVariables p ;;;
  match c_corePlugins (_config p) with
  | Some cp => Done (set_plugin (set_pl_core (Some (core_plugins cp)) (_plugin p)) p)
  | None => Done p
  end.

(** ** Predicates of the statements *)

Definition cached_result (className : string) : CompileResult :=
  mkCompileResult [] [] (Some className) new_StyleSheet.

(** The walk only ever appends to [ignored]. *)
Definition ignored_grows (a a' : Acc) : Prop :=
  exists extra, a_ignored a' = a_ignored a ++ extra.

(** *** A style under the styles of variants

    The styles of the variants are folded from the left into a new style,
    and the style is folded into the result; a container is folded into a
    new container once more.  The at-rules kept in [meta.variants] are the
    first at-rules of the folds of the first variant, of the first two, and
    so on, where these folds are at-rules. *)
Definition collected_atRules (generated : list Style) : list string :=
  flat_map (fun k =>
              let folded := fold_left extend (take (S k) generated) new_Style in
              if isAtrule folded then [first_atRule folded] else [])
           (seq 0 (length generated)).

Definition wrapped_under (generated : list Style) (style : Style) : Style :=
  let wrapped := extend (fold_left extend generated new_Style) style in
  let wrapped := if is_container style then extend new_Container wrapped else wrapped in
  match collected_atRules generated with
  | [] => wrapped
  | atrules => set_meta_variants atrules wrapped
  end.

(** A utility token at the top level of the tree: its class name is a
    non-empty string. *)
Definition top_utility (obj : Element) (c : string) : Prop :=
  e_type obj = TUtility /\ e_content obj = CString c /\ str_truthy c = true.

(** *** The tokens of a tree

    What a walk does with a tree, token by token: it calls [_gStyle] for a
    class name under variants, with the selector it has put together; it
    calls [_hIgnored] for an element it has no use for; with
    [ignoreProcessed], [interpret] records a raw token. *)
Inductive Leaf : Type :=
| LStyle (content : string) (variants : list string) (selector : string) (important : bool)
| LIgnored (className : string)
| LSeen (raw : string).

(** The tokens of a group in [compile]: a member that is no group is a
    token under the variants handed down, those of the group and its own;
    a nested group is handed the variants of the group only. *)
Fixpoint compile_group_leaves (parentVariants : list string) (obj : Element) {struct obj}
  : list Leaf :=
  match obj with
  | mkElement _ objVariants content _ objImportant =>
      match content with
      | CArray l =>
          flat_map (fun u =>
                      if bool_decide (e_type u = TGroup) then compile_group_leaves objVariants u
                      else
                        let variants := parentVariants ++ objVariants ++ e_variants u in
                        match e_content u with
                        | CString c =>
                            [LStyle c variants (js_join ":" (variants ++ [c]))
                                    (objImportant || e_important u)]
                        | _ => []
                        end) l
      | _ => []
      end
  end.

(** The tokens of an element at the top level of the tree in [compile]: a
    utility with a class name is a token whose selector is the raw text. *)
Definition compile_leaves (obj : Element) : list Leaf :=
  match e_type obj with
  | TUtility =>
      match e_content obj with
      | CString c =>
          if str_truthy c then [LStyle c (e_variants obj) (e_raw obj) (e_important obj)]
          else []
      | _ => []
      end
  | TGroup => compile_group_leaves [] obj
  | _ => [LIgnored (e_raw obj)]
  end.

(** What [compile] does with a token. *)
Definition compile_leaf (p : Processor) (showComment : bool) (handleIgnored : HandleIgnored)
           (buildSelector : string) (a : Acc) (l : Leaf) : outcome Acc :=
  match l with
  | LStyle c variants selector important =>
      baseClass <- removePrefix p c ;;;
      compile_gStyle p showComment handleIgnored buildSelector baseClass variants selector
                     important a
  | LIgnored className => Done (_hIgnored handleIgnored className a)
  | LSeen raw => Done (push_utility raw a)
  end.

(** The tokens of a member of a group in [interpret]: the members of a
    registered alias stand for the alias, under the variants of the place
    of the alias; the selector of an important token starts with [!]. *)
Fixpoint eval_leaves (depth : nat) (p : Processor)
  : list string -> list string -> bool -> Element -> outcome (list Leaf) :=
  fix tokens (parentVariants objVariants : list string) (objImportant : bool)
             (u : Element) {struct u} : outcome (list Leaf) :=
    match u with
    | mkElement raw variants content type important =>
        if bool_decide (type = TGroup) then
          match content with
          | CArray l => ls <- omap (tokens objVariants variants important) l ;;; Done (concat ls)
          | _ => Done []
          end
        else
          found <- alias_body p type content ;;;
          match found with
          | Some body =>
              match depth with
              | O => OutOfFuel
              | S depth' =>
                  ls <- omap (eval_leaves depth' p parentVariants objVariants objImportant)
                             body ;;;
                  Done (concat ls)
              end
          | None =>
              let variants := parentVariants ++ objVariants ++ variants in
              let important := objImportant || important in
              match content with
              | CString c =>
                  Done [LStyle c variants
                               ((if important then "!" else EmptyString)
                                +:+ js_join ":" (variants ++ [c]))
                               important]
              | _ => Done []
              end
          end
    end.

(** The tokens of an element at the top level in [interpret], given the
    raw tokens recorded so far: with [ignoreProcessed], an element whose raw
    text is recorded has no token, and any other is recorded first; the
    members of a registered alias are elements at the top level in turn. *)
Definition interpret_leaves_step
           (rec : option (list Element -> list string -> outcome (list Leaf * list string)))
           (depth : nat) (p : Processor) (ignoreProcessed : bool)
           (seen : list string) (obj : Element) : outcome (list Leaf * list string) :=
  if ignoreProcessed && bool_decide (e_raw obj ∈ seen) then Done ([], seen)
  else
    let first := if ignoreProcessed then [LSeen (e_raw obj)] else [] in
    let seen := if ignoreProcessed then seen ++ [e_raw obj] else seen in
    match e_type obj with
    | TUtility =>
        match e_content obj with
        | CString c =>
            if str_truthy c
            then Done (first ++ [LStyle c (e_variants obj) (e_raw obj) (e_important obj)], seen)
            else Done (first, seen)
        | _ => Done (first, seen)
        end
    | TGroup =>
        match e_content obj with
        | CArray l =>
            ls <- omap (eval_leaves depth p [] (e_variants obj) (e_important obj)) l ;;;
            Done (first ++ concat ls, seen)
        | _ => Done (first, seen)
        end
    | type =>
        found <- alias_body p type (e_content obj) ;;;
        match found with
        | Some body =>
            match rec with
            | Some tokens => r <- tokens body seen ;;; Done (first ++ fst r, snd r)
            | None => OutOfFuel
            end
        | None => Done (first ++ [LIgnored (e_raw obj)], seen)
        end
    end.

(** The tokens of a list of elements, one element after the other. *)
Definition leaves_in_turn (step : list string -> Element -> outcome (list Leaf * list string))
  : list Element -> list string -> outcome (list Leaf * list string) :=
  fix go (ast : list Element) (seen : list string) : outcome (list Leaf * list string) :=
    match ast with
    | [] => Done ([], seen)
    | obj :: rest =>
        r <- step seen obj ;;;
        r' <- go rest (snd r) ;;;
        Done (fst r ++ fst r', snd r')
    end.

Fixpoint interpret_leaves (depth : nat) (p : Processor) (ignoreProcessed : bool)
         (ast : list Element) (seen : list string) : outcome (list Leaf * list string) :=
  leaves_in_turn (interpret_leaves_step
                    match depth with
                    | O => None
                    | S depth' => Some (interpret_leaves depth' p ignoreProcessed)
                    end
                    depth p ignoreProcessed) ast seen.

(** What [interpret] does with a token. *)
Definition interpret_leaf (p : Processor) (handleIgnored : HandleIgnored) (a : Acc) (l : Leaf)
  : outcome Acc :=
  match l with
  | LStyle c variants selector important =>
      interpret_gStyle p handleIgnored c variants selector important (config_prefix p) a
  | LIgnored className => Done (_hIgnored handleIgnored className a)
  | LSeen raw => Done (push_utility raw a)
  end.

(** A token whose selector matches [exclude], and the tokens that are left
    when these are taken out. *)
Definition excluded_leaf (p : Processor) (l : Leaf) : bool :=
  match l with
  | LStyle _ _ selector _ => excluded p selector
  | _ => false
  end.

Definition without_excluded (p : Processor) (ls : list Leaf) : list Leaf :=
  filter (fun l => excluded_leaf p l = false) ls.

(** Two accumulators that differ in [ignored] at most. *)
Definition same_but_ignored (a b : Acc) : Prop :=
  a_utilities a = a_utilities b /\ a_success a = a_success b /\ a_sheet a = a_sheet b.

(** What [addBase] and [_loadVariables] leave alone. *)
Definition same_but_plugin (p p' : Processor) : Prop :=
  _config p' = _config p /\ _theme p' = _theme p
  /\ _variants p' = _variants p /\ _cache p' = _cache p.

End Model.

(** * A small instance

    The imported operations are given simple bodies here, so that the
    embedding can be run on concrete inputs: the hidden state of a style is
    the list of its ancestor selectors, [extract] knows three utilities, the
    parser splits on white space and peels known variants, and patterns are
    matched by equality. *)
Module Sample.

#[export] Instance sample_types : Types := {|
  Hidden := list string;
  UserFn := nat;
  Utility := string;
  RegExps := list string;
|}.

Definition meta0 : Meta := mkMeta "utilities" "static" 0 [].

Definition s_new_Style : Style := mkStyle KStyle None [] false None meta0 [].
Definition s_new_Container : Style := mkStyle KContainer None [] false None meta0 [].

Definition s_extend (this item : Style) : Style :=
  mkStyle (s_kind this)
          (match s_selector item with
           | Some sel => Some sel
           | None => s_selector this
           end)
          (s_property this ++ s_property item)
          (s_important this || s_important item)
          (match s_atRules this, s_atRules item with
           | Some a, Some b => Some (a ++ b)
           | Some a, None => Some a
           | None, b => b
           end)
          (s_meta item)
          (s_hidden this ++ s_hidden item).

Definition s_parent (this : Style) (sel : string) : Style :=
  mkStyle (s_kind this) (s_selector this) (s_property this) (s_important this)
          (s_atRules this) (s_meta this) (sel :: s_hidden this).

Definition s_updateMeta (this : Style) (layer group : string) (order : Z) : Style :=
  set_meta (mkMeta layer group order (m_variants (s_meta this))) this.

Definition s_layerOrder (layer : string) : Z :=
  if String.eqb layer "base" then 10
  else if String.eqb layer "components" then 150
  else if String.eqb layer "utilities" then 20000
  else 0.

Definition s_new_StyleSheet : StyleSheet := mkSheet [] true.

Definition s_sheet_add (sh : StyleSheet) (item : option Output) : StyleSheet :=
  match item with
  | Some o => mkSheet (children sh ++ toArray o) (prefixer sh)
  | None => sh
  end.

Definition sheet_id (sh : StyleSheet) : StyleSheet := sh.

Definition s_hash (s : string) : string := pretty (String.length s).
Definition s_cssEscape (s : string) : string := s.
Definition s_testRegexr (selector : string) (patterns : list string) : bool :=
  bool_decide (selector ∈ patterns).

Fixpoint split_char (c : ascii) (cur s : string) : list string :=
  match s with
  | EmptyString => [rev_string EmptyString cur]
  | String x s' =>
      if Ascii.eqb x c then rev_string EmptyString cur :: split_char c EmptyString s'
      else split_char c (String x cur) s'
  end.

Fixpoint peel (known pieces : list string) : list string * list string :=
  match pieces with
  | v :: ((_ :: _) as rest) =>
      if bool_decide (v ∈ known) then (v :: fst (peel known rest), snd (peel known rest))
      else ([], pieces)
  | _ => ([], pieces)
  end.

Definition parse_token (known : list string) (tok : string) : Element :=
  let '(important, body) :=
    match tok with
    | String "!" rest => (true, rest)
    | _ => (false, tok)
    end in
  match body with
  | String "*" name => mkElement tok [] (CString name) TAlias important
  | _ =>
      let pieces := peel known (split_char ":" EmptyString body) in
      mkElement tok (fst pieces) (CString (js_join ":" (snd pieces))) TUtility important
  end.

Definition s_parse (classNames : string) (separator : option string) (known : list string)
  : list Element :=
  map (parse_token known) (filter (fun w => str_truthy w = true)
                                  (js_split_spaces (js_trim classNames))).

Definition decl (name value : string) : Property := mkProperty name (Some value) None false.

Definition rule (ps : list Property) : Style := mkStyle KStyle None ps false None meta0 [].

Definition keyframes (name : string) : Style :=
  mkStyle KKeyframes (Some name) [decl "transform" "rotate(360deg)"] false
          (Some ["@keyframes spin"%string]) meta0 [].

Definition padded (size : string) : Output := OStyle (rule [decl "padding" size]).

Definition s_extract (p : Processor) (className : string) (addComment : bool)
           (prefix : option string) : outcome (option Output) :=
  if String.eqb className "bg-red" then
    Done (Some (OStyle (rule [decl "background-color" "red"])))
  else if String.eqb className "p-2" then Done (Some (padded "0.5rem"))
  else if String.eqb className "spin" then
    Done (Some (OArray [keyframes "to"; rule [decl "animation" "spin 1s linear infinite"]]))
  else Done None.

Fixpoint drop_prefix (prefix s : string) : option string :=
  match prefix, s with
  | EmptyString, _ => Some s
  | String a prefix', String b s' => if Ascii.eqb a b then drop_prefix prefix' s' else None
  | String _ _, EmptyString => None
  end.

Definition s_replace_leading (prefix className : string) : outcome string :=
  if String.eqb prefix "(" then Throw "SyntaxError: Invalid regular expression"
  else Done (default className (drop_prefix prefix className)).

(** Extending a style by a value without properties, and adding such a
    value to a style sheet, change nothing. *)
Definition s_extend_other (this : Style) (name : string) : outcome Style := Done this.

Definition hover_style : Style := mkStyle KStyle None [] false None meta0 ["&:hover"%string].

Definition sm_style : Style :=
  mkStyle KStyle None [] false (Some ["@media (min-width: 640px)"%string]) meta0 [].

Definition s_resolveVariants_import (c : Config) : VariantsByType :=
  mkVariantsByType {[ "sm"%string := sm_style ]} ∅ {[ "hover"%string := hover_style ]}.

(** The functions of the sample configurations: a colour; a copy of the
    entries of [theme('spacing')]; [theme => theme('spacing')]; a spacing
    scale. *)
Definition s_user_call (u : nat) (view : option ThemeDict) : TV :=
  match u with
  | 0%nat => TVStr "#1c1c1e"
  | 1%nat =>
      match view with
      | Some t => TVObj (tv_entries (tv_get "spacing" t))
      | None => TVUndef
      end
  | 2%nat =>
      match view with
      | Some t => tv_get "spacing" t
      | None => TVUndef
      end
  | _ => TVObj [("2"%string, TVStr "0.5rem")]
  end.

Definition s_combineTV (a b : TV) : TV := TVObj (assoc_spread (tv_entries a) (tv_entries b)).

Definition s_combineConfig (a b : Config) : Config :=
  spread_config b a (assoc_spread (default [] (c_theme b)) (default [] (c_theme a))).

Definition s_plugin_wrap (h : Handler) : PluginOutput := mkPluginOutput h None.

Definition s_pluginOrder_keys : list string := ["0"; "1"; "preflight"; "container"]%string.

Definition s_Style_generate (selector : string) (v : TV) : list Style :=
  [mkStyle KStyle (Some selector)
           (map (fun kv => mkProperty (fst kv)
                                      (match snd kv with
                                       | TVStr s => Some s
                                       | _ => None
                                       end) None false)
                (tv_entries v))
           false None meta0 []].

Definition s_screen_variant (atRule : string) : option string := drop_prefix "@screen " atRule.

#[export] Instance sample_imports : Imports := {|
  new_Style := s_new_Style;
  new_Container := s_new_Container;
  extend := s_extend;
  extend_other := s_extend_other;
  parent := s_parent;
  updateMeta := s_updateMeta;
  Style_generate := s_Style_generate;
  new_StyleSheet := s_new_StyleSheet;
  sheet_add := s_sheet_add;
  sheet_add_other := fun sh _ => Done sh;
  sheet_sort := sheet_id;
  sheet_sortby_sortGroup := sheet_id;
  sheet_combine := sheet_id;
  layerOrder := s_layerOrder;
  pluginOrder_keys := s_pluginOrder_keys;
  hash := s_hash;
  cssEscape := s_cssEscape;
  testRegexr := s_testRegexr;
  combineTV := s_combineTV;
  combineConfig := s_combineConfig;
  parse := s_parse;
  extract := s_extract;
  resolveVariants_import := s_resolveVariants_import;
  plugin_wrap := s_plugin_wrap;
  replace_leading := s_replace_leading;
  screen_variant := s_screen_variant;
  user_call := s_user_call;
  call_other := fun _ _ => Throw "TypeError";
|}.

(** ** A processor state and inputs *)

Definition utility (raw : string) : Element := mkElement raw [] (CString raw) TUtility false.

Definition btn_body : list Element :=
  [mkElement "hover:p-2" ["hover"%string] (CString "p-2") TUtility false;
   mkElement "*base" [] (CString "base") TAlias false].

Definition alias0 : gmap string (list Element) :=
  <[ "btn"%string := btn_body ]> (<[ "base"%string := [utility "bg-red"] ]> ∅).

Definition config0 : Config :=
  mkConfig None (Some [("spacing"%string, TVObj [("2"%string, TVStr "0.5rem")])])
           None (Some (Some ["hidden"; "sm:p-2"]%string)) None None None (Some true) None [].

Definition p0 : Processor :=
  mkProc config0 (c_theme config0)
         (<[ "hover"%string := hover_style ]> (<[ "sm"%string := sm_style ]> ∅))
         (mkCache [] [] [] ["hover"; "sm"]%string)
         (mkPlugin None ∅ ∅ ∅ ∅ ∅ ∅ alias0).

Definition classes0 : string := "hover:bg-red nope  *btn !sm:p-2 hidden".






(** The tree of [sm:(p-2 bg-red)]. *)
Definition group0 : list Element :=
  [mkElement "sm:(p-2 bg-red)" ["sm"%string]
             (CArray [utility "p-2"; utility "bg-red"]) TGroup false].

Definition acc0 : Acc := mkAcc [] [] [] new_StyleSheet.

(** *** Dynamic generators *)

Definition old_gen : UtilityGenerator :=
  fun u _ => if String.eqb u "card" then Some (padded "1rem") else None.

Definition new_gen : UtilityGenerator :=
  fun u _ =>
    if String.eqb u "card" || String.eqb u "badge" then Some (padded "2rem") else None.

Definition p_first : Processor := addDynamic p0 "card" old_gen None.
Definition p_twice : Processor := addDynamic p_first "card" new_gen None.

Definition chained : DynGen := DynChained "card" new_gen default_options.

(** *** Calls of [compile] and [interpret] *)

Definition no_result : CompileResult * Processor := (mkCompileResult [] [] None new_StyleSheet, p0).

Definition first_call : CompileResult * Processor :=
  Eval vm_compute in
    match compile p0 classes0 default_prefix false true None None with
    | Done x => x
    | _ => no_result
    end.

Definition second_call : CompileResult * Processor :=
  Eval vm_compute in
    match compile (snd first_call) classes0 default_prefix false true None None with
    | Done x => x
    | _ => no_result
    end.



Definition nothing_call : CompileResult * Processor :=
  Eval vm_compute in
    match compile p0 "nope hidden" default_prefix false true None None with
    | Done x => x
    | _ => no_result
    end.

Definition interpreted : InterpretResult * Processor :=
  Eval vm_compute in
    match interpret 2 p0 classes0 false None with
    | Done x => x
    | _ => (mkInterpretResult [] [] new_StyleSheet, p0)
    end.

Definition ast0 : list Element :=
  Eval vm_compute in
    parse classes0 (Some (config_separator p0)) (cache_variants (_cache p0)).

(** *** Configurations *)

Definition custom_hover : Style :=
  mkStyle KStyle None [] false None meta0 [".group:hover &"%string].

Definition print_style : Style :=
  mkStyle KStyle None [] false (Some ["@media print"%string]) meta0 [].

Definition hover_plugin : PluginOutput :=
  mkPluginOutput [CallAddVariant "hover" (fun _ => custom_hover);
                  CallAddVariant "print" (fun _ => print_style)]
                 None.

Definition config_plugin : Config :=
  mkConfig None None (Some [PEObject hover_plugin]) None None None None None None [].

Definition resolved_plugin : Processor :=
  Eval vm_compute in
    match resolveConfig 1 initial_state (Some config_plugin) empty_config with
    | Done p => p
    | _ => initial_state
    end.

Definition accent : Fn := FUser 0%nat.
Definition copy_spacing : Fn := FUser 1%nat.
Definition read_spacing : Fn := FUser 2%nat.
Definition scale : Fn := FUser 3%nat.

Definition config_theme : Config :=
  mkConfig None
           (Some [("colors"%string, TVObj [("primary"%string, TVFun accent)]);
                  ("accent"%string, TVFun accent);
                  ("spacing"%string, TVObj [("2"%string, TVStr "0.5rem")]);
                  ("gap"%string, TVFun copy_spacing)])
           None None None None None None None [].

(** [gap] reads [spacing], which is a function listed after it. *)
Definition config_forward : Config :=
  mkConfig None
           (Some [("gap"%string, TVFun read_spacing); ("spacing"%string, TVFun scale)])
           None None None None None None None [].

Definition resolved_forward : Processor :=
  Eval vm_compute in
    match resolveConfig 1 initial_state (Some config_forward) empty_config with
    | Done p => p
    | _ => initial_state
    end.

Definition forward_after : ThemeDict :=
  [("gap"%string, TVFun scale); ("spacing"%string, TVObj [("2"%string, TVStr "0.5rem")])].

Definition resolved_theme : Processor :=
  Eval vm_compute in
    match resolveConfig 1 initial_state (Some config_theme) empty_config with
    | Done p => p
    | _ => initial_state
    end.

Definition theme_after : ThemeDict :=
  [("colors"%string, TVObj [("primary"%string, TVFun accent)]);
   ("accent"%string, TVStr "#1c1c1e");
   ("spacing"%string, TVObj [("2"%string, TVStr "0.5rem")]);
   ("gap"%string, TVObj [("2"%string, TVStr "0.5rem")])].

End Sample.


(** * The rest of the class

    [attributify], [preflight], [prefix], [config('corePlugins')],
    [addUtilities], [addComponents] and the two [resolve...Utilities], with
    the string operations they are written in. *)

(** ** Strings

    The classes and the literals the methods below compare code units with
    are ASCII: a code unit above 127 matches none of them. *)

(** [\w]. *)
Definition is_word (c : ascii) : bool :=
  let n := nat_of_ascii c in
  ((48 <=? n)%nat && (n <=? 57)%nat) || ((65 <=? n)%nat && (n <=? 90)%nat)
  || (n =? 95)%nat || ((97 <=? n)%nat && (n <=? 122)%nat).

(** [[@<\w]]. *)
Definition is_at_word (c : ascii) : bool :=
  Ascii.eqb c "@" || Ascii.eqb c "<" || is_word c.

Definition cons_run (r : string) (rs : list string) : list string :=
  match r with
  | EmptyString => rs
  | String _ _ => r :: rs
  end.

(** The run of [cls] the string starts with, which may be empty, and the
    later maximal runs. *)
Fixpoint runs (cls : ascii -> bool) (s : string) : string * list string :=
  match s with
  | EmptyString => (EmptyString, [])
  | String c s' =>
      let '(r, rs) := runs cls s' in
      if cls c then (String c r, rs) else (EmptyString, cons_run r rs)
  end.

(** [s.match(/[cls]+/g)]: the maximal runs from left to right; the empty
    list stands for [null]. *)
Definition match_all (cls : ascii -> bool) (s : string) : list string :=
  let '(r, rs) := runs cls s in cons_run r rs.

(** The words of a text: its maximal runs of characters that are no white
    space. *)
Definition is_nonspace (c : ascii) : bool := negb (is_space c).

Definition words (s : string) : list string := match_all is_nonspace s.

Fixpoint all_chars (cls : ascii -> bool) (s : string) : bool :=
  match s with
  | EmptyString => true
  | String c s' => cls c && all_chars cls s'
  end.

(** [s.match(/\w+$/)?.[0] ?? '']: the match starts at the first place from
    which the rest of the string is word characters. *)
Fixpoint word_suffix (s : string) : string :=
  match s with
  | EmptyString => EmptyString
  | String c s' => if is_word c && all_chars is_word s' then s else word_suffix s'
  end.

(** [s.split(sep)] for a separator of one character. *)
Fixpoint js_split (sep : ascii) (s : string) : list string :=
  match s with
  | EmptyString => [EmptyString]
  | String c s' =>
      if Ascii.eqb c sep then EmptyString :: js_split sep s'
      else match js_split sep s' with
           | x :: xs => String c x :: xs
           | [] => [String c EmptyString]
           end
  end.

(** [s.slice(n)] and [s.slice(0, n)]. *)
Fixpoint js_slice (n : nat) (s : string) : string :=
  match n, s with
  | O, _ => s
  | S n', String _ s' => js_slice n' s'
  | S _, EmptyString => EmptyString
  end.

Fixpoint js_slice_to (n : nat) (s : string) : string :=
  match n, s with
  | S n', String c s' => String c (js_slice_to n' s')
  | _, _ => EmptyString
  end.

(** [s.charAt(0)]. *)
Definition charAt0 (s : string) : string :=
  match s with
  | String c _ => String c EmptyString
  | EmptyString => EmptyString
  end.

(** [s.startsWith(t)], also [/^t/.test(s)] for a literal [t]. *)
Fixpoint startsWith (s t : string) {struct t} : bool :=
  match t, s with
  | EmptyString, _ => true
  | String a t', String b s' => Ascii.eqb a b && startsWith s' t'
  | String _ _, EmptyString => false
  end.

(** [/t/.test(s)] for a literal [t]: [t] starts somewhere in [s]. *)
Fixpoint has_infix (s t : string) : bool :=
  startsWith s t
  || match s with
     | EmptyString => false
     | String _ s' => has_infix s' t
     end.

(** [l.includes(x)] on strings. *)
Definition includes (l : list string) (x : string) : bool := existsb (String.eqb x) l.

(** [/^gradient-to-[trbl]{1,2}$/.test(s)]. *)
Definition is_gradient_direction (s : string) : bool :=
  startsWith s "gradient-to-"
  && match js_slice 12 s with
     | String a EmptyString => includes ["t"; "r"; "b"; "l"]%string (String a EmptyString)
     | String a (String b EmptyString) =>
         includes ["t"; "r"; "b"; "l"]%string (String a EmptyString)
         && includes ["t"; "r"; "b"; "l"]%string (String b EmptyString)
     | _ => false
     end.

(** The double quote, as a string of one character. *)
Definition dquote : string := String "034"%char EmptyString.

(** [l.slice(0, -1)] and [l.slice(-1)[0]] on the pieces of a split or of a
    match, which has one piece at least; [l.slice(0, -2)] and
    [l.slice(-2,)]. *)
Definition but_last {A : Type} (l : list A) : list A := take (length l - 1) l.
Definition last_of (l : list string) : string := default EmptyString (last l).
Definition but_last_two {A : Type} (l : list A) : list A := take (length l - 2) l.
Definition last_two {A : Type} (l : list A) : list A := drop (length l - 2) l.

(** [l.slice(-2, -1)[0]]: the element before the last, if there are two. *)
Definition before_last (l : list string) : option string :=
  match length l with
  | S (S n) => l !! n
  | _ => None
  end.

(** When a regular expression without groups matches the empty string,
    [replace] expands the replacement text so: [$$] is a dollar, [$&] the
    match, here empty, [$`] the text before the match and [$'] the text
    after it; every other [$] stands for itself. *)
Fixpoint expand_replacement (before after r : string) : string :=
  match r with
  | EmptyString => EmptyString
  | String a rest =>
      if Ascii.eqb a "$" then
        match rest with
        | String c r' =>
            if Ascii.eqb c "$" then String "$" (expand_replacement before after r')
            else if Ascii.eqb c "&" then expand_replacement before after r'
            else if Ascii.eqb c "`" then before +:+ expand_replacement before after r'
            else if Ascii.eqb c "'" then after +:+ expand_replacement before after r'
            else String "$" (expand_replacement before after rest)
        | EmptyString => String "$" EmptyString
        end
      else String a (expand_replacement before after rest)
  end.

(** The text before the first word character, and the text from it on. *)
Fixpoint split_at_word (s : string) : option (string * string) :=
  match s with
  | EmptyString => None
  | String c s' =>
      if is_word c then Some (EmptyString, s)
      else match split_at_word s' with
           | Some (before, after) => Some (String c before, after)
           | None => None
           end
  end.

(** ** Words, separators and outcomes, for the statements *)

(** A separator: one character at least, none of them in the class. *)
Definition separates (cls : ascii -> bool) (sep : string) : Prop :=
  sep <> EmptyString /\ all_chars (fun c => negb (cls c)) sep = true.

(** A word of the class: one character at least, all of them in the
    class. *)
Definition word_of (cls : ascii -> bool) (w : string) : Prop :=
  w <> EmptyString /\ all_chars cls w = true.

(** A string without the character [c]. *)
Definition free_of (c : ascii) (s : string) : Prop :=
  all_chars (fun x => negb (Ascii.eqb x c)) s = true.

(** ** The names [attributify] gives to utilities (lines 634-811) *)

(** Lines 634-638: the sign is set aside, the key is put in front, the sign
    is put back. *)
Definition attr_join (last utility : string) : string :=
  let negative := String.eqb (charAt0 utility) "-" in
  let utility := if negative then js_slice 1 utility else utility in
  let utility :=
    if includes ["m"; "p"]%string last
       && includes ["t"; "l"; "b"; "r"; "x"; "y"]%string (charAt0 utility)
    then last +:+ utility
    else last +:+ "-" +:+ utility in
  if negative then "-" +:+ utility else utility.

(** The [switch] of lines 640-811. *)
Definition attr_special (last utility : string) : string :=
  if String.eqb last "w" then
    if includes ["w-min"; "w-max"; "w-min-content"; "w-max-content"]%string utility
    then js_slice_to 5 utility
    else if startsWith utility "w-min" then "min-w" +:+ js_slice 5 utility
    else if startsWith utility "w-max" then "max-w" +:+ js_slice 5 utility
    else utility
  else if String.eqb last "h" then
    if includes ["h-min"; "h-max"; "h-min-content"; "h-max-content"]%string utility
    then js_slice_to 5 utility
    else if startsWith utility "h-min" then "min-h" +:+ js_slice 5 utility
    else if startsWith utility "h-max" then "max-h" +:+ js_slice 5 utility
    else utility
  else if String.eqb last "flex" then
    if String.eqb utility "flex-~" || String.eqb utility "flex-default" then "flex"
    else if String.eqb utility "flex-inline" then "inline-flex"
    else utility
  else if String.eqb last "grid" then
    if String.eqb utility "grid-~" || String.eqb utility "grid-default" then "grid"
    else if String.eqb utility "grid-inline" then "inline-grid"
    else if startsWith utility "grid-auto-" || startsWith utility "grid-gap-"
            || startsWith utility "grid-col-" || startsWith utility "grid-row-"
    then js_slice 5 utility
    else utility
  else if String.eqb last "container" then
    if String.eqb utility "container-default" || String.eqb utility "container-~"
    then "container" else utility
  else if String.eqb last "justify" then
    if startsWith utility "justify-content-" then "justify-" +:+ js_slice 16 utility
    else utility
  else if String.eqb last "align" then
    if startsWith utility "align-items-" || startsWith utility "align-self-"
       || startsWith utility "align-content-"
    then js_slice 6 utility
    else "content-" +:+ js_slice 6 utility
  else if String.eqb last "place" then
    if negb (startsWith utility "place-items-" || startsWith utility "place-self-"
             || startsWith utility "place-content-")
    then "place-content-" +:+ js_slice 6 utility
    else utility
  else if String.eqb last "font" then
    if startsWith utility "font-tracking-" || startsWith utility "font-leading-"
       || includes ["font-italic"; "font-not-italic"; "font-antialiased";
                    "font-subpixel-antialiased"; "font-normal-nums"; "font-ordinal";
                    "font-slashed-zero"; "font-lining-nums"; "font-oldstyle-nums";
                    "font-proportional-nums"; "font-tabular-nums";
                    "font-diagonal-fractions"; "font-stacked-fractions"]%string utility
    then js_slice 5 utility
    else utility
  else if String.eqb last "text" then
    if includes ["text-baseline"; "text-top"; "text-middle"; "text-bottom";
                 "text-text-top"; "text-text-bottom"]%string utility
    then "align-" +:+ js_slice 5 utility
    else if startsWith utility "text-placeholder" then js_slice 5 utility
    else if includes ["text-underline"; "text-line-through"; "text-no-underline";
                      "text-uppercase"; "text-lowercase"; "text-capitalize";
                      "text-normal-case"; "text-truncate"; "text-overflow-ellipsis";
                      "text-overflow-clip"; "text-break-normal"; "text-break-words";
                      "text-break-all"]%string utility
    then js_slice 5 utility
    else if startsWith utility "text-space" then "white" +:+ js_slice 5 utility
    else utility
  else if String.eqb last "svg" then
    if startsWith utility "svg-fill" || startsWith utility "svg-stroke"
    then js_slice 4 utility else utility
  else if String.eqb last "border" then
    if String.eqb utility "border-~" || String.eqb utility "border-default" then "border"
    else if startsWith utility "border-rounded" then js_slice 7 utility
    else utility
  else if String.eqb last "ring" then
    if String.eqb utility "ring-~" || String.eqb utility "ring-default" then "ring"
    else utility
  else if String.eqb last "shadow" then
    if String.eqb utility "shadow-~" || String.eqb utility "shadow-default" then "shadow"
    else utility
  else if String.eqb last "gradient" then
    if String.eqb utility "gradient-none" then "bg-none"
    else if is_gradient_direction utility then "bg-" +:+ utility
    else if startsWith utility "gradient-from-" || startsWith utility "gradient-via-"
            || startsWith utility "gradient-to-"
    then js_slice 9 utility
    else utility
  else if String.eqb last "display" then js_slice 8 utility
  else if String.eqb last "pos" then js_slice 4 utility
  else if String.eqb last "position" then js_slice 9 utility
  else if String.eqb last "box" then
    if startsWith utility "box-decoration" || startsWith utility "box-shadow"
    then js_slice 4 utility else utility
  else if String.eqb last "filter" then
    if String.eqb utility "filter-~" || String.eqb utility "filter-default" then "filter"
    else if negb (String.eqb utility "filter-none") then js_slice 7 utility
    else utility
  else if String.eqb last "backdrop" then
    if String.eqb utility "backdrop-~" || String.eqb utility "backdrop-default"
    then "backdrop-filter"
    else if String.eqb utility "backdrop-none" then "backdrop-filter-none"
    else utility
  else if String.eqb last "transition" then
    if String.eqb utility "transition-~" || String.eqb utility "transition-default"
    then "transition"
    else if has_infix utility "transition-duration-" || has_infix utility "transition-ease-"
            || has_infix utility "transition-delay-"
    then js_slice 11 utility
    else utility
  else if String.eqb last "transform" then
    if String.eqb utility "transform-~" || String.eqb utility "transform-default"
    then "transform"
    else if negb (includes ["transform-gpu"; "transform-none"]%string utility)
    then js_slice 10 utility
    else utility
  else if String.eqb last "isolation" then
    if String.eqb utility "isolation-isolate" then "isolate" else utility
  else if String.eqb last "table" then
    if String.eqb utility "table-~" || String.eqb utility "table-default" then "table"
    else if String.eqb utility "table-inline" then "inline-table"
    else utility
  else if String.eqb last "pointer" then "pointer-events" +:+ js_slice 7 utility
  else if String.eqb last "resize" then
    if includes ["resize-both"; "resize-~"; "resize-default"]%string utility
    then "resize" else utility
  else if String.eqb last "blend" then "mix-" +:+ utility
  else if String.eqb last "sr" then
    if String.eqb utility "sr-not-only" then "not-sr-only" else utility
  else utility.

(** The keys the [switch] has a case for, and the two that line 637 treats
    apart. *)
Definition special_keys : list string :=
  ["w"; "h"; "flex"; "grid"; "container"; "justify"; "align"; "place"; "font"; "text";
   "svg"; "border"; "ring"; "shadow"; "gradient"; "display"; "pos"; "position"; "box";
   "filter"; "backdrop"; "transition"; "transform"; "isolation"; "table"; "pointer";
   "resize"; "blend"; "sr"; "m"; "p"]%string.

(** What [attributify] is given for one attribute: a string or an array of
    strings. *)
Inductive AttrValue : Type :=
| AttrStr (s : string)
| AttrArr (l : list string).

(** What [guessClassName] returns for one selector: [{ selector, isClass,
    pseudo? }]; for a list of selectors it returns an array of these. *)
Record ClassGuess : Type := mkGuess {
  g_selector : string;
  g_isClass : bool;
  g_pseudo : option string;
}.

Inductive Guess : Type :=
| GuessOne (g : ClassGuess)
| GuessMany (l : list ClassGuess).

(** * Further imported operations *)
Class MoreImports {types : Types} : Type := {
  (* preflight(this, html, includeBase, includeGlobal, includePlugins) of
     lib/preflight *)
  preflight_import : Processor -> option string -> bool -> bool -> bool -> StyleSheet;
  (* the keys [for (const key in staticUtilities)] runs through *)
  staticUtilities_keys : list string;
  (* generateStaticStyle(this, key, true) of lib/extract *)
  generateStaticStyle : Processor -> string -> bool -> option Style;
  (* the functions of [dynamicUtilities] (lib/utilities) *)
  BuiltinDynamic : Type;
  dynamicUtilities : gmap string BuiltinDynamic;
  (* guessClassName(selector) of utils/tools *)
  guessClassName : string -> Guess;
  (* style.clone(selector) and style.wrapSelector(f) of utils/style; both
     return a new style *)
  clone : Style -> option string -> Style;
  wrapSelector : Style -> (string -> string) -> Style;
}.

Section More.
Context {types : Types} {imports : Imports} {more : MoreImports}.

(** ** [attributify] (lines 593-851) *)

(** [id in this._variants]. *)
Definition in_variants (p : Processor) (id : string) : bool := js_in id (_variants p).

(** Lines 605-812 of [_gStyle]: the variants and the utility an attribute
    stands for; [None] is the [return] after [ignored.push]. *)
Definition attr_split (p : Processor) (key value : string) : option (list string * string) :=
  let id := word_suffix key in
  let splits := js_split ":" value in
  let variants := but_last splits in
  let utility := last_of splits in
  if in_variants p id && negb (String.eqb id "svg") then
    match match_all is_at_word key with
    | [] => None
    | matches => Some (matches ++ variants, utility)
    end
  else
    match match_all is_word key with
    | [] => None
    | matches =>
        let '(variants, last) :=
          if match before_last matches with
             | Some m => includes ["min"; "max"]%string m
             | None => false
             end
          then (but_last_two matches ++ variants, js_join "-" (last_two matches))
          else (but_last matches ++ variants, last_of matches) in
        Some (variants, attr_special last (attr_join last utility))
    end.

(** [`[${this.e(key)}${equal?'=':'~='}"${value}"]`]. *)
Definition attr_selector (key value : string) (equal : bool) : string :=
  "[" +:+ cssEscape key +:+ (if equal then "=" else "~=") +:+ dquote +:+ value +:+ dquote
  +:+ "]".

Definition attr_ignore (sel : string) (a : InterpretResult) : InterpretResult :=
  mkInterpretResult (ir_success a) (ir_ignored a ++ [sel]) (ir_styleSheet a).

(** The value of an attribute once a leading [!] is taken off (lines
    603-604). *)
Definition attr_value (value : string) : string :=
  if startsWith value "!" then js_slice 1 value else value.

(** [_gStyle] (lines 597-836); the accumulator holds [success], [ignored]
    and [styleSheet]. *)
Definition attributify_gStyle (p : Processor) (key value : string) (equal : bool)
           (a : InterpretResult) : outcome InterpretResult :=
  let buildSelector := attr_selector key value equal in
  let importantValue := startsWith value "!" in
  match attr_split p key (attr_value value) with
  | None => Done (attr_ignore buildSelector a)
  | Some (variants, utility) =>
      style <- extract p utility false None ;;;
      match style with
      | Some style =>
          let important := String.eqb (charAt0 key) "!" || importantValue in
          let style :=
            match style with
            | OArray l =>
                OArray (map (fun i =>
                               if is_keyframes i then i
                               else markAsImportant p (set_selector buildSelector i)
                                                    (JBool important)) l)
            | OStyle st =>
                OStyle (markAsImportant p (set_selector buildSelector st) (JBool important))
            end in
          wrapped <- wrapWithVariants p variants style ;;;
          match wrapped with
          | Some w =>
              Done (mkInterpretResult (ir_success a ++ [buildSelector]) (ir_ignored a)
                                      (sheet_add (ir_styleSheet a) (Some (OArray w))))
          | None => Done (attr_ignore buildSelector a)
          end
      | None => Done (attr_ignore buildSelector a)
      end
  end.

(** The calls of [_gStyle] one attribute makes (lines 839-843). *)
Definition attributify_entry (p : Processor) (a : InterpretResult) (kv : string * AttrValue)
  : outcome InterpretResult :=
  match snd kv with
  | AttrArr l => ofold (fun a i => attributify_gStyle p (fst kv) i false a) l a
  | AttrStr v => attributify_gStyle p (fst kv) v true a
  end.

(** [attrs] is [Object.entries(attrs)]. *)
Definition attributify (p : Processor) (attrs : list (string * AttrValue))
  : outcome InterpretResult :=
  a <- ofold (attributify_entry p) attrs (mkInterpretResult [] [] new_StyleSheet) ;;;
  Done (mkInterpretResult (ir_success a) (ir_ignored a)
                          (sheet_combine (sheet_sort (ir_styleSheet a)))).

(** The key, the value and the flag [equal] of every call of [_gStyle], in
    the order of the calls. *)
Definition attr_calls (attrs : list (string * AttrValue)) : list (string * string * bool) :=
  flat_map (fun kv =>
              match snd kv with
              | AttrArr l => map (fun i => (fst kv, i, false)) l
              | AttrStr v => [(fst kv, v, true)]
              end) attrs.

(** The attributes [attributify] finds a style for, the selector it reports
    for an attribute, and the attributes whose variants the table knows. *)
Definition attr_styled (p : Processor) (call : string * string * bool) : Prop :=
  match attr_split p call.1.1 (attr_value call.1.2) with
  | Some (_, utility) =>
      match extract p utility false None with
      | Done (Some _) => True
      | _ => False
      end
  | None => False
  end.

Global Instance attr_styled_dec (p : Processor) (call : string * string * bool) :
  Decision (attr_styled p call).
Proof.
  unfold attr_styled. destruct (attr_split _ _ _) as [[? ?]|]; [|apply _].
  destruct (extract _ _ _ _) as [[?|]| |]; apply _.
Defined.

Definition attr_call_selector (call : string * string * bool) : string :=
  attr_selector call.1.1 call.1.2 call.2.

(** An attribute for which [extract] returns, and whose variants are entries
    of the table when it returns a style. *)
Definition attr_variants_known (p : Processor) (call : string * string * bool) : Prop :=
  match attr_split p call.1.1 (attr_value call.1.2) with
  | Some (variants, utility) =>
      match extract p utility false None with
      | Done (Some _) => Forall (fun v => is_Some (_variants p !! v)) variants
      | Done None => True
      | _ => False
      end
  | None => True
  end.

(** One call of [_gStyle], as a function of the call. *)
Definition attr_step (p : Processor) (a : InterpretResult) (call : string * string * bool)
  : outcome InterpretResult :=
  attributify_gStyle p call.1.1 call.1.2 call.2 a.


(** The cache of processed tokens grows during a walk of [interpret]. *)
Definition utilities_grow (a a' : Acc) : Prop :=
  exists extra, a_utilities a' = a_utilities a ++ extra.

(** A token at the top level of the tree that [interpret] hands to
    [_hIgnored]: a utility that is not excluded, is no plugin selector and
    that [extract] declines; an element that is neither a utility, nor a
    group, nor an alias whose name the table of aliases holds or
    inherits. *)
Definition handed_to_hIgnored (p : Processor) (obj : Element) : Prop :=
  match e_type obj with
  | TUtility =>
      exists c, top_utility obj c
                /\ excluded p (e_raw obj) = false
                /\ plugin_selector p (e_variants obj) (e_raw obj) = false
                /\ forall a, extract (proc_at p a) c false (config_prefix p) = Done None
  | TGroup => False
  | type => alias_body p type (e_content obj) = Done None
  end.

(** What [_hIgnored] reports for a class name: with a handler, the name
    goes to [success] when the handler gives a style, and to [ignored] in
    every case, twice when the handler gives none. *)
Definition reported_success (handleIgnored : HandleIgnored) (className : string)
  : list string :=
  match handleIgnored with
  | Some h => match h className with Some _ => [className] | None => [] end
  | None => []
  end.

Definition reported_ignored (handleIgnored : HandleIgnored) (className : string)
  : list string :=
  match handleIgnored with
  | Some h => match h className with Some _ => [className] | None => [className; className] end
  | None => [className]
  end.

(** ** [prefix] (lines 951-953)

    [selector.replace(/(?=[\w])/, this._config.prefix ?? '')]: the empty
    match in front of the first word character is replaced. *)
Definition prefix_selector (p : Processor) (selector : string) : string :=
  match split_at_word selector with
  | Some (before, after) =>
      before +:+ expand_replacement before after (default EmptyString (c_prefix (_config p)))
      +:+ after
  | None => selector
  end.

(** ** [preflight] (lines 332-346)

    The method returns the style sheet; the processor is the second
    component. *)
Definition preflight (p : Processor) (html : option string)
           (includeBase includeGlobal includePlugins ignoreProcessed : bool)
  : StyleSheet * Processor :=
  let id :=
    match html with
    | Some h => if str_truthy h then Some (hash h) else None
    | None => None
    end in
  match id with
  | Some i =>
      if ignoreProcessed && bool_decide (i ∈ cache_html (_cache p)) then (new_StyleSheet, p)
      else
        let p :=
          if str_truthy i && ignoreProcessed then
            set_cache (mkCache (cache_html (_cache p) ++ [i]) (cache_classes (_cache p))
                               (cache_utilities (_cache p)) (cache_variants (_cache p))) p
          else p in
        (preflight_import p html includeBase includeGlobal includePlugins, p)
  | None => (preflight_import p html includeBase includeGlobal includePlugins, p)
  end.

(** ** [resolveStaticUtilities], [resolveDynamicUtilities] (lines 260-273) *)

Definition resolveStaticUtilities (p : Processor) (includePlugins : bool)
  : gmap string (list Style) :=
  let staticStyles :=
    fold_left (fun m key =>
                 match generateStaticStyle p key true with
                 | Some style => <[key := [style]]> m
                 | None => m
                 end) staticUtilities_keys ∅ in
  if negb includePlugins then staticStyles
  else spread_map (spread_map staticStyles (pl_utilities (_plugin p)))
                  (pl_components (_plugin p)).

Definition resolveDynamicUtilities (p : Processor) (includePlugins : bool)
  : gmap string (BuiltinDynamic + DynGen) :=
  if negb includePlugins then inl <$> dynamicUtilities
  else spread_map (inl <$> dynamicUtilities) (inr <$> pl_dynamic (_plugin p)).

(** ** [addUtilities] and [addComponents] (lines 955-995 and 1027-1068)

    The two methods differ in the table they file classes under, in their
    default options, in when they set the layer, and in how they treat a
    list of selectors; [type] is [PUtilities] or [PComponents]. *)

(** The default of [options] in [addComponents]. *)
Definition default_component_options : PluginUtilOptions :=
  mkOptions (Some "components"%string) (Some []) (Some false) None.

Definition normalize_component_options (options : option (PluginUtilOptions + list string))
  : PluginUtilOptions :=
  match options with
  | None => default_component_options
  | Some (inl o) => o
  | Some (inr vs) => mkOptions None (Some vs) None None     (* { variants: options } *)
  end.

(** [pseudo ? x.clone('.' + cssEscape(selector)).wrapSelector(selector =>
    selector + pseudo) : otherwise]. *)
Definition with_pseudo {A : Type} (g : ClassGuess) (cloned : (Style -> Style) -> A)
           (otherwise : A) : A :=
  match g_pseudo g with
  | Some pseudo =>
      if str_truthy pseudo then
        cloned (fun x => wrapSelector (clone x (Some ("." +:+ cssEscape (g_selector g))))
                                      (fun selector => selector +:+ pseudo))
      else otherwise
  | None => otherwise
  end.

(** [className.filter(i => !i.isClass).map(i => i.selector).join(', ')]. *)
Definition base_selector (l : list ClassGuess) : string :=
  js_join ", " (map g_selector (filter (fun i => g_isClass i = false) l)).

(** The callback of [styles.forEach] under a key that starts with [@]
    (lines 975-984 and 1042-1051, the same text up to the table).
    [className] is a variable of the enclosing loop: a style without a
    selector is filed under the guess made for the style before it. *)
Definition add_at_rule_style (type : AddPluginType) (acc : Processor * Guess) (style : Style)
  : (Processor * Guess) * outcome unit :=
  let '(p, className) := acc in
  let className :=
    match s_selector style with
    | Some sel => if str_truthy sel then guessClassName sel else className
    | None => className
    end in
  let r :=
    match className with
    | GuessMany l =>
        and_then
          (run_calls (fun p g =>
                        _addPluginCache p type (g_selector g)
                                        [with_pseudo g (fun f => f style) (clone style None)])
                     (filter (fun i => g_isClass i = true) l) p)
          (fun p =>
             let base := base_selector l in
             if str_truthy base
             then kept p (_addPluginCache p PStatic base [clone style (Some base)])
             else (p, Done tt))
    | GuessOne g =>
        kept p (_addPluginCache p (if g_isClass g then type else PStatic) (g_selector g)
                                [with_pseudo g (fun f => f style) (clone style None)])
    end in
  ((fst r, className), snd r).

(** A list of selectors under a key that does not start with [@]: lines
    985-988 of [addUtilities], lines 1052-1061 of [addComponents]. *)
Definition add_selector_list (type : AddPluginType) (p : Processor) (l : list ClassGuess)
           (styles : list Style) : Processor * outcome unit :=
  match type with
  | PComponents =>
      if existsb (fun i => negb (g_isClass i)) l then
        let base := js_join ", " (map g_selector l) in
        if str_truthy base
        then kept p (_addPluginCache p PStatic base (map (fun i => clone i (Some base)) styles))
        else (p, Done tt)
      else
        run_calls (fun p g =>
                     _addPluginCache p PComponents (g_selector g)
                                     (with_pseudo g (fun f => map f styles) styles))
                  l p
  | _ =>
      and_then
        (run_calls (fun p g =>
                      _addPluginCache p type (g_selector g)
                                      (with_pseudo g (fun f => map f styles) styles))
                   (filter (fun i => g_isClass i = true) l) p)
        (fun p =>
           let base := base_selector l in
           if str_truthy base
           then kept p (_addPluginCache p PStatic base (map (fun i => clone i (Some base)) styles))
           else (p, Done tt))
  end.

(** The body of the loop over [Object.entries(utilities)]; [setLayer] is
    [options.layer] in [addUtilities] and holds always in
    [addComponents]. *)
Definition add_entry (type : AddPluginType) (options : PluginUtilOptions) (setLayer : bool)
           (layer : string) (order : Z) (acc : Processor * list Style) (kv : string * TV)
  : (Processor * list Style) * outcome unit :=
  let '(p, output) := acc in
  let '(key, value) := kv in
  let styles :=
    Style_generate (if startsWith key "." && default false (o_respectPrefix options)
                    then prefix_selector p key else key) value in
  let styles :=
    if setLayer then map (fun style => updateMeta style layer "plugin"%string order) styles
    else styles in
  let styles :=
    if important_default p options then map (set_important true) styles else styles in
  let className := guessClassName key in
  let r :=
    if String.eqb (charAt0 key) "@" then
      let r := run_loop (add_at_rule_style type) styles (p, className) in
      (fst (fst r), snd r)
    else
      match className with
      | GuessMany l => add_selector_list type p l styles
      | GuessOne g =>
          kept p (_addPluginCache p (if g_isClass g then type else PStatic) (g_selector g)
                                  (with_pseudo g (fun f => map f styles) styles))
      end in
  match snd r with
  | Done _ => ((fst r, output ++ styles), Done tt)
  | e => ((fst r, output), e)
  end.

(** [utilities] is one object or an array of objects, which
    [combineConfig] merges from the left. *)
Definition merge_objects (utilities : TV + list TV) : TV :=
  match utilities with
  | inl o => o
  | inr l => fold_left combineTV l (TVObj [])
  end.

(** The processor a method leaves, and its [output] when it returns: an
    exception of [_addPluginCache] ends the method, and what was filed
    before stays filed. *)
Definition addUtilities (p : Processor) (utilities : TV + list TV)
           (options : option (PluginUtilOptions + list string))
  : Processor * outcome (list Style) :=
  let options := normalize_options options in
  let layer := default "utilities"%string (o_layer options) in
  let order := layerOrder layer + 1 in
  let setLayer := match o_layer options with Some l => str_truthy l | None => false end in
  let r := run_loop (add_entry PUtilities options setLayer layer order)
                    (tv_entries (merge_objects utilities)) (p, []) in
  (fst (fst r), _ <- snd r ;;; Done (snd (fst r))).

Definition addComponents (p : Processor) (components : TV + list TV)
           (options : option (PluginUtilOptions + list string))
  : Processor * outcome (list Style) :=
  let options := normalize_component_options options in
  let layer := default "components"%string (o_layer options) in
  let order := layerOrder layer + 1 in
  let r := run_loop (add_entry PComponents options true layer order)
                    (tv_entries (merge_objects components)) (p, []) in
  (fst (fst r), _ <- snd r ;;; Done (snd (fst r))).

(** What a call that files styles under [type] and [PStatic] leaves
    alone. *)
Definition files_only_under (type : AddPluginType) (p p' : Processor) : Prop :=
  _config p' = _config p /\ _theme p' = _theme p /\ _variants p' = _variants p
  /\ _cache p' = _cache p
  /\ pl_core (_plugin p') = pl_core (_plugin p)
  /\ pl_dynamic (_plugin p') = pl_dynamic (_plugin p)
  /\ pl_alias (_plugin p') = pl_alias (_plugin p)
  /\ forall t, t <> type -> t <> PStatic ->
               plugin_cache t (_plugin p') = plugin_cache t (_plugin p).


End More.

(** * The command line ([src/cli/index.ts])

    The function [compile] of the script, with the globals it reads and
    writes as a state: the files, the tables [styleSheets] and [preflights],
    the processor and the lines printed. *)
Module Cli.

(** One class attribute as [parseClasses] reports it: [{ result, start,
    end }]. *)
Record ClassName : Type := mkClassName {
  result : string;
  start : nat;
  end_ : nat;
}.

(** The options [compile] reads. *)
Record Args : Type := mkArgs {
  arg_prefix : option string;       (* args['--prefix'] *)
  arg_preflight : bool;             (* args['--preflight'] *)
}.

Class CliImports {types : Types} : Type := {
  (* new HTMLParser(html).parseClasses(), and the field [html] of the
     parser *)
  parseClasses : string -> list ClassName;
  parser_html : string -> option string;
  (* previousValue.extend(currentValue) on style sheets *)
  sheet_extend : StyleSheet -> StyleSheet -> StyleSheet;
}.

(** [s.substring(from, to)] and [s.substring(from)]: the bounds are cut at
    the length of the string and put in order. *)
Definition substring (s : string) (from to : nat) : string :=
  let from := Nat.min from (String.length s) in
  let to := Nat.min to (String.length s) in
  js_slice_to (Nat.max from to - Nat.min from to) (js_slice (Nat.min from to) s).

Definition substring_from (s : string) (from : nat) : string :=
  js_slice (Nat.min from (String.length s)) s.

(** [l.join('')]. *)
Definition concat_strings (l : list string) : string :=
  fold_right String.append EmptyString l.

(** [file.replace(/(?=\.\w+$)/, '.windi')]: the text goes in front of the
    dot of the extension, the first place from which a dot and then word
    characters, one at least, run to the end. *)
Fixpoint insert_before_extension (ins s : string) : string :=
  match s with
  | EmptyString => EmptyString
  | String c s' =>
      if Ascii.eqb c "." && str_truthy s' && all_chars is_word s' then ins +:+ s
      else String c (insert_before_extension ins s')
  end.

Section Model.
Context {types : Types} {imports : Imports} {more : MoreImports} {cli : CliImports}.

Record State : Type := mkState {
  files : gmap string string;
  styleSheets : gmap string StyleSheet;
  preflights : gmap string StyleSheet;
  processor : Processor;
  console : list string;
}.

(** The locals of the callback of [files.forEach]. *)
Record Locals : Type := mkLocals {
  indexStart : nat;
  outputStyle : list StyleSheet;
  outputHTML : list string;
}.

(** [[utility.className, ...utility.ignored].join(' ')]: an undefined class
    name is joined as the empty string. *)
Definition replacement (utility : CompileResult) : string :=
  js_join " " (default EmptyString (cr_className utility) :: cr_ignored utility).

(** The callback of [parser.parseClasses().forEach] (lines 119-125). *)
Definition rewrite_class (prefix html : string) (acc : Locals * Processor) (p : ClassName)
  : outcome (Locals * Processor) :=
  let '(l, proc) := acc in
  let outputHTML := outputHTML l ++ [substring html (indexStart l) (start p)] in
  r <- compile proc (result p) prefix true false None None ;;;
  let '(utility, proc) := r in
  Done (mkLocals (end_ p)
                 (outputStyle l ++ [cr_styleSheet utility])
                 (outputHTML ++ [replacement utility]),
        proc).

(** The callback of [files.forEach] (lines 111-139). *)
Definition compile_file (args : Args) (st : State) (file : string) : outcome State :=
  let prefix := default "windi-"%string (arg_prefix args) in
  match files st !! file with
  | None => Throw "ENOENT: no such file or directory"
  | Some html =>
      r <- ofold (rewrite_class prefix html) (parseClasses html)
                 (mkLocals 0 [] [], processor st) ;;;
      let '(l, proc) := r in
      let outputHTML := outputHTML l ++ [substring_from html (indexStart l)] in
      let sheet := fold_left sheet_extend (outputStyle l) new_StyleSheet in
      let outputFile := insert_before_extension ".windi" file in
      let st := mkState (<[outputFile := concat_strings outputHTML]> (files st))
                        (<[file := sheet]> (styleSheets st))
                        (preflights st) proc
                        (console st ++ [file +:+ " -> " +:+ outputFile]) in
      if arg_preflight args then
        let '(sheet, proc) := preflight proc (parser_html html) true true true false in
        Done (mkState (files st) (styleSheets st) (<[file := sheet]> (preflights st)) proc
                      (console st))
      else Done st
  end.

(** [compile] (lines 108-140).  A call that raises ends the script; the
    state is then the one the earlier files have left. *)
Fixpoint compile_files (args : Args) (st : State) (fs : list string) : State * option string :=
  match fs with
  | [] => (st, None)
  | file :: fs' =>
      match compile_file args st file with
      | Done st' => compile_files args st' fs'
      | Throw e => (st, Some e)
      | OutOfFuel => (st, Some EmptyString)
      end
  end.

(** A document as the parser cuts it: before each class attribute a text,
    then the text of the attribute, for which the parser reports
    [result]; a last text after the attributes. *)
Record Segment : Type := mkSegment {
  seg_text : string;
  seg_class : string;
  seg_result : string;
}.

Fixpoint doc_html (segs : list Segment) (tail : string) : string :=
  match segs with
  | [] => tail
  | s :: segs' => seg_text s +:+ seg_class s +:+ doc_html segs' tail
  end.

Fixpoint doc_classes (offset : nat) (segs : list Segment) : list ClassName :=
  match segs with
  | [] => []
  | s :: segs' =>
      let from := (offset + String.length (seg_text s))%nat in
      let to := (from + String.length (seg_class s))%nat in
      mkClassName (seg_result s) from to :: doc_classes to segs'
  end.

(** The text [compile] puts in the place of a class attribute. *)
Definition replaced (p : Processor) (prefix : string) (classNames : string) : string :=
  match compile p classNames prefix true false None None with
  | Done (utility, _) => replacement utility
  | _ => EmptyString
  end.

Fixpoint doc_rewritten (p : Processor) (prefix : string) (segs : list Segment) (tail : string)
  : string :=
  match segs with
  | [] => tail
  | s :: segs' =>
      seg_text s +:+ replaced p prefix (seg_result s) +:+ doc_rewritten p prefix segs' tail
  end.

End Model.

End Cli.

(** * The small instance, continued

    The further imported operations get simple bodies too: [preflight]
    gives one rule for the text it is handed, [guessClassName] splits a
    key at its commas and takes a leading dot for a class, the parser of
    the command line reports the texts between double quotes. *)
Module SampleMore.
Import Sample.

Definition s_preflight (p : Processor) (html : option string) (b g pl : bool) : StyleSheet :=
  mkSheet [mkStyle KStyle (Some "html"%string) [decl "line-height" "1.15"] false None
                   (mkMeta "base" "preflight" 1 []) []] true.

Definition s_generateStaticStyle (p : Processor) (key : string) (comment : bool)
  : option Style :=
  if String.eqb key "block" then Some (rule [decl "display" "block"]) else None.

Definition guess_one (x : string) : ClassGuess :=
  if startsWith x "." then mkGuess (js_slice 1 x) true None else mkGuess x false None.

Definition s_guessClassName (selector : string) : Guess :=
  match js_split "," selector with
  | [x] => GuessOne (guess_one x)
  | l => GuessMany (map guess_one l)
  end.

Definition s_clone (style : Style) (selector : option string) : Style :=
  match selector with
  | Some sel => set_selector sel style
  | None => style
  end.

Definition s_wrapSelector (style : Style) (f : string -> string) : Style :=
  match s_selector style with
  | Some sel => set_selector (f sel) style
  | None => style
  end.

#[export] Instance sample_more : MoreImports := {|
  preflight_import := s_preflight;
  staticUtilities_keys := ["hidden"; "block"]%string;
  generateStaticStyle := s_generateStaticStyle;
  BuiltinDynamic := unit;
  dynamicUtilities := {[ "p"%string := tt ]};
  guessClassName := s_guessClassName;
  clone := s_clone;
  wrapSelector := s_wrapSelector;
|}.

(** The texts between double quotes, with their places: [inside] holds the
    place where the text began and the text read so far, reversed. *)
Fixpoint quoted (i : nat) (inside : option (nat * string)) (s : string) : list Cli.ClassName :=
  match s with
  | EmptyString => []
  | String c s' =>
      if Ascii.eqb c "034" then
        match inside with
        | Some (from, text) =>
            Cli.mkClassName (rev_string EmptyString text) from i :: quoted (S i) None s'
        | None => quoted (S i) (Some (S i, EmptyString)) s'
        end
      else
        match inside with
        | Some (from, text) => quoted (S i) (Some (from, String c text)) s'
        | None => quoted (S i) None s'
        end
  end.

Definition s_sheet_extend (a b : StyleSheet) : StyleSheet :=
  mkSheet (children a ++ children b) (prefixer a).

#[export] Instance sample_cli : Cli.CliImports := {|
  Cli.parseClasses := quoted 0 None;
  Cli.parser_html := Some;
  Cli.sheet_extend := s_sheet_extend;
|}.

(** ** Attributes *)

Definition attrs0 : list (string * AttrValue) :=
  [("p"%string, AttrStr "2"); ("bg"%string, AttrArr ["red"; "!blue"]%string);
   ("sm"%string, AttrStr "hover:p-2")].

Definition attrs_data : list (string * AttrValue) := [("data-p"%string, AttrStr "2")].

(** ** A prefix, and the core plugins *)

Definition config_prefixed : Config :=
  mkConfig None None None None None (Some "tw-"%string) None None None [].

Definition p_prefixed : Processor := set_config config_prefixed p0.





(** ** Calls of [interpret] *)

Definition interpreted_once : InterpretResult * Processor :=
  Eval vm_compute in
    match interpret 2 p0 classes0 true None with
    | Done x => x
    | _ => (mkInterpretResult [] [] new_StyleSheet, p0)
    end.

Definition handler0 : string -> option Output :=
  fun c => if String.eqb c "nope" then Some (padded "1rem") else None.

(** ** A file *)

Definition segs0 : list Cli.Segment :=
  [Cli.mkSegment ("<a class=" +:+ dquote) "p-2 nope" "p-2 nope";
   Cli.mkSegment (dquote +:+ "><b class=" +:+ dquote) "nada" "nada"].

Definition tail0 : string := dquote +:+ "></b></a>".

Definition args0 : Cli.Args := Cli.mkArgs None false.

Definition state0 : Cli.State :=
  Cli.mkState {[ "index.html"%string := Cli.doc_html segs0 tail0 ]} ∅ ∅ p0 [].

Definition compiled_nothing : CompileResult * Processor :=
  Eval vm_compute in
    match compile p0 "nope nada" "windi-" true false None None with
    | Done x => x
    | _ => no_result
    end.

(** ** Themes *)

Definition config_user_theme : Config :=
  mkConfig None
           (Some [("colors"%string, TVObj [("primary"%string, TVStr "blue")]);
                  ("spacing"%string, TVNum 4)])
           None None None None None None None [].

Definition config_preset_theme : Config :=
  mkConfig None
           (Some [("colors"%string,
                   TVObj [("primary"%string, TVStr "red"); ("secondary"%string, TVStr "green")]);
                  ("opacity"%string, TVObj [("50"%string, TVStr "0.5")])])
           None (Some (Some ["hidden"%string])) None None None None None [].

Definition theme_extending : ThemeDict :=
  [("colors"%string, TVObj [("primary"%string, TVStr "blue")]);
   ("extend"%string, TVObj [("colors"%string, TVObj [("accent"%string, TVStr "pink")])])].

Definition config_extend : Config :=
  mkConfig None (Some theme_extending) None None None None None None None [].

Definition resolved_extend : Processor :=
  Eval vm_compute in
    match resolveConfig 1 initial_state (Some config_extend) empty_config with
    | Done p => p
    | _ => initial_state
    end.

Definition resolved_over_preset : Processor :=
  Eval vm_compute in
    match resolveConfig 1 initial_state (Some config_user_theme) config_preset_theme with
    | Done p => p
    | _ => initial_state
    end.

End SampleMore.


(** * Properties *)

(** ** The string operations *)
Section StringProperties.
Arguments String.append : simpl nomatch.

Lemma string_app_nil_r (s : string) : s +:+ EmptyString = s.
Proof. induction s as [|c s IH]; simpl; [reflexivity|]. f_equal. exact IH. Qed.

Lemma string_app_assoc (a b c : string) : (a +:+ b) +:+ c = a +:+ (b +:+ c).
Proof. induction a as [|x a IH]; simpl; [reflexivity|]. f_equal. exact IH. Qed.

Lemma runs_all (cls : ascii -> bool) (s : string) :
  all_chars cls s = true -> runs cls s = (s, []).
Proof.
  induction s as [|c s IH]; simpl; [reflexivity|].
  intros [Hc Hs]%andb_true_iff. rewrite (IH Hs), Hc. reflexivity.
Qed.

Lemma runs_app_run (cls : ascii -> bool) (w rest : string) :
  all_chars cls w = true ->
  runs cls (w +:+ rest) = (w +:+ fst (runs cls rest), snd (runs cls rest)).
Proof.
  induction w as [|c w IH]; simpl.
  - intros _. destruct (runs cls rest); reflexivity.
  - intros [Hc Hw]%andb_true_iff. rewrite (IH Hw), Hc. reflexivity.
Qed.

Lemma runs_app_sep (cls : ascii -> bool) (sep rest : string) :
  separates cls sep -> runs cls (sep +:+ rest) = (EmptyString, match_all cls rest).
Proof.
  intros [Hne Hsep]. induction sep as [|c sep IH]; [congruence|].
  simpl in Hsep. apply andb_true_iff in Hsep as [Hc Hsep].
  apply negb_true_iff in Hc. simpl.
  destruct sep as [|c' sep'].
  - simpl. unfold match_all. destruct (runs cls rest). rewrite Hc. reflexivity.
  - rewrite IH by (try discriminate; exact Hsep). rewrite Hc. reflexivity.
Qed.

Lemma match_all_join (cls : ascii -> bool) (sep : string) (ws : list string) :
  separates cls sep -> Forall (word_of cls) ws ->
  match_all cls (js_join sep ws) = ws.
Proof.
  intros Hsep Hws. induction Hws as [|w ws [Hne Hw] Hws IH]; [reflexivity|].
  destruct ws as [|w' ws'].
  - simpl. unfold match_all. rewrite (runs_all _ _ Hw). destruct w; [congruence|reflexivity].
  - change (js_join sep (w :: w' :: ws')) with (w +:+ sep +:+ js_join sep (w' :: ws')).
    unfold match_all. rewrite (runs_app_run _ _ _ Hw), (runs_app_sep _ _ _ Hsep).
    unfold fst, snd. rewrite string_app_nil_r, IH. destruct w; [congruence|reflexivity].
Qed.

Lemma all_chars_app_false (cls : ascii -> bool) (x : string) (c : ascii) (y : string) :
  cls c = false -> all_chars cls (x +:+ String c y) = false.
Proof.
  intros Hc. induction x as [|a x IH]; simpl.
  - rewrite Hc. reflexivity.
  - rewrite IH. apply andb_false_r.
Qed.

Lemma word_suffix_skip (x : string) (c : ascii) (y : string) :
  is_word c = false -> word_suffix (x +:+ String c y) = word_suffix y.
Proof.
  intros Hc. induction x as [|a x IH]; simpl.
  - rewrite Hc. reflexivity.
  - rewrite (all_chars_app_false _ _ _ _ Hc), andb_false_r. exact IH.
Qed.

Lemma word_suffix_sep (sep y : string) :
  all_chars (fun c => negb (is_word c)) sep = true ->
  word_suffix (sep +:+ y) = word_suffix y.
Proof.
  induction sep as [|c sep IH]; simpl; [reflexivity|].
  intros [Hc Hsep]%andb_true_iff. apply negb_true_iff in Hc.
  rewrite Hc. simpl. apply IH, Hsep.
Qed.

Lemma word_suffix_word (w : string) : all_chars is_word w = true -> word_suffix w = w.
Proof.
  destruct w as [|c w]; simpl; [reflexivity|]. intros ->. reflexivity.
Qed.

Lemma word_suffix_join (sep : string) (ws : list string) (w : string) :
  separates is_word sep -> word_of is_word w ->
  word_suffix (js_join sep (ws ++ [w])) = w.
Proof.
  intros [Hne Hsep] [_ Hw]. induction ws as [|x ws IH]; simpl.
  - apply word_suffix_word, Hw.
  - destruct (ws ++ [w]) as [|y l] eqn:E; [destruct ws; discriminate|].
    destruct sep as [|c sep]; [congruence|].
    simpl in Hsep. apply andb_true_iff in Hsep as [Hc Hsep']. apply negb_true_iff in Hc.
    change (String c sep +:+ js_join (String c sep) (y :: l))
      with (String c (sep +:+ js_join (String c sep) (y :: l))).
    rewrite (word_suffix_skip _ _ _ Hc), (word_suffix_sep _ _ Hsep'). exact IH.
Qed.

Lemma js_split_free (c : ascii) (w : string) : free_of c w -> js_split c w = [w].
Proof.
  unfold free_of. induction w as [|a w IH]; simpl; [reflexivity|].
  intros [Ha Hw]%andb_true_iff. apply negb_true_iff in Ha. rewrite Ha, (IH Hw). reflexivity.
Qed.

Lemma js_split_app (c : ascii) (w rest : string) :
  free_of c w -> js_split c (w +:+ String c rest) = w :: js_split c rest.
Proof.
  unfold free_of. induction w as [|a w IH]; simpl.
  - intros _. rewrite Ascii.eqb_refl. reflexivity.
  - intros [Ha Hw]%andb_true_iff. apply negb_true_iff in Ha. rewrite Ha, (IH Hw). reflexivity.
Qed.

Lemma js_split_join (c : ascii) (l : list string) (w : string) :
  Forall (free_of c) l -> free_of c w ->
  js_split c (js_join (String c EmptyString) (l ++ [w])) = l ++ [w].
Proof.
  intros Hl Hw. induction Hl as [|x l Hx Hl IH]; simpl.
  - apply js_split_free, Hw.
  - destruct (l ++ [w]) as [|y l'] eqn:E; [destruct l; discriminate|].
    change (String c EmptyString +:+ js_join (String c EmptyString) (y :: l'))
      with (String c (js_join (String c EmptyString) (y :: l'))).
    rewrite (js_split_app _ _ _ Hx), IH. reflexivity.
Qed.

Lemma but_last_snoc {A : Type} (l : list A) (x : A) : but_last (l ++ [x]) = l.
Proof.
  unfold but_last. rewrite length_app. simpl.
  replace (length l + 1 - 1)%nat with (length l) by lia.
  apply take_app_length.
Qed.

Lemma last_of_snoc (l : list string) (x : string) : last_of (l ++ [x]) = x.
Proof. unfold last_of. rewrite last_snoc. reflexivity. Qed.

Lemma before_last_snoc (l : list string) (x y : string) :
  before_last (l ++ [x; y]) = Some x.
Proof.
  unfold before_last. rewrite length_app. simpl.
  replace (length l + 2)%nat with (S (S (length l))) by lia.
  rewrite lookup_app_r by lia. replace (length l - length l)%nat with 0%nat by lia. reflexivity.
Qed.

(** *** The normalized class string *)

Lemma rev_string_acc (s : string) :
  forall acc, rev_string acc s = rev_string EmptyString s +:+ acc.
Proof.
  induction s as [|c s IH]; intros acc; simpl; [reflexivity|].
  rewrite (IH (String c acc)), (IH (String c EmptyString)), string_app_assoc. reflexivity.
Qed.

Lemma rev_string_cons (c : ascii) (cur r : string) :
  rev_string EmptyString (String c cur) +:+ r = rev_string EmptyString cur +:+ String c r.
Proof. simpl. rewrite rev_string_acc, string_app_assoc. reflexivity. Qed.

Lemma runs_cons (cls : ascii -> bool) (c : ascii) (s : string) :
  runs cls (String c s)
  = if cls c then (String c (fst (runs cls s)), snd (runs cls s))
    else (EmptyString, cons_run (fst (runs cls s)) (snd (runs cls s))).
Proof. simpl. destruct (runs cls s). reflexivity. Qed.

(** Taking white space off the end changes no run. *)
Lemma runs_trim_end (s : string) : runs is_nonspace (trim_end s) = runs is_nonspace s.
Proof.
  induction s as [|c s IH]; [reflexivity|].
  rewrite runs_cons. simpl trim_end. destruct (trim_end s) as [|x t] eqn:Ht.
  - rewrite <- IH. unfold is_nonspace. destruct (is_space c) eqn:Hc; simpl; [reflexivity|].
    rewrite Hc. reflexivity.
  - rewrite runs_cons, IH. reflexivity.
Qed.

Lemma words_trim_start (s : string) : words (trim_start s) = words s.
Proof.
  unfold words. induction s as [|c s IH]; [reflexivity|].
  simpl trim_start. destruct (is_space c) eqn:Hc; [|reflexivity].
  rewrite IH. unfold match_all. rewrite (runs_cons is_nonspace c s).
  unfold is_nonspace at 2. rewrite Hc.
  destruct (runs is_nonspace s) as [r rs]. simpl. destruct r; reflexivity.
Qed.

Lemma words_trim (s : string) : words (js_trim s) = words s.
Proof.
  unfold js_trim. rewrite <- (words_trim_start s). unfold words, match_all.
  rewrite runs_trim_end. reflexivity.
Qed.

(** A text that does not end with white space: what [trim_end] leaves. *)
Lemma trim_end_cons (c : ascii) (s : string) :
  trim_end (String c s) = String c s ->
  (s = EmptyString /\ is_space c = false) \/ (s <> EmptyString /\ trim_end s = s).
Proof.
  simpl. destruct (trim_end s) as [|x t] eqn:Ht.
  - destruct (is_space c); [discriminate|]. intros H. injection H as <-. auto.
  - intros H. injection H as <-. right. split; [discriminate|reflexivity].
Qed.

Lemma trim_end_idem (s : string) : trim_end (trim_end s) = trim_end s.
Proof.
  induction s as [|c s IH]; [reflexivity|]. simpl.
  destruct (trim_end s) as [|x t] eqn:Ht.
  - destruct (is_space c) eqn:Hc; [reflexivity|]. simpl. rewrite Hc. reflexivity.
  - simpl in IH. simpl. destruct (trim_end t) as [|y t'] eqn:Ht'.
    + destruct (is_space x); [discriminate|]. injection IH as <-. reflexivity.
    + injection IH as <-. reflexivity.
Qed.

(** The pieces [split] cuts a text without white space at its end into. *)
Lemma split_spaces_tidy (s : string) :
  trim_end s = s ->
  (forall cur, split_spaces cur false s
               = (rev_string EmptyString cur +:+ fst (runs is_nonspace s))
                   :: snd (runs is_nonspace s))
  /\ (s <> EmptyString -> split_spaces EmptyString true s = match_all is_nonspace s).
Proof.
  induction s as [|c s IH]; intros Htidy.
  - split; [|congruence]. intros cur. simpl. rewrite string_app_nil_r. reflexivity.
  - apply trim_end_cons in Htidy as [[-> Hc]|[Hne Htidy]].
    + unfold match_all. simpl. unfold is_nonspace. rewrite Hc. simpl.
      split; [|reflexivity]. intros cur. rewrite rev_string_acc. reflexivity.
    + destruct (IH Htidy) as [IH1 IH2]. specialize (IH2 Hne).
      unfold match_all in *. rewrite runs_cons. simpl split_spaces.
      unfold is_nonspace in *. destruct (is_space c); simpl negb; cbv iota.
      * rewrite IH2. destruct (runs _ s) as [r rs]. cbn [fst snd]. split.
        -- intros cur. rewrite string_app_nil_r. reflexivity.
        -- intros _. destruct r; reflexivity.
      * destruct (runs _ s) as [r rs]. cbn [fst snd] in *. split.
        -- intros cur. rewrite IH1, rev_string_cons. reflexivity.
        -- intros _. rewrite IH1. reflexivity.
Qed.

Lemma trim_start_head (s : string) :
  match trim_start s with
  | EmptyString => True
  | String c _ => is_space c = false
  end.
Proof.
  induction s as [|c s IH]; simpl; [exact I|].
  destruct (is_space c) eqn:Hc; [exact IH|exact Hc].
Qed.

Lemma trim_end_head (s : string) :
  match s with
  | EmptyString => True
  | String c _ => is_space c = false
  end ->
  match trim_end s with
  | EmptyString => s = EmptyString
  | String c _ => is_space c = false
  end.
Proof.
  destruct s as [|c s]; [reflexivity|]. simpl. intros Hc. rewrite Hc.
  destruct (trim_end s); exact Hc.
Qed.

(** [classNames.trim().split(/\s+/g).join(' ')] is the words of the text,
    one blank between two of them. *)
Lemma normalize_words (classNames : string) :
  normalize_classNames classNames = js_join " " (words classNames).
Proof.
  unfold normalize_classNames, js_split_spaces. rewrite <- (words_trim classNames).
  pose proof (trim_end_head _ (trim_start_head classNames)) as Hhead.
  fold (js_trim classNames) in Hhead.
  assert (trim_end (js_trim classNames) = js_trim classNames) as Htidy
      by apply trim_end_idem.
  destruct (split_spaces_tidy _ Htidy) as [Hsplit _]. rewrite Hsplit.
  unfold words, match_all. simpl rev_string.
  destruct (js_trim classNames) as [|c t] eqn:Ht; [reflexivity|].
  rewrite runs_cons. unfold is_nonspace. rewrite Hhead. reflexivity.
Qed.

End StringProperties.

(** ** The processor *)
Section Properties.
Context {types : Types} {imports : Imports}.

(** ** Loops with callbacks that may raise *)

Lemma obind_Done {A B : Type} (m : outcome A) (k : A -> outcome B) (b : B) :
  obind m k = Done b -> exists a, m = Done a /\ k a = Done b.
Proof. destruct m as [a| |]; simpl; intros H; try discriminate. eauto. Qed.


Lemma omap_Forall_Done {A B : Type} (f : A -> outcome B) (l : list A) :
  Forall (fun a => exists b, f a = Done b) l -> exists out, omap f l = Done out.
Proof.
  induction 1 as [|a l [b Hb] _ [bs Hbs]]; simpl.
  - eauto.
  - fold (omap f l). rewrite Hb, Hbs. simpl. eauto.
Qed.

Lemma ofold_app {S A : Type} (f : S -> A -> outcome S) (l1 l2 : list A) (s : S) :
  ofold f (l1 ++ l2) s = obind (ofold f l1 s) (ofold f l2).
Proof.
  revert s. induction l1 as [|a l1 IH]; intros s; simpl; [reflexivity|].
  destruct (f s a) as [s'| |]; simpl; auto.
Qed.

Lemma ofold_ext {S A : Type} (f g : S -> A -> outcome S) (l : list A) :
  (forall s x, f s x = g s x) -> forall s, ofold f l s = ofold g l s.
Proof.
  intros Hfg. induction l as [|a l IH]; intros s; simpl; [reflexivity|].
  rewrite Hfg. destruct (g s a); simpl; auto.
Qed.

Lemma ofold_map {S A B : Type} (f : S -> B -> outcome S) (g : A -> B) (l : list A) :
  forall s, ofold f (map g l) s = ofold (fun s x => f s (g x)) l s.
Proof.
  induction l as [|a l IH]; intros s; simpl; [reflexivity|].
  destruct (f s (g a)); simpl; auto.
Qed.

Lemma ofold_flat_map {S A B : Type} (f : S -> B -> outcome S) (g : A -> list B)
      (l : list A) :
  forall s, ofold f (flat_map g l) s = ofold (fun s x => ofold f (g x) s) l s.
Proof.
  induction l as [|a l IH]; intros s; simpl; [reflexivity|].
  rewrite ofold_app. destruct (ofold f (g a) s); simpl; auto.
Qed.

(** ** [markAsImportant] *)




(** ** [wrapWithVariants] *)


Lemma call_variant_own (p : Processor) (i : string) (st : Style) :
  _variants p !! i = Some st -> call_variant p i = Done (CalledStyle st).
Proof. unfold call_variant. intros ->. reflexivity. Qed.

Lemma call_variants_own (p : Processor) (variants : list string) (generated : list Style) :
  Forall2 (fun i g => _variants p !! i = Some g) variants generated ->
  omap (call_variant p) variants = Done (map CalledStyle generated).
Proof.
  induction 1 as [|i g variants generated Hi _ IH]; [reflexivity|].
  simpl. rewrite (call_variant_own _ _ _ Hi). simpl.
  fold (omap (call_variant p) variants). rewrite IH. reflexivity.
Qed.

(** The fold of the [reduce] callback, started anywhere: the style is the
    fold of [extend], and an at-rule is collected after each step whose
    result is an at-rule. *)
Lemma wrap_steps (generated : list Style) :
  forall (acc : Style) (atrules : list string),
    ofold wrap_step (map CalledStyle generated) (acc, atrules)
    = Done (fold_left extend generated acc,
            atrules
            ++ flat_map (fun k =>
                           let folded := fold_left extend (take (S k) generated) acc in
                           if isAtrule folded then [first_atRule folded] else [])
                        (seq 0 (length generated))).
Proof.
  induction generated as [|g generated IH]; intros acc atrules.
  - simpl. rewrite app_nil_r. reflexivity.
  - change (ofold wrap_step (map CalledStyle (g :: generated)) (acc, atrules))
      with (ofold wrap_step (map CalledStyle generated)
                  (extend acc g,
                   if isAtrule (extend acc g) then atrules ++ [first_atRule (extend acc g)]
                   else atrules)).
    rewrite IH. f_equal. f_equal.
    change (seq 0 (length (g :: generated))) with (0%nat :: seq 1 (length generated)).
    rewrite <- seq_shift. simpl flat_map.
    rewrite (flat_map_concat_map _ (map S (seq 0 (length generated)))), map_map,
      <- flat_map_concat_map.
    destruct (isAtrule (extend acc g)); [rewrite <- app_assoc|]; reflexivity.
Qed.

Lemma wrap_with_styles (generated : list Style) (style : Style) :
  wrap_with (map CalledStyle generated) style = Done (wrapped_under generated style).
Proof.
  unfold wrap_with, wrapped_under, collected_atRules. rewrite wrap_steps. simpl.
  destruct (flat_map _ _); reflexivity.
Qed.

Lemma wrap_style_own (p : Processor) (variants : list string) (generated : list Style)
      (style : Style) :
  Forall2 (fun i g => _variants p !! i = Some g) variants generated ->
  wrap_style p variants style
  = Done (if is_keyframes style then style else wrapped_under generated style).
Proof.
  intros Hown. unfold wrap_style. destruct (is_keyframes style); [reflexivity|].
  rewrite (call_variants_own _ _ _ Hown). simpl. apply wrap_with_styles.
Qed.

Lemma own_variants_generated (p : Processor) (variants : list string) :
  Forall (fun v => is_Some (_variants p !! v)) variants ->
  exists generated, Forall2 (fun i g => _variants p !! i = Some g) variants generated.
Proof.
  induction 1 as [|v variants [g Hg] _ [generated IH]]; [exists []; constructor|].
  exists (g :: generated). constructor; assumption.
Qed.

(** Under names with an entry in the table the call returns a list. *)
Lemma wrapWithVariants_returns (p : Processor) (variants : list string) (styles : Output) :
  Forall (fun v => is_Some (_variants p !! v)) variants ->
  exists out, wrapWithVariants p variants styles = Done (Some out).
Proof.
  intros Hk. destruct (own_variants_generated p variants Hk) as [generated Hown].
  unfold wrapWithVariants. destruct variants as [|v vs]; [eauto|].
  destruct (omap_Forall_Done (wrap_style p (v :: vs)) (toArray styles)) as [out Hout].
  - apply Forall_forall. intros st _. rewrite (wrap_style_own _ _ _ st Hown). eauto.
  - rewrite Hout. simpl. eauto.
Qed.

(** C10.  With no variant name, [wrapWithVariants] hands the styles back as
    a list, whatever the processor and its variant table hold: nothing is
    wrapped, and no field of a style is touched. *)
Theorem wrapWithVariants_no_variants (p : Processor) (styles : Output) :
  wrapWithVariants p [] styles = Done (Some (toArray styles))
  /\ (forall style, wrapWithVariants p [] (OStyle style) = Done (Some [style]))
  /\ (forall l, wrapWithVariants p [] (OArray l) = Done (Some l)).
Proof.
  unfold wrapWithVariants. repeat split.
Qed.


(** ** [addDynamic] *)

Lemma addDynamic_lookup (p : Processor) (key : string) (generator : UtilityGenerator)
      (options : option (PluginUtilOptions + list string)) :
  pl_dynamic (_plugin (addDynamic p key generator options)) !! key =
  Some (if js_in key (pl_dynamic (_plugin p))
        then DynChained key generator (normalize_options options)
        else
          DynFirst generator (normalize_options options)
                   (default "utilities"%string (o_layer (normalize_options options)))
                   (layerOrder (default "utilities"%string
                                        (o_layer (normalize_options options))) + 1)).
Proof. unfold addDynamic. simpl. rewrite lookup_insert_eq. reflexivity. Qed.

Lemma js_in_own {V : Type} (key : string) (table : gmap string V) (v : V) :
  table !! key = Some v -> js_in key table = true.
Proof. intros H. unfold js_in. rewrite bool_decide_eq_true_2 by eauto. reflexivity. Qed.

(** After a second registration the key holds the chained closure. *)
Lemma addDynamic_twice_lookup (p : Processor) (key : string) (old new : UtilityGenerator)
      (oo on : option (PluginUtilOptions + list string)) :
  pl_dynamic (_plugin (addDynamic (addDynamic p key old oo) key new on)) !! key =
  Some (DynChained key new (normalize_options on)).
Proof.
  rewrite addDynamic_lookup. rewrite (js_in_own _ _ _ (addDynamic_lookup p key old oo)).
  reflexivity.
Qed.

(** A chained closure that finds itself under its key calls itself again
    and again: no amount of stack lets the call return. *)
Lemma chained_under_own_key_never_returns (p : Processor) (key : string)
      (generator : UtilityGenerator) (uOptions : PluginUtilOptions) (u : Utility) (fuel : nat) :
  pl_dynamic (_plugin p) !! key = Some (DynChained key generator uOptions) ->
  call_dynamic fuel p (DynChained key generator uOptions) u = OutOfFuel.
Proof.
  intros Hk. induction fuel as [|fuel IH]; simpl; [reflexivity|].
  rewrite Hk, IH. reflexivity.
Qed.

(** C5, as the code runs.  After two registrations under a key, the key
    holds the closure of the second one, which reads the table under the
    key when it is called and so calls itself: a call of the generator of
    the key returns for no utility and no amount of stack, in the processor
    the registrations leave and in every processor in which the key still
    holds that closure.  Neither generator is ever reached. *)
Theorem addDynamic_twice_never_returns (p : Processor) (key : string)
        (old new : UtilityGenerator) (oo on : option (PluginUtilOptions + list string))
        (u : Utility) (fuel : nat) :
  let p2 := addDynamic (addDynamic p key old oo) key new on in
  let stored := DynChained key new (normalize_options on) in
  pl_dynamic (_plugin p2) !! key = Some stored
  /\ call_dynamic fuel p2 stored u = OutOfFuel.
Proof.
  intros p2 stored.
  pose proof (addDynamic_twice_lookup p key old new oo on) as Hk.
  split; [exact Hk|]. apply chained_under_own_key_never_returns. exact Hk.
Qed.

(** ** [compile]: the class name and the cache of emitted names *)

Lemma compile_cached (p : Processor) (classNames prefix : string) (showComment : bool)
      (handleIgnored : HandleIgnored) (outputClassName : option string) :
  compile_className classNames prefix outputClassName ∈ cache_classes (_cache p) ->
  compile p classNames prefix showComment true handleIgnored outputClassName =
  Done (cached_result (compile_className classNames prefix outputClassName), p).
Proof.
  intros Hin. unfold compile. rewrite bool_decide_eq_true_2 by assumption. reflexivity.
Qed.

(** What a call that is not cut short returns, in terms of the walk. *)
Lemma compile_walked (p : Processor) (classNames prefix : string)
      (showComment ignoreGenerated : bool) (handleIgnored : HandleIgnored)
      (outputClassName : option string) (r : CompileResult) (p' : Processor) :
  let className := compile_className classNames prefix outputClassName in
  ignoreGenerated && bool_decide (className ∈ cache_classes (_cache p)) = false ->
  compile p classNames prefix showComment ignoreGenerated handleIgnored outputClassName
  = Done (r, p') ->
  exists a,
    ofold (compile_step p showComment handleIgnored ("." +:+ className))
          (parse classNames (Some (config_separator p)) (cache_variants (_cache p)))
          (mkAcc (cache_utilities (_cache p)) [] [] new_StyleSheet) = Done a
    /\ cr_success r = a_success a
    /\ cr_ignored r = a_ignored a
    /\ cr_styleSheet r = sheet_combine (sheet_sortby_sortGroup (apply_prefixer p (a_sheet a)))
    /\ cr_className r = match a_success a with [] => None | _ :: _ => Some className end
    /\ p' = match a_success a with
            | [] => p
            | _ :: _ =>
                if ignoreGenerated && str_truthy className then
                  set_cache (set_cache_classes (cache_classes (_cache p) ++ [className])
                                               (_cache p)) p
                else p
            end.
Proof.
  intros className Hc H. unfold compile in H. fold className in H. rewrite Hc in H.
  apply obind_Done in H as (a & Ha & H). injection H as <- <-.
  exists a. split; [exact Ha|]. simpl. destruct (a_success a); auto.
Qed.


(** C9, as the code has it.  When the call is not cut short at line 489 and
    the success list is empty, the class name returned is undefined and the
    processor is left as it was.  In every call, the cache of emitted names
    either stays as it was or gains the name, and it gains it only when
    [ignoreGenerated] is set and the success list is not empty. *)
Theorem compile_className_undefined (p p' : Processor) (classNames prefix : string)
        (showComment ignoreGenerated : bool) (handleIgnored : HandleIgnored)
        (outputClassName : option string) (r : CompileResult) :
  compile p classNames prefix showComment ignoreGenerated handleIgnored outputClassName
  = Done (r, p') ->
  let className := compile_className classNames prefix outputClassName in
  (ignoreGenerated && bool_decide (className ∈ cache_classes (_cache p)) = false ->
   (cr_success r = [] -> cr_className r = None /\ p' = p)
   /\ (cr_success r <> [] -> cr_className r = Some className))
  /\ (p' = p
      \/ (ignoreGenerated = true /\ cr_success r <> []
          /\ cache_classes (_cache p') = cache_classes (_cache p) ++ [className])).
Proof.
  intros H className.
  destruct (ignoreGenerated && bool_decide (className ∈ cache_classes (_cache p))) eqn:Hc.
  - apply andb_true_iff in Hc as [-> Hin]. apply bool_decide_eq_true_1 in Hin.
    rewrite compile_cached in H by assumption. injection H as <- <-.
    split; [discriminate|]. left. reflexivity.
  - pose proof (compile_walked _ _ _ _ _ _ _ _ _ Hc H) as (a & Ha & Hs & Hi & _ & Hn & Hp).
    fold className in Hn, Hp. rewrite Hs, Hn. subst p'.
    destruct (a_success a) as [|s0 ss].
    + split; [|left; reflexivity]. intros _. split; [auto|congruence].
    + split; [intros _; split; [discriminate|reflexivity]|].
      destruct ignoreGenerated; simpl; [|left; reflexivity].
      destruct (str_truthy className); [|left; reflexivity].
      right. split; [reflexivity|]. split; [discriminate|reflexivity].
Qed.

(** ** The walks of [interpret] and [compile] *)

(** Induction on the nesting of elements. *)
Lemma Element_nested_ind (P : Element -> Prop) :
  (forall raw variants type important, P (mkElement raw variants CNone type important)) ->
  (forall raw variants c type important,
      P (mkElement raw variants (CString c) type important)) ->
  (forall raw variants l type important,
      Forall P l -> P (mkElement raw variants (CArray l) type important)) ->
  forall e, P e.
Proof.
  intros Hn Hs Ha. fix IH 1. intros [raw variants [|c|l] type important].
  - apply Hn.
  - apply Hs.
  - apply Ha. induction l as [|x l IHl]; constructor; [apply IH|apply IHl].
Qed.

Lemma interpret_eval_unfold (depth : nat) (p : Processor) (handleIgnored : HandleIgnored)
      (parentVariants objVariants : list string) (objImportant : bool)
      (raw : string) (variants : list string) (content : Content Element)
      (type : ElementType) (important : bool) (a : Acc) :
  interpret_eval depth p handleIgnored parentVariants objVariants objImportant
                 (mkElement raw variants content type important) a =
  if bool_decide (type = TGroup) then
    match content with
    | CArray l =>
        ofold (fun a u' => interpret_eval depth p handleIgnored objVariants variants
                             important u' a) l a
    | _ => Done a
    end
  else
    found <- alias_body p type content ;;;
    match found with
    | Some body =>
        match depth with
        | O => OutOfFuel
        | S depth' =>
            ofold (fun a i => interpret_eval depth' p handleIgnored
                                parentVariants objVariants objImportant i a) body a
        end
    | None =>
        match content with
        | CString c =>
            interpret_gStyle p handleIgnored c (parentVariants ++ objVariants ++ variants)
              ((if objImportant || important then "!" else EmptyString)
               +:+ js_join ":" ((parentVariants ++ objVariants ++ variants) ++ [c]))
              (objImportant || important) (config_prefix p) a
        | _ => Done a
        end
    end.
Proof. destruct depth; reflexivity. Qed.

Lemma eval_leaves_unfold (depth : nat) (p : Processor)
      (parentVariants objVariants : list string) (objImportant : bool)
      (raw : string) (variants : list string) (content : Content Element)
      (type : ElementType) (important : bool) :
  eval_leaves depth p parentVariants objVariants objImportant
              (mkElement raw variants content type important) =
  if bool_decide (type = TGroup) then
    match content with
    | CArray l =>
        ls <- omap (eval_leaves depth p objVariants variants important) l ;;; Done (concat ls)
    | _ => Done []
    end
  else
    found <- alias_body p type content ;;;
    match found with
    | Some body =>
        match depth with
        | O => OutOfFuel
        | S depth' =>
            ls <- omap (eval_leaves depth' p parentVariants objVariants objImportant) body ;;;
            Done (concat ls)
        end
    | None =>
        match content with
        | CString c =>
            Done [LStyle c (parentVariants ++ objVariants ++ variants)
                         ((if objImportant || important then "!" else EmptyString)
                          +:+ js_join ":" ((parentVariants ++ objVariants ++ variants) ++ [c]))
                         (objImportant || important)]
        | _ => Done []
        end
    end.
Proof. destruct depth; reflexivity. Qed.

Lemma compile_hGroup_unfold (p : Processor) (showComment : bool)
      (handleIgnored : HandleIgnored) (buildSelector : string) (parentVariants : list string)
      (raw : string) (objVariants : list string) (content : Content Element)
      (type : ElementType) (objImportant : bool) (a : Acc) :
  compile_hGroup p showComment handleIgnored buildSelector parentVariants
                 (mkElement raw objVariants content type objImportant) a =
  match content with
  | CArray l =>
      ofold (fun a u =>
               if bool_decide (e_type u = TGroup) then
                 compile_hGroup p showComment handleIgnored buildSelector objVariants u a
               else
                 match e_content u with
                 | CString c =>
                     baseClass <- removePrefix p c ;;;
                     compile_gStyle p showComment handleIgnored buildSelector baseClass
                                    (parentVariants ++ objVariants ++ e_variants u)
                                    (js_join ":" ((parentVariants ++ objVariants ++ e_variants u)
                                                    ++ [c]))
                                    (objImportant || e_important u) a
                 | _ => Done a
                 end) l a
  | _ => Done a
  end.
Proof. reflexivity. Qed.

Lemma compile_group_leaves_unfold (parentVariants : list string)
      (raw : string) (objVariants : list string) (content : Content Element)
      (type : ElementType) (objImportant : bool) :
  compile_group_leaves parentVariants (mkElement raw objVariants content type objImportant) =
  match content with
  | CArray l =>
      flat_map (fun u =>
                  if bool_decide (e_type u = TGroup) then compile_group_leaves objVariants u
                  else
                    match e_content u with
                    | CString c =>
                        [LStyle c (parentVariants ++ objVariants ++ e_variants u)
                                (js_join ":" ((parentVariants ++ objVariants ++ e_variants u)
                                                ++ [c]))
                                (objImportant || e_important u)]
                    | _ => []
                    end) l
  | _ => []
  end.
Proof. reflexivity. Qed.

Lemma interpret_gAst_fold (depth : nat) (p : Processor) (ignoreProcessed : bool)
      (handleIgnored : HandleIgnored) (ast : list Element) (a : Acc) :
  interpret_gAst depth p ignoreProcessed handleIgnored ast a =
  ofold (interpret_gAst_step
           match depth with
           | O => None
           | S depth' => Some (interpret_gAst depth' p ignoreProcessed handleIgnored)
           end depth p ignoreProcessed handleIgnored) ast a.
Proof. destruct depth; reflexivity. Qed.

Lemma interpret_leaves_fold (depth : nat) (p : Processor) (ignoreProcessed : bool)
      (ast : list Element) (seen : list string) :
  interpret_leaves depth p ignoreProcessed ast seen =
  leaves_in_turn (interpret_leaves_step
                    match depth with
                    | O => None
                    | S depth' => Some (interpret_leaves depth' p ignoreProcessed)
                    end depth p ignoreProcessed) ast seen.
Proof. destruct depth; reflexivity. Qed.

Lemma obind_ret {A : Type} (m : outcome A) : obind m Done = m.
Proof. destruct m; reflexivity. Qed.

Lemma ofold_Done_inv {S A : Type} (R : S -> S -> Prop) (f : S -> A -> outcome S)
      (l : list A) :
  (forall s, R s s) ->
  (forall s1 s2 s3, R s1 s2 -> R s2 s3 -> R s1 s3) ->
  Forall (fun x => forall s s', f s x = Done s' -> R s s') l ->
  forall s s', ofold f l s = Done s' -> R s s'.
Proof.
  intros Hrefl Htrans Hall. induction Hall as [|x l Hx _ IH]; intros s s' H; simpl in H.
  - injection H as <-. apply Hrefl.
  - apply obind_Done in H as (s1 & H1 & H2). eapply Htrans; [eapply Hx, H1|eapply IH, H2].
Qed.

Lemma ofold_ext_Forall {S A : Type} (f g : S -> A -> outcome S) (l : list A) :
  Forall (fun x => forall s, f s x = g s x) l -> forall s, ofold f l s = ofold g l s.
Proof.
  induction 1 as [|x l Hx _ IH]; intros s; simpl; [reflexivity|].
  rewrite Hx. destruct (g s x); simpl; auto.
Qed.

(** A loop over members, each of which does what a loop over its tokens
    does, is the loop over the tokens of all the members. *)
Lemma ofold_omap_concat {S A L : Type} (f : S -> A -> outcome S) (g : A -> outcome (list L))
      (leaf : S -> L -> outcome S) (l : list A) :
  Forall (fun x => forall s s', f s x = Done s' ->
                                exists ls, g x = Done ls /\ ofold leaf ls s = Done s') l ->
  forall s s', ofold f l s = Done s' ->
               exists lss, omap g l = Done lss /\ ofold leaf (concat lss) s = Done s'.
Proof.
  induction 1 as [|x l Hx _ IH]; intros s s' H; simpl in H.
  - injection H as <-. exists []. split; reflexivity.
  - apply obind_Done in H as (s1 & H1 & H2).
    destruct (Hx _ _ H1) as (ls & Hg & Hls). destruct (IH _ _ H2) as (lss & Hm & Hlss).
    exists (ls :: lss). split.
    + simpl. rewrite Hg. simpl. fold (omap g l). rewrite Hm. reflexivity.
    + simpl. rewrite ofold_app, Hls. exact Hlss.
Qed.

(** *** Walks and the fields of the accumulator *)

Section Walk.
Variable R : Acc -> Acc -> Prop.
Hypothesis R_refl : forall a, R a a.
Hypothesis R_trans : forall a1 a2 a3, R a1 a2 -> R a2 a3 -> R a1 a3.
Hypothesis R_gStyle :
  forall p handleIgnored baseClass variants selector important prefix a a',
    interpret_gStyle p handleIgnored baseClass variants selector important prefix a = Done a' ->
    R a a'.
Hypothesis R_hIgnored : forall handleIgnored className a, R a (_hIgnored handleIgnored className a).
Hypothesis R_push : forall x a, R a (push_utility x a).

Lemma interpret_eval_rel (depth : nat) (p : Processor) (handleIgnored : HandleIgnored) :
  forall u parentVariants objVariants objImportant a a',
    interpret_eval depth p handleIgnored parentVariants objVariants objImportant u a = Done a' ->
    R a a'.
Proof.
  induction depth as [|depth IHd];
    induction u as [raw vs type imp|raw vs c type imp|raw vs l type imp IH]
      using Element_nested_ind; intros pv ov oi a a' H; rewrite interpret_eval_unfold in H;
    (destruct (bool_decide (type = TGroup));
     [first [injection H as <-; apply R_refl
            |eapply ofold_Done_inv; [apply R_refl|apply R_trans| |exact H];
             eapply Forall_impl; [exact IH|]; intros u Hu s s'; apply Hu]
     |apply obind_Done in H as ([body|] & _ & H);
      [first [discriminate
             |eapply ofold_Done_inv; [apply R_refl|apply R_trans| |exact H];
              apply Forall_forall; intros i _ s s'; apply IHd]
      |first [injection H as <-; apply R_refl|eapply R_gStyle, H]]]).
Qed.

Lemma interpret_gAst_step_rel (rec : option (list Element -> Acc -> outcome Acc))
      (depth : nat) (p : Processor) (ignoreProcessed : bool) (handleIgnored : HandleIgnored)
      (a a' : Acc) (obj : Element) :
  (forall _gAst body s s', rec = Some _gAst -> _gAst body s = Done s' -> R s s') ->
  interpret_gAst_step rec depth p ignoreProcessed handleIgnored a obj = Done a' ->
  R a a'.
Proof.
  intros Hrec. unfold interpret_gAst_step.
  destruct (ignoreProcessed && bool_decide (e_raw obj ∈ a_utilities a));
    [intros H; injection H as <-; apply R_refl|].
  set (a1 := if ignoreProcessed then push_utility (e_raw obj) a else a).
  assert (R a a1) as Ha1.
  { subst a1. destruct ignoreProcessed; [apply R_push|apply R_refl]. }
  intros H. eapply R_trans; [exact Ha1|]. clearbody a1.
  destruct (e_type obj).
  - destruct (e_content obj) as [|c|l]; try (injection H as <-; apply R_refl).
    destruct (str_truthy c); [eapply R_gStyle, H|].
    injection H as <-; apply R_refl.
  - unfold interpret_hGroup in H.
    destruct (e_content obj) as [|c|l]; try (injection H as <-; apply R_refl).
    eapply ofold_Done_inv; [apply R_refl|apply R_trans| |exact H].
    apply Forall_forall. intros u _ s s'. apply interpret_eval_rel.
  - apply obind_Done in H as ([body|] & _ & H).
    + destruct rec as [g|]; [|discriminate]. eapply Hrec; [reflexivity|exact H].
    + injection H as <-. apply R_hIgnored.
  - apply obind_Done in H as ([body|] & _ & H).
    + destruct rec as [g|]; [|discriminate]. eapply Hrec; [reflexivity|exact H].
    + injection H as <-. apply R_hIgnored.
Qed.

Lemma interpret_gAst_rel (depth : nat) (p : Processor) (ignoreProcessed : bool)
      (handleIgnored : HandleIgnored) :
  forall ast a a',
    interpret_gAst depth p ignoreProcessed handleIgnored ast a = Done a' -> R a a'.
Proof.
  induction depth as [|depth IH]; intros ast a a' H; simpl in H.
  - eapply ofold_Done_inv; [apply R_refl|apply R_trans| |exact H].
    apply Forall_forall. intros obj _ s s'. apply interpret_gAst_step_rel.
    intros g body s0 s0' Hg. discriminate.
  - eapply ofold_Done_inv; [apply R_refl|apply R_trans| |exact H].
    apply Forall_forall. intros obj _ s s'. apply interpret_gAst_step_rel.
    intros g body s0 s0' Hg. injection Hg as <-. apply IH.
Qed.

End Walk.

Lemma _hIgnored_utilities (handleIgnored : HandleIgnored) (className : string) (a : Acc) :
  a_utilities (_hIgnored handleIgnored className a) = a_utilities a.
Proof.
  unfold _hIgnored. destruct handleIgnored as [h|]; [destruct (h className)|]; reflexivity.
Qed.

Lemma add_plugin_utility_utilities (p : Processor) (selector : string) (a a' : Acc) :
  add_plugin_utility p selector a = Done a' -> a_utilities a' = a_utilities a.
Proof.
  unfold add_plugin_utility. intros H.
  destruct (pl_utilities (_plugin p) !! selector); [injection H as <-; reflexivity|].
  destruct (inherited selector); [|injection H as <-; reflexivity].
  apply obind_Done in H as (sheet & _ & H). injection H as <-. reflexivity.
Qed.

Lemma wrap_and_add_utilities (p : Processor) (handleIgnored : HandleIgnored)
      (variants : list string) (selector : string) (result : Output) (a a' : Acc) :
  wrap_and_add p handleIgnored variants selector result a = Done a' ->
  a_utilities a' = a_utilities a.
Proof.
  unfold wrap_and_add. intros H. apply obind_Done in H as (w & _ & H).
  destruct w; injection H as <-; [reflexivity|apply _hIgnored_utilities].
Qed.

Lemma interpret_gStyle_utilities (p : Processor) (handleIgnored : HandleIgnored)
      (baseClass : string) (variants : list string) (selector : string) (important : bool)
      (prefix : option string) (a a' : Acc) :
  interpret_gStyle p handleIgnored baseClass variants selector important prefix a = Done a' ->
  a_utilities a' = a_utilities a.
Proof.
  unfold interpret_gStyle. intros H.
  destruct (excluded _ _); [injection H as <-; reflexivity|].
  destruct (plugin_selector _ _ _); [eapply add_plugin_utility_utilities, H|].
  apply obind_Done in H as ([result|] & _ & H).
  - eapply wrap_and_add_utilities, H.
  - injection H as <-. apply _hIgnored_utilities.
Qed.

Lemma interpret_eval_utilities (depth : nat) (p : Processor) (handleIgnored : HandleIgnored)
      (u : Element) (parentVariants objVariants : list string) (objImportant : bool)
      (a a' : Acc) :
  interpret_eval depth p handleIgnored parentVariants objVariants objImportant u a = Done a' ->
  a_utilities a' = a_utilities a.
Proof.
  apply (interpret_eval_rel (fun a a' => a_utilities a' = a_utilities a)).
  - reflexivity.
  - intros a1 a2 a3 H1 H2. congruence.
  - intros. eapply interpret_gStyle_utilities. eassumption.
Qed.

(** *** What a token adds to [ignored] *)

Lemma ignored_grows_refl (a : Acc) : ignored_grows a a.
Proof. exists []. symmetry. apply app_nil_r. Qed.

Lemma ignored_grows_same (a a' : Acc) : a_ignored a' = a_ignored a -> ignored_grows a a'.
Proof. intros H. exists []. rewrite H. symmetry. apply app_nil_r. Qed.

Lemma ignored_grows_trans (a1 a2 a3 : Acc) :
  ignored_grows a1 a2 -> ignored_grows a2 a3 -> ignored_grows a1 a3.
Proof.
  intros [e1 H1] [e2 H2]. exists (e1 ++ e2). rewrite H2, H1. symmetry. apply app_assoc.
Qed.

Lemma ignored_grows_elem (a a' : Acc) (x : string) :
  ignored_grows a a' -> x ∈ a_ignored a -> x ∈ a_ignored a'.
Proof. intros [e ->] Hx. apply elem_of_app. left. exact Hx. Qed.

Lemma _hIgnored_ignored (handleIgnored : HandleIgnored) (className : string) (a : Acc) :
  ignored_grows a (_hIgnored handleIgnored className a)
  /\ className ∈ a_ignored (_hIgnored handleIgnored className a).
Proof.
  unfold _hIgnored. destruct handleIgnored as [h|]; [destruct (h className)|]; simpl.
  - split; [exists [className]; reflexivity|]. apply elem_of_app. right. left.
  - split; [exists [className; className]; symmetry; apply (app_assoc _ [_] [_])|].
    apply elem_of_app. right. left.
  - split; [exists [className]; reflexivity|]. apply elem_of_app. right. left.
Qed.

Lemma add_plugin_utility_grows (p : Processor) (selector : string) (a a' : Acc) :
  add_plugin_utility p selector a = Done a' -> ignored_grows a a'.
Proof.
  unfold add_plugin_utility. intros H. apply ignored_grows_same.
  destruct (pl_utilities (_plugin p) !! selector); [injection H as <-; reflexivity|].
  destruct (inherited selector); [|injection H as <-; reflexivity].
  apply obind_Done in H as (sheet & _ & H). injection H as <-. reflexivity.
Qed.

Lemma wrap_and_add_grows (p : Processor) (handleIgnored : HandleIgnored)
      (variants : list string) (selector : string) (result : Output) (a a' : Acc) :
  wrap_and_add p handleIgnored variants selector result a = Done a' -> ignored_grows a a'.
Proof.
  unfold wrap_and_add. intros H. apply obind_Done in H as (w & _ & H).
  destruct w; injection H as <-.
  - apply ignored_grows_same. reflexivity.
  - apply _hIgnored_ignored.
Qed.

Lemma interpret_gStyle_grows (p : Processor) (handleIgnored : HandleIgnored)
      (baseClass : string) (variants : list string) (selector : string) (important : bool)
      (prefix : option string) (a a' : Acc) :
  interpret_gStyle p handleIgnored baseClass variants selector important prefix a = Done a' ->
  ignored_grows a a'.
Proof.
  unfold interpret_gStyle. intros H.
  destruct (excluded _ _); [injection H as <-; exists [selector]; reflexivity|].
  destruct (plugin_selector _ _ _); [eapply add_plugin_utility_grows, H|].
  apply obind_Done in H as ([result|] & _ & H).
  - eapply wrap_and_add_grows, H.
  - injection H as <-. apply _hIgnored_ignored.
Qed.

Lemma compile_gStyle_grows (p : Processor) (showComment : bool) (handleIgnored : HandleIgnored)
      (buildSelector baseClass : string) (variants : list string) (selector : string)
      (important : bool) (a a' : Acc) :
  compile_gStyle p showComment handleIgnored buildSelector baseClass variants selector
                 important a = Done a' ->
  ignored_grows a a'.
Proof.
  unfold compile_gStyle. intros H.
  destruct (excluded _ _); [injection H as <-; exists [selector]; reflexivity|].
  destruct (plugin_selector _ _ _); [eapply add_plugin_utility_grows, H|].
  apply obind_Done in H as ([result|] & _ & H).
  - eapply wrap_and_add_grows, H.
  - injection H as <-. apply _hIgnored_ignored.
Qed.

Lemma interpret_leaf_grows (p : Processor) (handleIgnored : HandleIgnored) (a : Acc)
      (l : Leaf) (a' : Acc) :
  interpret_leaf p handleIgnored a l = Done a' -> ignored_grows a a'.
Proof.
  destruct l as [c variants selector important|className|raw]; simpl; intros H.
  - eapply interpret_gStyle_grows, H.
  - injection H as <-. apply _hIgnored_ignored.
  - injection H as <-. apply ignored_grows_same. reflexivity.
Qed.

Lemma compile_leaf_grows (p : Processor) (showComment : bool) (handleIgnored : HandleIgnored)
      (buildSelector : string) (a : Acc) (l : Leaf) (a' : Acc) :
  compile_leaf p showComment handleIgnored buildSelector a l = Done a' -> ignored_grows a a'.
Proof.
  destruct l as [c variants selector important|className|raw]; simpl; intros H.
  - apply obind_Done in H as (baseClass & _ & H). eapply compile_gStyle_grows, H.
  - injection H as <-. apply _hIgnored_ignored.
  - injection H as <-. apply ignored_grows_same. reflexivity.
Qed.

(** *** A token that matches [exclude] *)

Lemma excluded_proc_at (p : Processor) (a : Acc) (selector : string) :
  excluded (proc_at p a) selector = excluded p selector.
Proof. reflexivity. Qed.

Lemma interpret_gStyle_excluded (p : Processor) (handleIgnored : HandleIgnored)
      (baseClass : string) (variants : list string) (selector : string) (important : bool)
      (prefix : option string) (a : Acc) :
  excluded p selector = true ->
  interpret_gStyle p handleIgnored baseClass variants selector important prefix a
  = Done (push_ignored selector a).
Proof. intros He. unfold interpret_gStyle. rewrite excluded_proc_at, He. reflexivity. Qed.

Lemma compile_gStyle_excluded (p : Processor) (showComment : bool)
      (handleIgnored : HandleIgnored) (buildSelector baseClass : string)
      (variants : list string) (selector : string) (important : bool) (a : Acc) :
  excluded p selector = true ->
  compile_gStyle p showComment handleIgnored buildSelector baseClass variants selector
                 important a = Done (push_ignored selector a).
Proof. intros He. unfold compile_gStyle. rewrite He. reflexivity. Qed.

Lemma interpret_leaf_excluded (p : Processor) (handleIgnored : HandleIgnored) (a : Acc)
      (c : string) (variants : list string) (selector : string) (important : bool) (a' : Acc) :
  interpret_leaf p handleIgnored a (LStyle c variants selector important) = Done a' ->
  excluded p selector = true -> a' = push_ignored selector a.
Proof.
  simpl. intros H He. rewrite interpret_gStyle_excluded in H by exact He. congruence.
Qed.

Lemma compile_leaf_excluded (p : Processor) (showComment : bool)
      (handleIgnored : HandleIgnored) (buildSelector : string) (a : Acc)
      (c : string) (variants : list string) (selector : string) (important : bool) (a' : Acc) :
  compile_leaf p showComment handleIgnored buildSelector a (LStyle c variants selector important)
  = Done a' ->
  excluded p selector = true -> a' = push_ignored selector a.
Proof.
  simpl. intros H He. apply obind_Done in H as (baseClass & _ & H).
  rewrite compile_gStyle_excluded in H by exact He. congruence.
Qed.

(** *** A token does not read [ignored] *)

Lemma same_but_ignored_refl (a : Acc) : same_but_ignored a a.
Proof. repeat split. Qed.

Lemma _hIgnored_agnostic (handleIgnored : HandleIgnored) (className : string) (a b : Acc) :
  same_but_ignored a b ->
  same_but_ignored (_hIgnored handleIgnored className a) (_hIgnored handleIgnored className b).
Proof.
  intros (Hu & Hs & Hsh). unfold _hIgnored, same_but_ignored.
  destruct handleIgnored as [h|]; [destruct (h className)|]; simpl;
    rewrite ?Hu, ?Hs, ?Hsh; auto.
Qed.

Lemma add_plugin_utility_agnostic (p : Processor) (selector : string) (a b a' : Acc) :
  same_but_ignored a b ->
  add_plugin_utility p selector a = Done a' ->
  exists b', add_plugin_utility p selector b = Done b' /\ same_but_ignored a' b'.
Proof.
  intros (Hu & Hs & Hsh). unfold add_plugin_utility, same_but_ignored. simpl. intros H.
  destruct (pl_utilities (_plugin p) !! selector).
  - injection H as <-. eexists. split; [reflexivity|]. simpl. rewrite Hu, Hs, Hsh. auto.
  - destruct (inherited selector).
    + apply obind_Done in H as (sheet & Hsheet & H). injection H as <-.
      rewrite <- Hsh, Hsheet. simpl. eexists. split; [reflexivity|]. simpl.
      rewrite Hu, Hs. auto.
    + injection H as <-. eexists. split; [reflexivity|]. simpl. rewrite Hu, Hs, Hsh. auto.
Qed.

Lemma wrap_and_add_agnostic (p : Processor) (handleIgnored : HandleIgnored)
      (variants : list string) (selector : string) (result : Output) (a b a' : Acc) :
  same_but_ignored a b ->
  wrap_and_add p handleIgnored variants selector result a = Done a' ->
  exists b', wrap_and_add p handleIgnored variants selector result b = Done b'
             /\ same_but_ignored a' b'.
Proof.
  intros Hab. unfold wrap_and_add. intros H. apply obind_Done in H as (w & -> & H). simpl.
  destruct w; injection H as <-; eexists; (split; [reflexivity|]).
  - destruct Hab as (Hu & Hs & Hsh). unfold same_but_ignored. simpl.
    rewrite Hu, Hs, Hsh. auto.
  - apply _hIgnored_agnostic, Hab.
Qed.

Lemma proc_at_agnostic (p : Processor) (a b : Acc) :
  same_but_ignored a b -> proc_at p a = proc_at p b.
Proof. intros (Hu & _). unfold proc_at. rewrite Hu. reflexivity. Qed.

Lemma interpret_leaf_agnostic (p : Processor) (handleIgnored : HandleIgnored) (a b : Acc)
      (l : Leaf) (a' : Acc) :
  excluded_leaf p l = false ->
  same_but_ignored a b ->
  interpret_leaf p handleIgnored a l = Done a' ->
  exists b', interpret_leaf p handleIgnored b l = Done b' /\ same_but_ignored a' b'.
Proof.
  intros Hex Hab. destruct l as [c variants selector important|className|raw]; simpl; intros H.
  - simpl in Hex. unfold interpret_gStyle in *.
    rewrite <- (proc_at_agnostic p a b Hab). rewrite excluded_proc_at, Hex in *.
    destruct (plugin_selector _ _ _); [eapply add_plugin_utility_agnostic; eassumption|].
    apply obind_Done in H as ([result|] & -> & H); simpl.
    + eapply wrap_and_add_agnostic; eassumption.
    + injection H as <-. eexists. split; [reflexivity|]. apply _hIgnored_agnostic, Hab.
  - injection H as <-. eexists. split; [reflexivity|]. apply _hIgnored_agnostic, Hab.
  - injection H as <-. eexists. split; [reflexivity|].
    destruct Hab as (Hu & Hs & Hsh). unfold same_but_ignored. simpl. rewrite Hu, Hs, Hsh. auto.
Qed.

Lemma compile_leaf_agnostic (p : Processor) (showComment : bool)
      (handleIgnored : HandleIgnored) (buildSelector : string) (a b : Acc)
      (l : Leaf) (a' : Acc) :
  excluded_leaf p l = false ->
  same_but_ignored a b ->
  compile_leaf p showComment handleIgnored buildSelector a l = Done a' ->
  exists b', compile_leaf p showComment handleIgnored buildSelector b l = Done b'
             /\ same_but_ignored a' b'.
Proof.
  intros Hex Hab. destruct l as [c variants selector important|className|raw]; simpl; intros H.
  - simpl in Hex. apply obind_Done in H as (baseClass & -> & H). simpl.
    unfold compile_gStyle in *. rewrite Hex in *.
    destruct (plugin_selector _ _ _); [eapply add_plugin_utility_agnostic; eassumption|].
    apply obind_Done in H as ([result|] & -> & H); simpl.
    + eapply wrap_and_add_agnostic; eassumption.
    + injection H as <-. eexists. split; [reflexivity|]. apply _hIgnored_agnostic, Hab.
  - injection H as <-. eexists. split; [reflexivity|]. apply _hIgnored_agnostic, Hab.
  - injection H as <-. eexists. split; [reflexivity|].
    destruct Hab as (Hu & Hs & Hsh). unfold same_but_ignored. simpl. rewrite Hu, Hs, Hsh. auto.
Qed.

(** *** A run of tokens *)

Section Tokens.
Variable p : Processor.
Variable leaf : Acc -> Leaf -> outcome Acc.
Hypothesis leaf_grows : forall a l a', leaf a l = Done a' -> ignored_grows a a'.
Hypothesis leaf_excluded :
  forall a c variants selector important a',
    leaf a (LStyle c variants selector important) = Done a' ->
    excluded p selector = true -> a' = push_ignored selector a.
Hypothesis leaf_agnostic :
  forall a b l a',
    excluded_leaf p l = false -> same_but_ignored a b -> leaf a l = Done a' ->
    exists b', leaf b l = Done b' /\ same_but_ignored a' b'.

Lemma leaves_grow (ls : list Leaf) (a a' : Acc) :
  ofold leaf ls a = Done a' -> ignored_grows a a'.
Proof.
  apply ofold_Done_inv; [apply ignored_grows_refl|apply ignored_grows_trans|].
  apply Forall_forall. intros l _ s s'. apply leaf_grows.
Qed.

Lemma leaves_excluded_ignored (ls : list Leaf) (a a' : Acc) :
  ofold leaf ls a = Done a' ->
  forall c variants selector important,
    LStyle c variants selector important ∈ ls -> excluded p selector = true ->
    selector ∈ a_ignored a'.
Proof.
  intros H c variants selector important Hin He.
  apply list_elem_of_split in Hin as (pre & post & ->).
  rewrite ofold_app in H. apply obind_Done in H as (a1 & _ & H). simpl in H.
  apply obind_Done in H as (a2 & H2 & H).
  eapply ignored_grows_elem; [eapply leaves_grow, H|].
  rewrite (leaf_excluded _ _ _ _ _ _ H2 He). simpl. apply elem_of_app. right. left.
Qed.

Lemma leaves_without_excluded (ls : list Leaf) :
  forall a b a',
    same_but_ignored a b ->
    ofold leaf ls a = Done a' ->
    exists b', ofold leaf (without_excluded p ls) b = Done b' /\ same_but_ignored a' b'.
Proof.
  unfold without_excluded.
  induction ls as [|l ls IH]; intros a b a' Hab H; simpl in H.
  - injection H as <-. exists b. split; [reflexivity|exact Hab].
  - apply obind_Done in H as (a1 & H1 & H).
    destruct (excluded_leaf p l) eqn:Hex.
    + rewrite filter_cons_False by (rewrite Hex; discriminate).
      destruct l as [c variants selector important| |]; try discriminate. simpl in Hex.
      rewrite (leaf_excluded _ _ _ _ _ _ H1 Hex) in H.
      eapply IH; [|exact H]. exact Hab.
    + rewrite filter_cons_True by exact Hex.
      destruct (leaf_agnostic _ _ _ _ Hex Hab H1) as (b1 & Hb1 & Hab1).
      simpl. rewrite Hb1. simpl. eapply IH; [exact Hab1|exact H].
Qed.

End Tokens.

(** *** A walk is the run of its tokens *)

Lemma compile_hGroup_leaves (p : Processor) (showComment : bool)
      (handleIgnored : HandleIgnored) (buildSelector : string) (obj : Element) :
  forall parentVariants a,
    compile_hGroup p showComment handleIgnored buildSelector parentVariants obj a
    = ofold (compile_leaf p showComment handleIgnored buildSelector)
            (compile_group_leaves parentVariants obj) a.
Proof.
  induction obj as [raw vs type imp|raw vs c type imp|raw vs l type imp IH]
    using Element_nested_ind; intros parentVariants a; [reflexivity|reflexivity|].
  rewrite compile_hGroup_unfold, compile_group_leaves_unfold, ofold_flat_map.
  apply ofold_ext_Forall. eapply Forall_impl; [exact IH|]. intros u Hu s. simpl.
  destruct (bool_decide (e_type u = TGroup)); [apply Hu|].
  destruct (e_content u); simpl; try reflexivity.
  symmetry. apply obind_ret.
Qed.

Lemma compile_step_leaves (p : Processor) (showComment : bool)
      (handleIgnored : HandleIgnored) (buildSelector : string) (a : Acc) (obj : Element) :
  compile_step p showComment handleIgnored buildSelector a obj
  = ofold (compile_leaf p showComment handleIgnored buildSelector) (compile_leaves obj) a.
Proof.
  unfold compile_step, compile_leaves. destruct (e_type obj); try reflexivity.
  - destruct (e_content obj) as [|c|l]; try reflexivity.
    destruct (str_truthy c); [|reflexivity]. simpl. symmetry. apply obind_ret.
  - apply compile_hGroup_leaves.
Qed.

Lemma compile_walk_leaves (p : Processor) (showComment : bool)
      (handleIgnored : HandleIgnored) (buildSelector : string) (ast : list Element) (a : Acc) :
  ofold (compile_step p showComment handleIgnored buildSelector) ast a
  = ofold (compile_leaf p showComment handleIgnored buildSelector)
          (flat_map compile_leaves ast) a.
Proof.
  rewrite ofold_flat_map. apply ofold_ext. intros s x. apply compile_step_leaves.
Qed.

Lemma interpret_eval_leaves (depth : nat) (p : Processor) (handleIgnored : HandleIgnored) :
  forall u parentVariants objVariants objImportant a a',
    interpret_eval depth p handleIgnored parentVariants objVariants objImportant u a = Done a' ->
    exists ls,
      eval_leaves depth p parentVariants objVariants objImportant u = Done ls
      /\ ofold (interpret_leaf p handleIgnored) ls a = Done a'.
Proof.
  induction depth as [|depth IHd];
    induction u as [raw vs type imp|raw vs c type imp|raw vs l type imp IH]
      using Element_nested_ind; intros pv ov oi a a' H;
    rewrite interpret_eval_unfold in H; rewrite eval_leaves_unfold;
    (destruct (bool_decide (type = TGroup));
     [first [injection H as <-; exists []; split; reflexivity
            |destruct (ofold_omap_concat _ (eval_leaves _ p ov vs imp)
                         (interpret_leaf p handleIgnored) l
                         ltac:(eapply Forall_impl; [exact IH|]; intros u Hu s s'; apply Hu)
                         _ _ H) as (lss & -> & Hlss);
             exists (concat lss); split; [reflexivity|exact Hlss]]
     |apply obind_Done in H as ([body|] & -> & H); simpl;
      [first [discriminate
             |destruct (ofold_omap_concat _ (eval_leaves depth p pv ov oi)
                          (interpret_leaf p handleIgnored) body
                          ltac:(apply Forall_forall; intros i _ s s'; apply IHd)
                          _ _ H) as (lss & -> & Hlss);
              exists (concat lss); split; [reflexivity|exact Hlss]]
      |first [injection H as <-; exists []; split; reflexivity
             |eexists; split; [reflexivity|]; simpl; rewrite H; reflexivity]]]).
Qed.

Lemma leaves_after_seen (p : Processor) (handleIgnored : HandleIgnored)
      (ignoreProcessed : bool) (raw : string) (ls : list Leaf) (a : Acc) :
  ofold (interpret_leaf p handleIgnored)
        ((if ignoreProcessed then [LSeen raw] else []) ++ ls) a
  = ofold (interpret_leaf p handleIgnored) ls
          (if ignoreProcessed then push_utility raw a else a).
Proof. destruct ignoreProcessed; reflexivity. Qed.

Lemma utilities_after_seen (ignoreProcessed : bool) (raw : string) (a : Acc) :
  a_utilities (if ignoreProcessed then push_utility raw a else a)
  = if ignoreProcessed then a_utilities a ++ [raw] else a_utilities a.
Proof. destruct ignoreProcessed; reflexivity. Qed.

Lemma interpret_gAst_step_leaves
      (rec : option (list Element -> Acc -> outcome Acc))
      (tokens : option (list Element -> list string -> outcome (list Leaf * list string)))
      (depth : nat) (p : Processor) (ignoreProcessed : bool) (handleIgnored : HandleIgnored)
      (a a' : Acc) (obj : Element) :
  (forall _gAst body s s',
      rec = Some _gAst -> _gAst body s = Done s' ->
      exists t ls,
        tokens = Some t /\ t body (a_utilities s) = Done (ls, a_utilities s')
        /\ ofold (interpret_leaf p handleIgnored) ls s = Done s') ->
  interpret_gAst_step rec depth p ignoreProcessed handleIgnored a obj = Done a' ->
  exists ls,
    interpret_leaves_step tokens depth p ignoreProcessed (a_utilities a) obj
    = Done (ls, a_utilities a')
    /\ ofold (interpret_leaf p handleIgnored) ls a = Done a'.
Proof.
  intros Hrec. unfold interpret_gAst_step, interpret_leaves_step.
  destruct (ignoreProcessed && bool_decide (e_raw obj ∈ a_utilities a));
    [intros H; injection H as <-; exists []; split; reflexivity|].
  cbv zeta. rewrite <- (utilities_after_seen ignoreProcessed (e_raw obj) a).
  set (a1 := if ignoreProcessed then push_utility (e_raw obj) a else a).
  set (first := if ignoreProcessed then [LSeen (e_raw obj)] else []).
  assert (forall ls, ofold (interpret_leaf p handleIgnored) (first ++ ls) a
                     = ofold (interpret_leaf p handleIgnored) ls a1) as Hfirst.
  { intros ls. apply leaves_after_seen. }
  assert (ofold (interpret_leaf p handleIgnored) first a = Done a1) as Hnone.
  { rewrite <- (app_nil_r first). apply Hfirst. }
  clearbody a1 first. intros H.
  destruct (e_type obj).
  - destruct (e_content obj) as [|c|l];
      try (injection H as <-; exists first; split; [reflexivity|exact Hnone]).
    destruct (str_truthy c);
      [|injection H as <-; exists first; split; [reflexivity|exact Hnone]].
    eexists. split.
    + rewrite (interpret_gStyle_utilities _ _ _ _ _ _ _ _ _ H). reflexivity.
    + rewrite Hfirst. simpl. rewrite H. reflexivity.
  - unfold interpret_hGroup in H.
    destruct (e_content obj) as [|c|l];
      try (injection H as <-; exists first; split; [reflexivity|exact Hnone]).
    assert (a_utilities a' = a_utilities a1) as Hu.
    { eapply (ofold_Done_inv (fun s s' => a_utilities s' = a_utilities s));
        [reflexivity|intros s1 s2 s3 H1 H2; congruence| |exact H].
      apply Forall_forall. intros u _ s s'. apply interpret_eval_utilities. }
    destruct (ofold_omap_concat _ (eval_leaves depth p [] (e_variants obj) (e_important obj))
                (interpret_leaf p handleIgnored) l
                ltac:(apply Forall_forall; intros u _ s s'; apply interpret_eval_leaves)
                _ _ H) as (lss & -> & Hlss).
    simpl. eexists. split; [rewrite Hu; reflexivity|]. rewrite Hfirst. exact Hlss.
  - apply obind_Done in H as ([body|] & -> & H); simpl.
    + destruct rec as [g|]; [|discriminate].
      destruct (Hrec g body a1 a' eq_refl H) as (t & ls & -> & -> & Hls). simpl.
      eexists. split; [reflexivity|]. rewrite Hfirst. exact Hls.
    + injection H as <-. eexists. split.
      * rewrite _hIgnored_utilities. reflexivity.
      * rewrite Hfirst. reflexivity.
  - apply obind_Done in H as ([body|] & -> & H); simpl.
    + destruct rec as [g|]; [|discriminate].
      destruct (Hrec g body a1 a' eq_refl H) as (t & ls & -> & -> & Hls). simpl.
      eexists. split; [reflexivity|]. rewrite Hfirst. exact Hls.
    + injection H as <-. eexists. split.
      * rewrite _hIgnored_utilities. reflexivity.
      * rewrite Hfirst. reflexivity.
Qed.

Lemma interpret_gAst_steps_leaves
      (rec : option (list Element -> Acc -> outcome Acc))
      (tokens : option (list Element -> list string -> outcome (list Leaf * list string)))
      (depth : nat) (p : Processor) (ignoreProcessed : bool) (handleIgnored : HandleIgnored) :
  (forall _gAst body s s',
      rec = Some _gAst -> _gAst body s = Done s' ->
      exists t ls,
        tokens = Some t /\ t body (a_utilities s) = Done (ls, a_utilities s')
        /\ ofold (interpret_leaf p handleIgnored) ls s = Done s') ->
  forall ast a a',
    ofold (interpret_gAst_step rec depth p ignoreProcessed handleIgnored) ast a = Done a' ->
    exists ls,
      leaves_in_turn (interpret_leaves_step tokens depth p ignoreProcessed) ast (a_utilities a)
      = Done (ls, a_utilities a')
      /\ ofold (interpret_leaf p handleIgnored) ls a = Done a'.
Proof.
  intros Hrec. induction ast as [|obj ast IH]; intros a a' H; simpl in H.
  - injection H as <-. exists []. split; reflexivity.
  - apply obind_Done in H as (a1 & H1 & H).
    destruct (interpret_gAst_step_leaves _ _ _ _ _ _ _ _ _ Hrec H1) as (ls1 & Hs1 & Hl1).
    destruct (IH _ _ H) as (ls2 & Hs2 & Hl2).
    exists (ls1 ++ ls2). split.
    + simpl. rewrite Hs1. simpl. rewrite Hs2. reflexivity.
    + rewrite ofold_app, Hl1. exact Hl2.
Qed.

Lemma interpret_gAst_leaves (depth : nat) (p : Processor) (ignoreProcessed : bool)
      (handleIgnored : HandleIgnored) :
  forall ast a a',
    interpret_gAst depth p ignoreProcessed handleIgnored ast a = Done a' ->
    exists ls,
      interpret_leaves depth p ignoreProcessed ast (a_utilities a) = Done (ls, a_utilities a')
      /\ ofold (interpret_leaf p handleIgnored) ls a = Done a'.
Proof.
  induction depth as [|depth IHd]; intros ast a a' H;
    rewrite interpret_gAst_fold in H; rewrite interpret_leaves_fold;
    (eapply interpret_gAst_steps_leaves; [|exact H]);
    intros g body s s' Hg Hb; [discriminate|].
  injection Hg as <-. destruct (IHd _ _ _ Hb) as (ls & Hls & Hf).
  eexists _, ls. split; [reflexivity|]. split; [exact Hls|exact Hf].
Qed.

(** C3, for the tokens a call processes.  A token whose selector matches
    [exclude] goes to [ignored] and nowhere else, in [interpret] and in
    [compile]: [_gStyle] returns the accumulator with the selector pushed on
    [ignored], before [extract] or the plugin tables are consulted.  A walk
    that returns has done what the run of its tokens does, at the top level,
    in groups and in alias bodies; [ignored] holds the selector of every
    token that matches [exclude], and the other fields of the accumulator
    are the ones the run leaves when these tokens are taken out.  The
    results of [compile], when it is not cut short at line 489, and of
    [interpret] are read off the accumulator of the walk. *)
Theorem exclude_precedence (p : Processor) (handleIgnored : HandleIgnored) :
  (forall baseClass variants selector important prefix a,
      excluded p selector = true ->
      interpret_gStyle p handleIgnored baseClass variants selector important prefix a
      = Done (mkAcc (a_utilities a) (a_success a) (a_ignored a ++ [selector]) (a_sheet a)))
  /\ (forall showComment buildSelector baseClass variants selector important a,
         excluded p selector = true ->
         compile_gStyle p showComment handleIgnored buildSelector baseClass variants
                        selector important a
         = Done (mkAcc (a_utilities a) (a_success a) (a_ignored a ++ [selector]) (a_sheet a)))
  /\ (forall showComment buildSelector ast a a',
         ofold (compile_step p showComment handleIgnored buildSelector) ast a = Done a' ->
         let leaf := compile_leaf p showComment handleIgnored buildSelector in
         let tokens := flat_map compile_leaves ast in
         ofold leaf tokens a = Done a'
         /\ (forall c variants selector important,
                LStyle c variants selector important ∈ tokens ->
                excluded p selector = true -> selector ∈ a_ignored a')
         /\ exists b, ofold leaf (without_excluded p tokens) a = Done b
                      /\ a_success a' = a_success b /\ a_sheet a' = a_sheet b)
  /\ (forall depth ignoreProcessed ast a a',
         interpret_gAst depth p ignoreProcessed handleIgnored ast a = Done a' ->
         let leaf := interpret_leaf p handleIgnored in
         exists tokens,
           interpret_leaves depth p ignoreProcessed ast (a_utilities a)
           = Done (tokens, a_utilities a')
           /\ ofold leaf tokens a = Done a'
           /\ (forall c variants selector important,
                  LStyle c variants selector important ∈ tokens ->
                  excluded p selector = true -> selector ∈ a_ignored a')
           /\ exists b, ofold leaf (without_excluded p tokens) a = Done b
                        /\ a_success a' = a_success b /\ a_sheet a' = a_sheet b)
  /\ (forall classNames prefix showComment ignoreGenerated outputClassName r p',
         compile p classNames prefix showComment ignoreGenerated handleIgnored
                 outputClassName = Done (r, p') ->
         ignoreGenerated
         && bool_decide (compile_className classNames prefix outputClassName
                           ∈ cache_classes (_cache p)) = false ->
         exists a',
           ofold (compile_step p showComment handleIgnored
                               ("." +:+ compile_className classNames prefix outputClassName))
                 (parse classNames (Some (config_separator p)) (cache_variants (_cache p)))
                 (mkAcc (cache_utilities (_cache p)) [] [] new_StyleSheet) = Done a'
           /\ cr_success r = a_success a'
           /\ cr_ignored r = a_ignored a'
           /\ cr_styleSheet r
              = sheet_combine (sheet_sortby_sortGroup (apply_prefixer p (a_sheet a'))))
  /\ (forall depth classNames ignoreProcessed r p',
         interpret depth p classNames ignoreProcessed handleIgnored = Done (r, p') ->
         exists a',
           interpret_gAst depth p ignoreProcessed handleIgnored
                          (parse classNames (Some (config_separator p))
                                 (cache_variants (_cache p)))
                          (mkAcc (cache_utilities (_cache p)) [] [] new_StyleSheet) = Done a'
           /\ ir_success r = a_success a'
           /\ ir_ignored r = a_ignored a'
           /\ ir_styleSheet r = sheet_sort (apply_prefixer p (a_sheet a'))).
Proof.
  split; [|split; [|split; [|split; [|split]]]].
  - intros. apply interpret_gStyle_excluded. assumption.
  - intros. apply compile_gStyle_excluded. assumption.
  - intros showComment buildSelector ast a a' H. cbv zeta.
    rewrite compile_walk_leaves in H. split; [exact H|]. split.
    + eapply (leaves_excluded_ignored p); [apply compile_leaf_grows| |exact H].
      apply compile_leaf_excluded.
    + destruct (leaves_without_excluded p _ (compile_leaf_excluded _ _ _ _)
                  (compile_leaf_agnostic _ _ _ _) _ a a a' (same_but_ignored_refl a) H)
        as (b & Hb & _ & Hs & Hsh).
      exists b. auto.
  - intros depth ignoreProcessed ast a a' H. cbv zeta.
    destruct (interpret_gAst_leaves _ _ _ _ _ _ _ H) as (tokens & Ht & Hf).
    exists tokens. split; [exact Ht|]. split; [exact Hf|]. split.
    + eapply (leaves_excluded_ignored p); [apply interpret_leaf_grows| |exact Hf].
      apply interpret_leaf_excluded.
    + destruct (leaves_without_excluded p _ (interpret_leaf_excluded _ _)
                  (interpret_leaf_agnostic _ _) _ a a a' (same_but_ignored_refl a) Hf)
        as (b & Hb & _ & Hs & Hsh).
      exists b. auto.
  - intros classNames prefix showComment ignoreGenerated outputClassName r p' H Hc.
    destruct (compile_walked _ _ _ _ _ _ _ _ _ Hc H) as (a & Ha & Hs & Hi & Hsh & _).
    exists a. auto.
  - intros depth classNames ignoreProcessed r p' H. unfold interpret in H.
    apply obind_Done in H as (a & Ha & H). injection H as <- <-.
    exists a. simpl. auto.
Qed.

(** C2, as the code runs.  An alias token whose name the alias table only
    inherits, [*constructor] for one, is a token [interpret] has no use for:
    the test of lines 420 and 450 holds for it all the same, the value read
    is no list of elements, and the call raises a TypeError where the token
    should have gone to [ignored]. *)
Theorem interpret_inherited_alias_raises (depth : nat) (p : Processor) (classNames : string)
        (ignoreProcessed : bool) (handleIgnored : HandleIgnored)
        (raw name : string) (variants : list string) (important : bool)
        (rest : list Element) :
  parse classNames (Some (config_separator p)) (cache_variants (_cache p))
  = mkElement raw variants (CString name) TAlias important :: rest ->
  inherited name = true ->
  pl_alias (_plugin p) !! name = None ->
  ignoreProcessed && bool_decide (raw ∈ cache_utilities (_cache p)) = false ->
  interpret depth p classNames ignoreProcessed handleIgnored
  = Throw "TypeError: forEach is not a function".
Proof.
  intros Hparse Hin Hown Hskip. unfold interpret. rewrite Hparse, interpret_gAst_fold.
  simpl ofold. unfold interpret_gAst_step at 1. simpl. rewrite Hskip.
  unfold alias_body. simpl. rewrite Hown, Hin. reflexivity.
Qed.

(** ** Configuration resolution *)

Lemma assoc_get_set {V : Type} (k k0 : string) (v : V) (l : list (string * V)) :
  assoc_get k (assoc_set k0 v l) = if String.eqb k k0 then Some v else assoc_get k l.
Proof.
  induction l as [|[k' v'] l IH]; simpl.
  - reflexivity.
  - destruct (String.eqb k0 k') eqn:E0; simpl.
    + apply String.eqb_eq in E0. subst k'. destruct (String.eqb k k0); reflexivity.
    + destruct (String.eqb k k') eqn:E1.
      * apply String.eqb_eq in E1. subst k'. rewrite String.eqb_sym, E0. reflexivity.
      * exact IH.
Qed.

(** A loop of [_resolveFunction] writes under the keys of the functions of
    its snapshot only. *)
Lemma resolve_entries_other (view : ThemeDict -> option ThemeDict)
      (snapshot : list (string * TV)) (k : string) :
  (forall g, ~ In (k, TVFun g) snapshot) ->
  forall theme,
    assoc_get k (resolve_entries view assoc_set snapshot theme) = assoc_get k theme.
Proof.
  unfold resolve_entries.
  induction snapshot as [|[k0 v0] snapshot IH]; intros Hno theme; simpl; [reflexivity|].
  assert (forall g, ~ In (k, TVFun g) snapshot) as Hno'.
  { intros g Hg. apply (Hno g). right. exact Hg. }
  destruct v0 as [| | | | | |f0]; try apply (IH Hno').
  rewrite (IH Hno'), assoc_get_set.
  destruct (String.eqb k k0) eqn:E; [|reflexivity].
  apply String.eqb_eq in E. subst k0. destruct (Hno f0). left. reflexivity.
Qed.

Lemma assign_extend_get (k k0 : string) (r : TV) (theme : ThemeDict) :
  assoc_get k (assign_extend k0 r theme) =
  if String.eqb k "extend"
  then Some (TVObj (assoc_set k0 r (tv_entries (tv_get "extend" theme))))
  else assoc_get k theme.
Proof. unfold assign_extend. apply assoc_get_set. Qed.

(** The second loop writes under [extend] only. *)
Lemma resolve_entries_extend (view : ThemeDict -> option ThemeDict)
      (snapshot : list (string * TV)) (k : string) :
  k <> "extend"%string ->
  forall theme,
    assoc_get k (resolve_entries view assign_extend snapshot theme) = assoc_get k theme.
Proof.
  intros Hk. unfold resolve_entries.
  induction snapshot as [|[k0 v0] snapshot IH]; intros theme; simpl; [reflexivity|].
  destruct v0 as [| | | | | |f0]; try apply IH.
  rewrite IH, assign_extend_get.
  destruct (String.eqb k "extend") eqn:E; [|reflexivity].
  apply String.eqb_eq in E. destruct (Hk E).
Qed.

(** The first loop, entry by entry: the function under a key is called
    with the theme in which the entries before it are resolved, and what
    the call returns stands under the key from then on. *)
Lemma resolve_entries_called (view : ThemeDict -> option ThemeDict)
      (pre post : list (string * TV)) (k : string) (f : Fn) (theme : ThemeDict) :
  (forall g, ~ In (k, TVFun g) post) ->
  assoc_get k (resolve_entries view assoc_set (pre ++ (k, TVFun f) :: post) theme)
  = Some (call_fn (view (resolve_entries view assoc_set pre theme)) f).
Proof.
  intros Hno.
  change (resolve_entries view assoc_set (pre ++ (k, TVFun f) :: post) theme)
    with (fold_left (fun theme kv =>
                       match snd kv with
                       | TVFun value => assoc_set (fst kv) (call_fn (view theme) value) theme
                       | _ => theme
                       end) (pre ++ (k, TVFun f) :: post) theme).
  rewrite fold_left_app.
  change (assoc_get k (resolve_entries view assoc_set post
                         (assoc_set k (call_fn (view (resolve_entries view assoc_set pre theme))
                                               f)
                                    (resolve_entries view assoc_set pre theme)))
          = Some (call_fn (view (resolve_entries view assoc_set pre theme)) f)).
  rewrite (resolve_entries_other view post k Hno), assoc_get_set, String.eqb_refl.
  reflexivity.
Qed.

Lemma _resolveFunction_entries (live : bool) (p : Processor) (config : Config)
      (theme0 theme : ThemeDict) (k : string) :
  c_theme config = Some theme0 ->
  c_theme (_resolveFunction live p config) = Some theme ->
  k <> "extend"%string ->
  assoc_get k theme
  = assoc_get k (resolve_entries (fun theme => if live then Some theme else _theme p)
                                 assoc_set theme0 theme0).
Proof.
  intros H0 H Hk. unfold _resolveFunction in H. rewrite H0 in H.
  destruct (if assoc_has "extend" theme0
            then tv_nullish (tv_get "extend" theme0) (TVObj []) else TVObj [])
    as [| | | | |es|g];
    simpl in H; injection H as <-; try reflexivity.
  apply resolve_entries_extend, Hk.
Qed.

Lemma _addPluginCache_frame (p : Processor) (type : AddPluginType) (key : string)
      (styles : list Style) (p' : Processor) :
  _addPluginCache p type key styles = Done p' -> same_but_plugin p p'.
Proof.
  unfold _addPluginCache. intros H.
  destruct (plugin_cache type (_plugin p) !! key);
    [|destruct (inherited key); [discriminate|]];
    injection H as <-; repeat split.
Qed.

Lemma addBase_frame (baseStyles : list (string * TV)) :
  forall p p', addBase p baseStyles = Done p' -> same_but_plugin p p'.
Proof.
  unfold addBase. intros p p'.
  apply (ofold_Done_inv same_but_plugin).
  - intros s. repeat split.
  - intros s1 s2 s3 (A1 & A2 & A3 & A4) (B1 & B2 & B3 & B4).
    repeat split; congruence.
  - apply Forall_forall. intros kv _ s s' H.
    apply obind_Done in H as (styles & _ & H).
    eapply _addPluginCache_frame, H.
Qed.

Lemma _loadVariables_frame (p p' : Processor) :
  _loadVariables p = Done p' -> same_but_plugin p p'.
Proof.
  unfold _loadVariables. destruct (tv_truthy _).
  - apply addBase_frame.
  - intros H. injection H as <-. repeat split.
Qed.

(** The state [resolveConfig] returns, in terms of the state [q] the plugins
    have left at line 242. *)
Lemma resolveConfig_inv (fuel : nat) (p p' : Processor) (config : option Config)
      (presets : Config) :
  resolveConfig fuel p config presets = Done p' ->
  exists q,
    _config p' = _resolveFunction true q (_config q)
    /\ _theme p' = c_theme (_config p')
    /\ _variants p' = spread_map (_variants q) (resolveVariants p' None)
    /\ cache_variants (_cache p') = (fst <$> map_to_list (_variants p')).
Proof.
  unfold resolveConfig. intros H.
  apply obind_Done in H as (resolved & _ & H).
  apply obind_Done in H as (q & _ & H).
  apply obind_Done in H as (p1 & Hload & H).
  apply _loadVariables_frame in Hload as (L1 & L2 & L3 & L4). simpl in L1, L2, L3, L4.
  exists q.
  assert (_config p' = _config p1 /\ _theme p' = _theme p1
          /\ _variants p' = _variants p1 /\ _cache p' = _cache p1) as (E1 & E2 & E3 & E4).
  { destruct (c_corePlugins (_config p1)); injection H as <-; simpl; auto. }
  unfold resolveVariants. rewrite E1, E2, E3, E4, L1, L2, L3, L4. simpl. auto.
Qed.

(** C4, as the code has it.  In the variant table [resolveConfig] leaves,
    every name the built-in resolver produces for the resolved
    configuration maps to the built-in style, also when a plugin has
    registered the name: line 243 spreads the built-in table last.  The
    registration of a plugin is in force while the plugins load
    ([addVariant] binds the name to the style of its generator), and the
    names the parser is given are the keys of the table. *)
Theorem builtin_variants_win (fuel : nat) (p p' : Processor) (config : option Config)
        (presets : Config) :
  resolveConfig fuel p config presets = Done p' ->
  (forall name st,
      resolveVariants p' None !! name = Some st -> _variants p' !! name = Some st)
  /\ (forall name, name ∈ cache_variants (_cache p') <-> is_Some (_variants p' !! name))
  /\ (forall q name generator,
         _variants (addVariant q name generator) !! name
         = Some (generator (config_separator q))).
Proof.
  intros H. apply resolveConfig_inv in H as (q & _ & _ & Hv & Hc).
  split; [|split].
  - intros name st Hb. rewrite Hv. unfold spread_map.
    apply lookup_union_Some_l. exact Hb.
  - intros name. rewrite Hc. rewrite list_elem_of_fmap. split.
    + intros ([k st] & -> & Hin). apply elem_of_map_to_list in Hin. simpl. eauto.
    + intros [st Hst]. exists (name, st). split; [reflexivity|].
      apply elem_of_map_to_list. exact Hst.
  - intros q0 name generator. unfold addVariant. simpl. apply lookup_insert_eq.
Qed.

(** C6, as the code has it.  The theme [resolveConfig] leaves is the theme
    of the resolved configuration, and that configuration has gone through
    [_resolveFunction].  There, every function that stands under a
    top-level key other than [extend] is called once, with the accessor
    reading the theme in which the entries before it are resolved, and what
    the call returns stands under the key afterwards, be it a function or
    not; a key under which no function stands holds what it held, with the
    functions nested in it. *)
Theorem top_level_theme_functions_called (fuel : nat) (p p' : Processor)
        (config : option Config) (presets : Config) :
  resolveConfig fuel p config presets = Done p' ->
  _theme p' = c_theme (_config p')
  /\ (exists q, _config p' = _resolveFunction true q (_config q))
  /\ (forall live q c theme0 theme,
         c_theme c = Some theme0 ->
         c_theme (_resolveFunction live q c) = Some theme ->
         let view := fun theme => if live then Some theme else _theme q in
         (forall pre k f post,
             theme0 = pre ++ (k, TVFun f) :: post ->
             (forall g, ~ In (k, TVFun g) post) ->
             k <> "extend"%string ->
             assoc_get k theme
             = Some (call_fn (view (resolve_entries view assoc_set pre theme0)) f))
         /\ (forall k,
                (forall g, ~ In (k, TVFun g) theme0) ->
                k <> "extend"%string ->
                assoc_get k theme = assoc_get k theme0)).
Proof.
  intros H. apply resolveConfig_inv in H as (q & Hcfg & Hth & _ & _).
  split; [exact Hth|]. split; [exists q; exact Hcfg|].
  intros live q0 c theme0 theme H0 H1 view. split.
  - intros pre k f post Hsplit Hno Hk.
    rewrite (_resolveFunction_entries live q0 c theme0 theme k H0 H1 Hk).
    fold view. rewrite Hsplit at 1. apply resolve_entries_called, Hno.
  - intros k Hno Hk.
    rewrite (_resolveFunction_entries live q0 c theme0 theme k H0 H1 Hk).
    apply resolve_entries_other, Hno.
Qed.

End Properties.

(** * The properties at the sample instance *)
Module SampleChecks.
Import Sample.



(** After the two registrations the key holds the chained closure; both
    generators accept ["card"], and yet a call of the stored generator on
    ["card"] does not return. *)
Lemma addDynamic_twice_never_returns_witness :
  pl_dynamic (_plugin p_twice) !! "card"%string = Some chained
  /\ old_gen "card"%string false = Some (padded "1rem")
  /\ new_gen "card"%string false = Some (padded "2rem")
  /\ call_dynamic 1000 p_twice chained "card"%string = OutOfFuel.
Proof.
  destruct (addDynamic_twice_never_returns p0 "card"%string old_gen new_gen None None
              "card"%string 1000%nat) as [Hk Hcall].
  split; [exact Hk|]. split; [reflexivity|]. split; [reflexivity|exact Hcall].
Defined.


(** The second call returns an empty [success] and a class name that is not
    undefined. *)
Lemma cached_call_names_class :
  compile (snd first_call) classes0 default_prefix false true None None = Done second_call
  /\ cr_success (fst second_call) = []
  /\ cr_className (fst second_call) = Some "windi-37"%string
  /\ cr_className (fst second_call) <> None.
Proof.
  split; [vm_compute; reflexivity|]. split; [reflexivity|]. split; [reflexivity|discriminate].
Qed.

Lemma compile_className_undefined_witness :
  cr_success (fst nothing_call) = []
  /\ cr_ignored (fst nothing_call) = ["nope"; "hidden"]%string
  /\ cr_className (fst nothing_call) = None
  /\ snd nothing_call = p0
  /\ cache_classes (_cache (snd first_call))
     = cache_classes (_cache p0) ++ ["windi-37"%string].
Proof.
  pose proof (compile_className_undefined p0 (snd nothing_call) "nope hidden" default_prefix
                false true None None (fst nothing_call)) as H.
  pose proof (compile_className_undefined p0 (snd first_call) classes0 default_prefix
                false true None None (fst first_call)) as H'.
  cbv zeta in H, H'.
  destruct H as (H1 & _); [vm_compute; reflexivity|].
  destruct H' as (_ & [H2|(_ & _ & H2)]); [vm_compute; reflexivity|discriminate|].
  destruct (H1 eq_refl) as (H1' & _). destruct (H1' eq_refl) as (Hn & Hp).
  split; [reflexivity|]. split; [reflexivity|]. split; [exact Hn|]. split; [exact Hp|exact H2].
Defined.

Lemma ast0_parsed :
  parse classes0 (Some (config_separator p0)) (cache_variants (_cache p0)) = ast0.
Proof. vm_compute. reflexivity. Qed.

(** The token [hidden] of the class string matches [exclude], and the
    calls return without it in [ignored]: [compile] with [ignoreGenerated]
    once the name is emitted, and [interpret] with [ignoreProcessed] once
    the token is recorded. *)
Lemma skipped_token_not_ignored :
  utility "hidden" ∈ parse classes0 (Some (config_separator p0)) (cache_variants (_cache p0))
  /\ excluded p0 "hidden" = true
  /\ compile (snd first_call) classes0 default_prefix false true None None = Done second_call
  /\ cr_ignored (fst second_call) = []
  /\ (exists r p',
         interpret 2 (snd SampleMore.interpreted_once) classes0 true None = Done (r, p')
         /\ ir_ignored r = []).
Proof.
  split; [rewrite ast0_parsed; apply list_elem_of_In; simpl; auto 10|].
  split; [reflexivity|]. split; [vm_compute; reflexivity|]. split; [reflexivity|].
  eexists _, _. split; vm_compute; reflexivity.
Qed.

(** [p-2] is a utility [extract] knows, and [sm:p-2] matches [exclude]: in
    the group [sm:(p-2 bg-red)] the token goes to [ignored], and [success]
    and the style sheet are those of [sm:bg-red] alone, in [compile] and in
    [interpret]; the token [hidden] of the class string is in the [ignored]
    list of the two calls. *)
Lemma exclude_precedence_witness :
  excluded p0 "sm:p-2" = true
  /\ extract p0 "p-2" false None = Done (Some (padded "0.5rem"))
  /\ (forall a : Acc,
         interpret_gStyle p0 None "p-2" ["sm"%string] "sm:p-2" false None a
         = Done (mkAcc (a_utilities a) (a_success a)
                       (a_ignored a ++ ["sm:p-2"%string]) (a_sheet a)))
  /\ (exists a' b,
         ofold (compile_step p0 false None ".c") group0 acc0 = Done a'
         /\ a_ignored a' = ["sm:p-2"%string]
         /\ "sm:p-2"%string ∈ a_ignored a'
         /\ ofold (compile_leaf p0 false None ".c")
                  [LStyle "bg-red" ["sm"%string] "sm:bg-red" false] acc0 = Done b
         /\ a_success a' = a_success b /\ a_sheet a' = a_sheet b)
  /\ (exists a' b,
         interpret_gAst 2 p0 false None group0 acc0 = Done a'
         /\ a_ignored a' = ["sm:p-2"%string]
         /\ "sm:p-2"%string ∈ a_ignored a'
         /\ ofold (interpret_leaf p0 None)
                  [LStyle "bg-red" ["sm"%string] "sm:bg-red" false] acc0 = Done b
         /\ a_success a' = a_success b /\ a_sheet a' = a_sheet b)
  /\ "hidden"%string ∈ ir_ignored (fst interpreted)
  /\ "hidden"%string ∈ cr_ignored (fst first_call).
Proof.
  destruct (exclude_precedence p0 None) as (Hi & _ & Hc & Hg & Hcall & Hicall).
  split; [reflexivity|]. split; [reflexivity|].
  split; [intros a; apply Hi; reflexivity|]. split; [|split; [|split]].
  - destruct (ofold (compile_step p0 false None ".c") group0 acc0) as [a'| |] eqn:Hrun;
      [|discriminate Hrun..].
    destruct (Hc false ".c"%string group0 acc0 a' Hrun) as (_ & Hex & b & Hb & Hs & Hsh).
    exists a', b. split; [reflexivity|].
    split; [vm_compute in Hrun; injection Hrun as <-; reflexivity|].
    split; [apply (Hex "p-2"%string ["sm"%string] "sm:p-2"%string false);
            [apply list_elem_of_In; simpl; auto|reflexivity]|].
    split; [exact Hb|]. split; [exact Hs|exact Hsh].
  - destruct (interpret_gAst 2 p0 false None group0 acc0) as [a'| |] eqn:Hrun;
      [|discriminate Hrun..].
    destruct (Hg 2%nat false group0 acc0 a' Hrun)
      as (tokens & Ht & _ & Hex & b & Hb & Hs & Hsh).
    vm_compute in Ht. injection Ht as <-.
    exists a', b. split; [reflexivity|].
    split; [vm_compute in Hrun; injection Hrun as <-; reflexivity|].
    split; [apply (Hex "p-2"%string ["sm"%string] "sm:p-2"%string false);
            [apply list_elem_of_In; simpl; auto|reflexivity]|].
    split; [exact Hb|]. split; [exact Hs|exact Hsh].
  - destruct (Hicall 2%nat classes0 false (fst interpreted) (snd interpreted))
      as (a' & Hrun & _ & -> & _); [vm_compute; reflexivity|].
    destruct (Hg 2%nat false _ _ a' Hrun) as (tokens & Ht & _ & Hex & _).
    vm_compute in Ht. injection Ht as <-.
    apply (Hex "hidden"%string [] "hidden"%string false);
      [apply list_elem_of_In; simpl; auto 20|reflexivity].
  - destruct (Hcall classes0 default_prefix false true None (fst first_call) (snd first_call))
      as (a' & Hrun & _ & -> & _); [vm_compute; reflexivity|reflexivity|].
    destruct (Hc false _ _ _ a' Hrun) as (_ & Hex & _).
    apply (Hex "hidden"%string [] "hidden"%string false);
      [rewrite ast0_parsed; apply list_elem_of_In; simpl; auto 20|reflexivity].
Defined.

(** [*constructor] names no alias of the sample processor: [interpret]
    raises on it, where [compile] returns with the token in [ignored]. *)
Lemma interpret_inherited_alias_raises_witness :
  interpret 2 p0 "*constructor" false None = Throw "TypeError: forEach is not a function"
  /\ (exists r p',
         compile p0 "*constructor" default_prefix false false None None = Done (r, p')
         /\ cr_ignored r = ["*constructor"%string]).
Proof.
  split.
  - apply (interpret_inherited_alias_raises 2 p0 "*constructor" false None
             "*constructor" "constructor" [] false []); reflexivity.
  - eexists _, _. split; vm_compute; reflexivity.
Defined.

(** The plugin registers [hover], which the built-in resolver produces
    too; once the configuration is resolved the table holds the built-in
    style under [hover], not the style of the plugin. *)
Lemma plugin_variant_overridden :
  resolveConfig 1 initial_state (Some config_plugin) empty_config = Done resolved_plugin
  /\ _variants (loadPlugin initial_state hover_plugin) !! "hover"%string = Some custom_hover
  /\ resolveVariants resolved_plugin None !! "hover"%string = Some hover_style
  /\ _variants resolved_plugin !! "hover"%string = Some hover_style
  /\ hover_style <> custom_hover.
Proof.
  split; [vm_compute; reflexivity|]. split; [vm_compute; reflexivity|].
  split; [vm_compute; reflexivity|]. split; [vm_compute; reflexivity|discriminate].
Qed.

Lemma builtin_variants_win_witness :
  _variants resolved_plugin !! "hover"%string = Some hover_style
  /\ "print"%string ∈ cache_variants (_cache resolved_plugin)
  /\ _variants resolved_plugin !! "print"%string = Some print_style.
Proof.
  destruct (builtin_variants_win 1%nat initial_state resolved_plugin (Some config_plugin)
              empty_config) as (Hb & Hc & _).
  - vm_compute. reflexivity.
  - split; [apply Hb; vm_compute; reflexivity|].
    split; [apply Hc; eexists; vm_compute; reflexivity|vm_compute; reflexivity].
Defined.

(** The function under [colors.primary] is still a function when the
    configuration is resolved; and so is, at the top level, what the
    function under [gap] has read under [spacing], where a function stood
    that the loop had not reached. *)
Lemma theme_functions_remain :
  resolveConfig 1 initial_state (Some config_theme) empty_config = Done resolved_theme
  /\ _theme resolved_theme = Some theme_after
  /\ tv_get "primary" (tv_entries (tv_get "colors" theme_after)) = TVFun accent
  /\ tv_has_fun (TVObj theme_after) = true
  /\ resolveConfig 1 initial_state (Some config_forward) empty_config = Done resolved_forward
  /\ _theme resolved_forward = Some forward_after
  /\ tv_get "gap" forward_after = TVFun scale
  /\ tv_has_fun (TVObj forward_after) = true.
Proof. repeat split; vm_compute; reflexivity. Qed.

(** In the first configuration, [accent] and [gap] hold what their
    functions have returned and [colors] is left as it was; in the second,
    [gap] holds the function it has read and [spacing] the scale. *)
Lemma top_level_theme_functions_called_witness :
  _theme resolved_theme = c_theme (_config resolved_theme)
  /\ assoc_get "accent" theme_after = Some (TVStr "#1c1c1e")
  /\ assoc_get "gap" theme_after = Some (TVObj [("2"%string, TVStr "0.5rem")])
  /\ assoc_get "colors" theme_after = Some (TVObj [("primary"%string, TVFun accent)])
  /\ assoc_get "gap" forward_after = Some (TVFun scale)
  /\ assoc_get "spacing" forward_after = Some (TVObj [("2"%string, TVStr "0.5rem")]).
Proof.
  destruct (top_level_theme_functions_called 1%nat initial_state resolved_theme
              (Some config_theme) empty_config) as (Ha & _ & Hcalls);
    [vm_compute; reflexivity|].
  destruct (Hcalls true initial_state config_theme
                   (default [] (c_theme config_theme)) theme_after eq_refl eq_refl)
    as (Hfun & Hother).
  destruct (Hcalls true initial_state config_forward
                   (default [] (c_theme config_forward)) forward_after eq_refl eq_refl)
    as (Hfun' & _).
  split; [exact Ha|]. split; [|split; [|split; [|split]]].
  - apply (Hfun [("colors"%string, TVObj [("primary"%string, TVFun accent)])]
                "accent"%string accent
                [("spacing"%string, TVObj [("2"%string, TVStr "0.5rem")]);
                 ("gap"%string, TVFun copy_spacing)] eq_refl);
      [intros g [H|[H|[]]]; discriminate H|discriminate].
  - apply (Hfun [("colors"%string, TVObj [("primary"%string, TVFun accent)]);
                 ("accent"%string, TVFun accent);
                 ("spacing"%string, TVObj [("2"%string, TVStr "0.5rem")])]
                "gap"%string copy_spacing [] eq_refl);
      [intros g []|discriminate].
  - apply (Hother "colors"%string); [|discriminate].
    intros g [H|[H|[H|[H|[]]]]]; discriminate H.
  - apply (Hfun' [] "gap"%string read_spacing [("spacing"%string, TVFun scale)] eq_refl);
      [intros g [H|[]]; discriminate H|discriminate].
  - apply (Hfun' [("gap"%string, TVFun read_spacing)] "spacing"%string scale [] eq_refl);
      [intros g []|discriminate].
Defined.

End SampleChecks.

(** * Properties of the rest of the class *)

#[local] Arguments String.append : simpl nomatch.

Lemma includes_false (l : list string) (x : string) : x ∉ l -> includes l x = false.
Proof.
  intros Hx. unfold includes. induction l as [|y l IH]; simpl; [reflexivity|].
  apply not_elem_of_cons in Hx as [Hxy Hl].
  rewrite (proj2 (String.eqb_neq x y) Hxy). simpl. apply IH, Hl.
Qed.

Lemma attr_special_other (last utility : string) :
  last ∉ special_keys -> attr_special last utility = utility.
Proof.
  intros Hk. unfold special_keys in Hk.
  repeat (apply not_elem_of_cons in Hk as [?%String.eqb_neq Hk]).
  unfold attr_special.
  repeat match goal with H : (last =? _)%string = false |- _ => rewrite H; clear H end.
  reflexivity.
Qed.

Lemma attr_join_other (last utility : string) :
  last ∉ special_keys ->
  attr_join last utility
  = if startsWith utility "-" then "-" +:+ last +:+ "-" +:+ js_slice 1 utility
    else last +:+ "-" +:+ utility.
Proof.
  intros Hk. unfold attr_join.
  assert (includes ["m"; "p"]%string last = false) as ->.
  { apply includes_false. intros Hin. apply Hk. unfold special_keys.
    apply list_elem_of_In. apply list_elem_of_In in Hin. simpl in *. intuition. }
  cbn [andb].
  destruct utility as [|c u]; [reflexivity|].
  destruct (Ascii.eqb_spec c "-") as [->|Hc]; [reflexivity|].
  assert ((String c EmptyString =? "-")%string = false) as E.
  { apply String.eqb_neq. congruence. }
  change (charAt0 (String c u)) with (String c EmptyString). rewrite E.
  change (startsWith (String c u) "-") with (Ascii.eqb "-" c && true).
  rewrite (proj2 (Ascii.eqb_neq "-" c)) by congruence. reflexivity.
Qed.

Lemma expand_replacement_plain (before after r : string) :
  free_of "$" r -> expand_replacement before after r = r.
Proof.
  unfold free_of. induction r as [|a r IH]; simpl; [reflexivity|].
  intros [Ha Hr]%andb_true_iff. apply negb_true_iff in Ha. rewrite Ha, (IH Hr). reflexivity.
Qed.

Lemma split_at_word_app (before : string) (c : ascii) (rest : string) :
  all_chars (fun x => negb (is_word x)) before = true -> is_word c = true ->
  split_at_word (before +:+ String c rest) = Some (before, String c rest).
Proof.
  intros Hb Hc. induction before as [|a before IH]; simpl.
  - rewrite Hc. reflexivity.
  - simpl in Hb. apply andb_true_iff in Hb as [Ha Hb]. apply negb_true_iff in Ha.
    rewrite Ha, (IH Hb). reflexivity.
Qed.

Lemma split_at_word_none (s : string) :
  all_chars (fun x => negb (is_word x)) s = true -> split_at_word s = None.
Proof.
  induction s as [|a s IH]; simpl; [reflexivity|].
  intros [Ha Hs]%andb_true_iff. apply negb_true_iff in Ha. rewrite Ha, (IH Hs). reflexivity.
Qed.

(** ** Ordered objects *)

Lemma assoc_get_None {V : Type} (k : string) (l : list (string * V)) :
  assoc_get k l = None <-> k ∉ l.*1.
Proof.
  induction l as [|[k' v'] l IH]; simpl.
  - split; [intros _; apply not_elem_of_nil|reflexivity].
  - destruct (String.eqb_spec k k') as [->|Hne].
    + split; [discriminate|]. intros H. destruct H. left.
    + rewrite IH. split.
      * intros H [E|E]%elem_of_cons; [congruence|exact (H E)].
      * intros H E. apply H. right. exact E.
Qed.

Lemma assoc_set_keys {V : Type} (k : string) (v : V) (l : list (string * V)) :
  (assoc_set k v l).*1 = if decide (k ∈ l.*1) then l.*1 else l.*1 ++ [k].
Proof.
  induction l as [|[k' v'] l IH].
  - destruct (decide (k ∈ ([] : list (string * V)).*1)) as [Hin|_]; [|reflexivity].
    apply elem_of_nil in Hin. destruct Hin.
  - cbn [assoc_set]. destruct (String.eqb_spec k k') as [->|Hne].
    + destruct (decide (k' ∈ ((k', v') :: l).*1)) as [_|Hnin]; [reflexivity|].
      destruct Hnin. left.
    + cbn [fmap list_fmap fst]. rewrite IH.
      destruct (decide (k ∈ l.*1)) as [Hin|Hnin];
        destruct (decide (k ∈ k' :: l.*1)) as [Hin'|Hnin']; try reflexivity.
      * destruct Hnin'. right. exact Hin.
      * apply elem_of_cons in Hin' as [E|E]; [congruence|destruct (Hnin E)].
Qed.

Lemma assoc_set_NoDup {V : Type} (k : string) (v : V) (l : list (string * V)) :
  NoDup l.*1 -> NoDup (assoc_set k v l).*1.
Proof.
  intros Hnd. rewrite assoc_set_keys. destruct (decide (k ∈ l.*1)) as [Hin|Hnin]; [exact Hnd|].
  apply NoDup_app. split; [exact Hnd|]. split; [|apply NoDup_singleton].
  intros x Hx [->|E]%elem_of_cons; [exact (Hnin Hx)|]. apply elem_of_nil in E. exact E.
Qed.

Lemma assoc_del_absent {V : Type} (k : string) (l : list (string * V)) :
  assoc_has k l = false -> assoc_del k l = l.
Proof.
  unfold assoc_has. induction l as [|[k' v'] l IH]; simpl; [reflexivity|].
  destruct (String.eqb k k'); [discriminate|]. intros H. rewrite (IH H). reflexivity.
Qed.

Lemma assoc_get_del {V : Type} (k d : string) (l : list (string * V)) :
  k <> d -> assoc_get k (assoc_del d l) = assoc_get k l.
Proof.
  intros Hne. induction l as [|[k' v'] l IH]; simpl; [reflexivity|].
  destruct (String.eqb_spec d k') as [->|Hd].
  - rewrite (proj2 (String.eqb_neq k k')) by exact Hne. reflexivity.
  - simpl. rewrite IH. reflexivity.
Qed.

Lemma assoc_del_keys {V : Type} (d : string) (l : list (string * V)) :
  NoDup l.*1 -> NoDup (assoc_del d l).*1 /\ forall x, x ∈ (assoc_del d l).*1 -> x ∈ l.*1.
Proof.
  induction l as [|[k' v'] l IH]; simpl; intros Hnd; [split; [exact Hnd|auto]|].
  apply NoDup_cons in Hnd as [Hk Hnd]. destruct (IH Hnd) as [IH1 IH2].
  destruct (String.eqb d k'); simpl.
  - split; [exact Hnd|]. intros x Hx. right. exact Hx.
  - split.
    + apply NoDup_cons. split; [|exact IH1]. intros E. apply Hk, IH2, E.
    + intros x [->|E]%elem_of_cons; [left|right; apply IH2, E].
Qed.

(** Writing the entries of an object with distinct keys one after the
    other: a key of the object reads as its entry, any other key as
    before. *)
Lemma assoc_get_fold_set {V W : Type} (g : W -> V) (l : list (string * W)) (k : string) :
  NoDup l.*1 ->
  forall th : list (string * V),
    assoc_get k (fold_left (fun th kv => assoc_set (fst kv) (g (snd kv)) th) l th)
    = match assoc_get k l with
      | Some v => Some (g v)
      | None => assoc_get k th
      end.
Proof.
  induction l as [|[k' v'] l IH]; simpl; intros Hnd th; [reflexivity|].
  apply NoDup_cons in Hnd as [Hk Hnd]. rewrite (IH Hnd).
  destruct (String.eqb_spec k k') as [->|Hne].
  - rewrite (proj2 (assoc_get_None k' l) Hk), assoc_get_set, String.eqb_refl. reflexivity.
  - destruct (assoc_get k l); [reflexivity|].
    rewrite assoc_get_set, (proj2 (String.eqb_neq k k') Hne). reflexivity.
Qed.

Lemma fold_set_NoDup {V W : Type} (g : W -> V) (l : list (string * W)) :
  forall th : list (string * V),
    NoDup th.*1 ->
    NoDup (fold_left (fun th kv => assoc_set (fst kv) (g (snd kv)) th) l th).*1.
Proof.
  induction l as [|kv l IH]; simpl; intros th Hnd; [exact Hnd|].
  apply IH, assoc_set_NoDup, Hnd.
Qed.

(** ** Loops that update a state in place *)

Lemma kept_fst {S : Type} (R : S -> S -> Prop) (s : S) (m : outcome S) :
  R s s -> (forall s', m = Done s' -> R s s') -> R s (fst (kept s m)).
Proof. intros Hrefl Hm. destruct m; simpl; auto. Qed.

Lemma kept_Done {S : Type} (s : S) (m : outcome S) :
  snd (kept s m) = Done tt -> m = Done (fst (kept s m)).
Proof. destruct m; simpl; [reflexivity|discriminate..]. Qed.

Lemma run_loop_fst {S A : Type} (R : S -> S -> Prop) (f : S -> A -> S * outcome unit)
      (l : list A) :
  (forall s, R s s) ->
  (forall s1 s2 s3, R s1 s2 -> R s2 s3 -> R s1 s3) ->
  (forall s a, R s (fst (f s a))) ->
  forall s, R s (fst (run_loop f l s)).
Proof.
  intros Hrefl Htrans Hf. induction l as [|a l IH]; intros s; simpl; [apply Hrefl|].
  destruct (snd (f s a)); [|apply Hf..].
  eapply Htrans; [apply Hf|apply IH].
Qed.

Lemma and_then_fst {S : Type} (R : S -> S -> Prop) (s : S) (r : S * outcome unit)
      (k : S -> S * outcome unit) :
  (forall s1 s2 s3, R s1 s2 -> R s2 s3 -> R s1 s3) ->
  R s (fst r) -> R (fst r) (fst (k (fst r))) -> R s (fst (and_then r k)).
Proof.
  intros Htrans Hr Hk. unfold and_then. destruct (snd r); [|exact Hr..].
  eapply Htrans; [exact Hr|exact Hk].
Qed.

Lemma and_then_Done {S : Type} (r : S * outcome unit) (k : S -> S * outcome unit) :
  snd (and_then r k) = Done tt -> snd r = Done tt.
Proof. unfold and_then. destruct (snd r) as [[]| |] eqn:E; [reflexivity|congruence..]. Qed.


(** A run with a step that cannot return does not go through. *)
Lemma run_loop_stops {S A : Type} (I : S -> Prop) (f : S -> A -> S * outcome unit)
      (l : list A) (x : A) :
  x ∈ l ->
  (forall s a, I s -> snd (f s a) = Done tt -> I (fst (f s a))) ->
  (forall s, I s -> snd (f s x) <> Done tt) ->
  forall s, I s -> snd (run_loop f l s) <> Done tt.
Proof.
  intros Hin Hkeep Hx. induction l as [|a l IH]; [inversion Hin|].
  intros s Hs. simpl. apply elem_of_cons in Hin as [<-|Hin].
  - destruct (snd (f s x)) as [[]| |] eqn:E; [destruct (Hx s Hs E)|rewrite E; discriminate..].
  - destruct (snd (f s a)) as [[]| |] eqn:E; [|rewrite E; discriminate..].
    apply (IH Hin). apply Hkeep; assumption.
Qed.

(** A run that goes through has made every step. *)
Lemma run_loop_through {S A : Type} (R : S -> S -> Prop) (Q : A -> S -> Prop)
      (f : S -> A -> S * outcome unit) (l : list A) :
  (forall s a, snd (f s a) = Done tt -> Q a (fst (f s a))) ->
  (forall s a b, Q b s -> snd (f s a) = Done tt -> Q b (fst (f s a))) ->
  forall s, snd (run_loop f l s) = Done tt ->
            forall x, x ∈ l -> Q x (fst (run_loop f l s)).
Proof.
  intros Hmade Hkept. induction l as [|a l IH]; intros s Hrun x Hin; [inversion Hin|].
  simpl in *. destruct (snd (f s a)) as [[]| |] eqn:E; try congruence.
  apply elem_of_cons in Hin as [->|Hin]; [|apply IH; assumption].
  clear IH. pose proof (Hmade s a E) as Hq. revert Hq Hrun.
  generalize (fst (f s a)). clear E. induction l as [|b l IHl]; intros t Hq Hrun; [exact Hq|].
  simpl in *. destruct (snd (f t b)) as [[]| |] eqn:E; try congruence.
  apply IHl; [|exact Hrun]. apply Hkept; assumption.
Qed.

Section MoreProperties.
Context {types : Types} {imports : Imports} {more : MoreImports}.

(** ** [attributify] *)

Lemma attributify_calls (p : Processor) (attrs : list (string * AttrValue))
      (a : InterpretResult) :
  ofold (attributify_entry p) attrs a = ofold (attr_step p) (attr_calls attrs) a.
Proof.
  unfold attr_calls. rewrite ofold_flat_map. apply ofold_ext.
  intros s [key [v|l]]; unfold attributify_entry; simpl.
  - unfold attr_step. simpl. destruct (attributify_gStyle _ _ _ _ _); reflexivity.
  - rewrite ofold_map. reflexivity.
Qed.

Lemma attr_step_styled (p : Processor) (a : InterpretResult) (call : string * string * bool) :
  attr_variants_known p call -> attr_styled p call ->
  exists sheet,
    attr_step p a call
    = Done (mkInterpretResult (ir_success a ++ [attr_call_selector call]) (ir_ignored a) sheet).
Proof.
  destruct call as [[key value] equal].
  unfold attr_variants_known, attr_styled, attr_step, attributify_gStyle, attr_call_selector.
  simpl. intros Hk Hs.
  destruct (attr_split p key (attr_value value)) as [[vs u]|]; [|destruct Hs].
  destruct (extract p u false None) as [[st|]| |] eqn:E; try (destruct Hs; fail).
  simpl.
  match goal with
  | |- context [wrapWithVariants p vs ?o] =>
      destruct (wrapWithVariants_returns p vs o Hk) as [w ->]
  end.
  simpl. eauto.
Qed.

Lemma attr_step_unstyled (p : Processor) (a : InterpretResult)
      (call : string * string * bool) :
  attr_variants_known p call -> ~ attr_styled p call ->
  attr_step p a call
  = Done (mkInterpretResult (ir_success a) (ir_ignored a ++ [attr_call_selector call])
                            (ir_styleSheet a)).
Proof.
  destruct call as [[key value] equal].
  unfold attr_variants_known, attr_styled, attr_step, attributify_gStyle, attr_call_selector.
  simpl. intros Hk Hs.
  destruct (attr_split p key (attr_value value)) as [[vs u]|]; [|reflexivity].
  destruct (extract p u false None) as [[st|]| |] eqn:E;
    first [reflexivity|destruct Hs; exact I|destruct Hk].
Qed.

Lemma attr_fold_known (p : Processor) (calls : list (string * string * bool)) :
  Forall (attr_variants_known p) calls ->
  forall a, exists sheet,
    ofold (attr_step p) calls a
    = Done (mkInterpretResult
              (ir_success a ++ (attr_call_selector <$> filter (attr_styled p) calls))
              (ir_ignored a
               ++ (attr_call_selector <$> filter (fun c => ~ attr_styled p c) calls))
              sheet).
Proof.
  induction 1 as [|call calls Hc _ IH]; intros a.
  - exists (ir_styleSheet a). simpl. rewrite !app_nil_r. destruct a; reflexivity.
  - simpl. destruct (decide (attr_styled p call)) as [Hs|Hs].
    + destruct (attr_step_styled p a call Hc Hs) as [sheet ->]. simpl.
      destruct (IH (mkInterpretResult (ir_success a ++ [attr_call_selector call])
                                        (ir_ignored a) sheet)) as [sheet' ->].
      exists sheet'. simpl.
      rewrite (filter_cons_True _ _ _ Hs).
      rewrite (filter_cons_False (fun c => ~ attr_styled p c)) by (intros Hn; exact (Hn Hs)).
      rewrite fmap_cons, <- app_assoc. reflexivity.
    + rewrite (attr_step_unstyled p a call Hc Hs). simpl.
      destruct (IH (mkInterpretResult (ir_success a)
                                        (ir_ignored a ++ [attr_call_selector call])
                                        (ir_styleSheet a)))
        as [sheet' ->].
      exists sheet'. simpl.
      rewrite (filter_cons_False _ _ _ Hs).
      rewrite (filter_cons_True (fun c => ~ attr_styled p c)) by exact Hs.
      rewrite fmap_cons, <- app_assoc. reflexivity.
Qed.

(** X1.  When [extract] returns for every attribute that names a utility,
    and the variants of those it returns a style for are entries of the
    variant table, [attributify] returns, [success] lists the selectors of
    the attributes a style was found for, and [ignored] lists the selectors
    of all the others, both in the order of the attributes: every attribute
    value is reported once. *)
Theorem attributify_sorts_attributes (p : Processor) (attrs : list (string * AttrValue)) :
  Forall (attr_variants_known p) (attr_calls attrs) ->
  exists r,
    attributify p attrs = Done r
    /\ ir_success r = (attr_call_selector <$> filter (attr_styled p) (attr_calls attrs))
    /\ ir_ignored r
       = (attr_call_selector <$> filter (fun c => ~ attr_styled p c) (attr_calls attrs)).
Proof.
  intros Hk. unfold attributify. rewrite attributify_calls.
  destruct (attr_fold_known p _ Hk (mkInterpretResult [] [] new_StyleSheet)) as [sheet ->].
  simpl. eauto.
Qed.

(** The variants are fetched in turn: the first one that has no entry in
    the table and is not inherited ends the call, and so does an inherited
    one that cannot be called, with the same exception. *)
Lemma call_variants_raise (p : Processor) (variants : list string) (v : string) :
  v ∈ variants -> _variants p !! v = None -> inherited v = false ->
  omap (call_variant p) variants = Throw "TypeError: this._variants[i] is not a function".
Proof.
  intros Hin Hv Hi. induction variants as [|x variants IH]; [inversion Hin|].
  simpl. unfold call_variant at 1.
  destruct (decide (x = v)) as [->|Hne].
  - rewrite Hv, Hi. reflexivity.
  - apply elem_of_cons in Hin as [Hin|Hin]; [congruence|].
    fold (omap (call_variant p) variants). rewrite (IH Hin).
    destruct (_variants p !! x); [reflexivity|].
    destruct (inherited x && negb (raises_when_called x)); reflexivity.
Qed.

Lemma wrapWithVariants_raises (p : Processor) (variants : list string) (styles : Output)
      (v : string) :
  Exists (fun s => is_keyframes s = false) (toArray styles) ->
  v ∈ variants -> _variants p !! v = None -> inherited v = false ->
  wrapWithVariants p variants styles
  = Throw "TypeError: this._variants[i] is not a function".
Proof.
  intros Hex Hin Hv Hi. unfold wrapWithVariants.
  destruct variants as [|v0 vs]; [apply elem_of_nil in Hin; destruct Hin|].
  assert (omap (wrap_style p (v0 :: vs)) (toArray styles)
          = Throw "TypeError: this._variants[i] is not a function") as ->; [|reflexivity].
  induction Hex as [s l Hs|s l _ IH]; simpl.
  - unfold wrap_style at 1. rewrite Hs, (call_variants_raise _ _ _ Hin Hv Hi). reflexivity.
  - fold (omap (wrap_style p (v0 :: vs)) l). rewrite IH.
    unfold wrap_style. destruct (is_keyframes s); [reflexivity|].
    rewrite (call_variants_raise _ _ _ Hin Hv Hi). reflexivity.
Qed.

Lemma markAsImportant_kind (p : Processor) (style : Style) (force : BoolOrString) :
  (forall s sel, s_kind (parent s sel) = s_kind s) ->
  s_kind (markAsImportant p style force) = s_kind style.
Proof.
  intros Hparent. unfold markAsImportant.
  destruct (bs_truthy _); [|reflexivity].
  destruct (effective_important p force); [reflexivity|apply Hparent].
Qed.

Lemma ofold_not_done {S A : Type} (f : S -> A -> outcome S) (l : list A) :
  Exists (fun x => forall s s', f s x <> Done s') l ->
  forall s s', ofold f l s <> Done s'.
Proof.
  induction 1 as [x l Hx|x l _ IH]; intros s s' H; simpl in H;
    apply obind_Done in H as (s1 & H1 & H).
  - exact (Hx _ _ H1).
  - exact (IH _ _ H).
Qed.

(** X2.  An attribute that names a utility under a variant that the table
    neither holds nor inherits makes [attributify] raise: the key [data-p]
    with the value [2] stands for the utility [p-2] under the variant
    [data], and [wrapWithVariants] calls the missing generator.  No call
    with such an attribute returns a result, and the call raises the
    TypeError of the generator when the attribute is the first.  ([parent]
    returns its receiver, so it keeps the class of a style.) *)
Theorem attributify_unknown_variant_raises (p : Processor)
        (attrs : list (string * AttrValue)) (key value : string) (equal : bool)
        (variants : list string) (utility : string) (style : Output) (v : string) :
  (forall s sel, s_kind (parent s sel) = s_kind s) ->
  (key, value, equal) ∈ attr_calls attrs ->
  attr_split p key (attr_value value) = Some (variants, utility) ->
  extract p utility false None = Done (Some style) ->
  Exists (fun s => is_keyframes s = false) (toArray style) ->
  v ∈ variants -> _variants p !! v = None -> inherited v = false ->
  (forall r, attributify p attrs <> Done r)
  /\ (forall rest,
         attr_calls attrs = (key, value, equal) :: rest ->
         attributify p attrs = Throw "TypeError: this._variants[i] is not a function").
Proof.
  intros Hparent Hcall Hsplit Hextract Hstyle Hv Hnone Hinh.
  assert (forall a, attr_step p a (key, value, equal)
                    = Throw "TypeError: this._variants[i] is not a function") as Hstep.
  { intros a. unfold attr_step, attributify_gStyle. simpl. rewrite Hsplit, Hextract. simpl.
    match goal with
    | |- context [wrapWithVariants p variants ?o] =>
        rewrite (wrapWithVariants_raises p variants o v)
    end; [reflexivity| |exact Hv|exact Hnone|exact Hinh].
    destruct style as [st|l]; simpl in *.
    + apply Exists_cons in Hstyle as [Hst|Hnil]; [|apply Exists_nil in Hnil; destruct Hnil].
      constructor. unfold is_keyframes in *.
      rewrite (markAsImportant_kind _ _ _ Hparent). exact Hst.
    + clear Hextract. induction Hstyle as [s l Hs|s l _ IH]; simpl.
      * constructor. rewrite Hs. unfold is_keyframes in *.
        rewrite (markAsImportant_kind _ _ _ Hparent). exact Hs.
      * apply Exists_cons_tl. exact IH. }
  split.
  - intros r H. unfold attributify in H. rewrite attributify_calls in H.
    apply obind_Done in H as (a & Ha & _). revert Ha. apply ofold_not_done.
    apply Exists_exists. exists (key, value, equal). split; [exact Hcall|].
    intros s s'. rewrite Hstep. discriminate.
  - intros rest Hfirst. unfold attributify. rewrite attributify_calls, Hfirst.
    simpl. rewrite Hstep. reflexivity.
Qed.

Lemma in_variants_false (p : Processor) (id : string) :
  _variants p !! id = None -> inherited id = false -> in_variants p id = false.
Proof.
  intros Hv Hi. unfold in_variants, js_in. rewrite Hi, orb_false_r.
  apply bool_decide_eq_false. rewrite Hv. intros [x Hx]. discriminate.
Qed.

(** X3.  An attribute whose name is words joined by a separator, the last
    of which is neither a variant the table holds or inherits nor a key the
    method treats apart, stands for the utility [last word-value] under the
    earlier words of its name followed by the variants of its value; a [-]
    in front of the value moves in front of the utility. *)
Theorem attributify_names_utility (p : Processor) (sep : string) (ks : list string)
        (k : string) (vs : list string) (u : string) :
  separates is_word sep ->
  Forall (word_of is_word) ks -> word_of is_word k ->
  _variants p !! k = None ->
  inherited k = false ->
  k ∉ special_keys ->
  (forall m, last ks = Some m -> m <> "min"%string /\ m <> "max"%string) ->
  Forall (free_of ":") vs -> free_of ":" u ->
  attr_split p (js_join sep (ks ++ [k])) (js_join ":" (vs ++ [u]))
  = Some (ks ++ vs,
          if startsWith u "-" then "-" +:+ k +:+ "-" +:+ js_slice 1 u
          else k +:+ "-" +:+ u).
Proof.
  intros Hsep Hks Hk Hvar Hinh Hspecial Hminmax Hvs Hu.
  unfold attr_split.
  rewrite (word_suffix_join _ _ _ Hsep Hk), (in_variants_false p k Hvar Hinh).
  cbn [andb].
  rewrite (match_all_join is_word sep (ks ++ [k]) Hsep).
  2:{ apply Forall_app. split; [exact Hks|]. constructor; [exact Hk|constructor]. }
  rewrite (js_split_join _ _ _ Hvs Hu), but_last_snoc, last_of_snoc.
  assert (match before_last (ks ++ [k]) with
          | Some m => includes ["min"; "max"]%string m
          | None => false
          end = false) as Hb.
  { destruct ks as [|x ks' _] using rev_ind; [reflexivity|].
    rewrite <- app_assoc.
    change ([x] ++ [k]) with [x; k]. rewrite before_last_snoc.
    destruct (Hminmax x) as [Hmin Hmax]; [apply last_snoc|].
    apply includes_false. intros Hin.
    apply elem_of_cons in Hin as [->|Hin]; [congruence|].
    apply elem_of_cons in Hin as [->|Hin]; [congruence|].
    apply elem_of_nil in Hin. destruct Hin. }
  destruct (ks ++ [k]) as [|x l] eqn:E; [destruct ks; discriminate|].
  rewrite Hb, <- E, but_last_snoc, last_of_snoc.
  rewrite (attr_special_other _ _ Hspecial), (attr_join_other _ _ Hspecial). reflexivity.
Qed.

Lemma separates_at_word (sep : string) : separates is_at_word sep -> separates is_word sep.
Proof.
  intros [Hne Hsep]. split; [exact Hne|]. clear Hne.
  induction sep as [|c sep IH]; simpl in *; [reflexivity|].
  apply andb_true_iff in Hsep as [Hc Hsep]. rewrite (IH Hsep), andb_true_r.
  unfold is_at_word in Hc. apply negb_true_iff in Hc. apply negb_true_iff.
  apply orb_false_iff in Hc as [_ Hc]. exact Hc.
Qed.

Lemma word_of_at_word (w : string) : word_of is_word w -> word_of is_at_word w.
Proof.
  intros [Hne Hw]. split; [exact Hne|]. clear Hne.
  induction w as [|c w IH]; simpl in *; [reflexivity|].
  apply andb_true_iff in Hw as [Hc Hw]. rewrite (IH Hw), andb_true_r.
  unfold is_at_word. rewrite Hc. apply orb_true_r.
Qed.

(** X4.  An attribute whose name ends in a variant of the table, [svg]
    apart, stands for the utility its value names, under the words of its
    name followed by the variants of its value: the name is not made part
    of the utility. *)
Theorem attributify_variant_attribute (p : Processor) (sep : string) (ws : list string)
        (w : string) (vs : list string) (u : string) :
  separates is_at_word sep ->
  Forall (word_of is_at_word) ws -> word_of is_word w ->
  is_Some (_variants p !! w) -> w <> "svg"%string ->
  Forall (free_of ":") vs -> free_of ":" u ->
  attr_split p (js_join sep (ws ++ [w])) (js_join ":" (vs ++ [u]))
  = Some ((ws ++ [w]) ++ vs, u).
Proof.
  intros Hsep Hws Hw Hvar Hsvg Hvs Hu.
  unfold attr_split.
  rewrite (word_suffix_join _ _ _ (separates_at_word _ Hsep) Hw).
  destruct Hvar as [generated Hvar].
  unfold in_variants. rewrite (js_in_own _ _ _ Hvar).
  rewrite (proj2 (String.eqb_neq w "svg") Hsvg). cbn [andb negb].
  rewrite (match_all_join is_at_word sep (ws ++ [w]) Hsep).
  2:{ apply Forall_app. split; [exact Hws|].
      constructor; [apply word_of_at_word, Hw|constructor]. }
  rewrite (js_split_join _ _ _ Hvs Hu), but_last_snoc, last_of_snoc.
  destruct (ws ++ [w]) as [|x l] eqn:E; [destruct ws; discriminate|]. reflexivity.
Qed.

(** ** [prefix] *)

(** X5.  When the configured prefix holds no [$], [prefix] puts it in front
    of the first word character of the selector, so [.btn] becomes
    [.] + prefix + [btn]; a selector without a word character comes back as
    it is. *)
Theorem prefix_selector_inserts (p : Processor) (pfx : string) :
  c_prefix (_config p) = Some pfx -> free_of "$" pfx ->
  (forall before c rest,
      all_chars (fun x => negb (is_word x)) before = true -> is_word c = true ->
      prefix_selector p (before +:+ String c rest) = before +:+ pfx +:+ String c rest)
  /\ (forall s, all_chars (fun x => negb (is_word x)) s = true -> prefix_selector p s = s).
Proof.
  intros Hp Hfree. split.
  - intros before c rest Hb Hc. unfold prefix_selector.
    rewrite (split_at_word_app _ _ _ Hb Hc), Hp. simpl default.
    rewrite (expand_replacement_plain _ _ _ Hfree). reflexivity.
  - intros s Hs. unfold prefix_selector. rewrite (split_at_word_none _ Hs). reflexivity.
Qed.

(** ** [preflight] *)

(** X6.  With [ignoreProcessed], a text whose hash is not in the cache is
    handed to the imported [preflight] once and its hash is recorded; the
    next call with the same text returns an empty style sheet and changes
    nothing.  Without [ignoreProcessed] the cache is neither read nor
    written. *)
Theorem preflight_once (p : Processor) (html : string)
        (b g pl b' g' pl' : bool) :
  str_truthy html = true -> str_truthy (hash html) = true ->
  let r := preflight p (Some html) b g pl true in
  preflight (snd r) (Some html) b' g' pl' true = (new_StyleSheet, snd r)
  /\ (hash html ∉ cache_html (_cache p) ->
      fst r = preflight_import (snd r) (Some html) b g pl
      /\ cache_html (_cache (snd r)) = cache_html (_cache p) ++ [hash html])
  /\ (hash html ∈ cache_html (_cache p) -> r = (new_StyleSheet, p))
  /\ (forall h, preflight p h b g pl false = (preflight_import p h b g pl, p)).
Proof.
  intros Hh Hid. cbv zeta.
  assert (forall h, preflight p h b g pl false = (preflight_import p h b g pl, p)) as Hoff.
  { intros [h|]; [|reflexivity]. unfold preflight. destruct (str_truthy h); [|reflexivity].
    cbn [andb]. rewrite andb_false_r. reflexivity. }
  assert (forall q x y z, hash html ∈ cache_html (_cache q) ->
                          preflight q (Some html) x y z true = (new_StyleSheet, q)) as Hhit.
  { intros q x y z Hin. unfold preflight. rewrite Hh. cbn [andb].
    rewrite (bool_decide_eq_true_2 _ Hin). reflexivity. }
  destruct (decide (hash html ∈ cache_html (_cache p))) as [Hin|Hnin].
  - rewrite (Hhit p b g pl Hin). simpl.
    split; [apply Hhit, Hin|]. split; [intros Hn; destruct (Hn Hin)|].
    split; [reflexivity|exact Hoff].
  - assert (preflight p (Some html) b g pl true
            = (let q := set_cache (mkCache (cache_html (_cache p) ++ [hash html])
                                           (cache_classes (_cache p))
                                           (cache_utilities (_cache p))
                                           (cache_variants (_cache p))) p in
               (preflight_import q (Some html) b g pl, q))) as ->.
    { unfold preflight. rewrite Hh, Hid. cbn [andb].
      rewrite (bool_decide_eq_false_2 _ Hnin). reflexivity. }
    cbv zeta. cbn [fst snd].
    split.
    { apply Hhit. simpl. apply elem_of_app. right. apply list_elem_of_singleton. reflexivity. }
    split; [intros _; split; reflexivity|].
    split; [intros Hin; destruct (Hnin Hin)|exact Hoff].
Qed.

(** ** [resolveStaticUtilities] and [resolveDynamicUtilities] *)

Lemma static_fold_lookup (p : Processor) (keys : list string) (key : string) :
  forall m : gmap string (list Style),
    fold_left (fun m key =>
                 match generateStaticStyle p key true with
                 | Some style => <[key := [style]]> m
                 | None => m
                 end) keys m !! key
    = match (if decide (key ∈ keys) then generateStaticStyle p key true else None) with
      | Some style => Some [style]
      | None => m !! key
      end.
Proof.
  induction keys as [|k keys IH]; intros m; simpl.
  - destruct (decide (key ∈ [])) as [Hin|_]; [apply elem_of_nil in Hin; destruct Hin|].
    reflexivity.
  - rewrite IH.
    assert (k <> key ->
            match generateStaticStyle p k true with
            | Some style => <[k := [style]]> m
            | None => m
            end !! key = m !! key) as Hne.
    { intros Hk. destruct (generateStaticStyle p k true); [|reflexivity].
      apply lookup_insert_ne, Hk. }
    destruct (decide (key ∈ keys)) as [Hin|Hnin].
    + rewrite decide_True by (apply elem_of_cons; right; exact Hin).
      destruct (generateStaticStyle p key true) eqn:G; [reflexivity|].
      destruct (decide (k = key)) as [->|Hk]; [rewrite G; reflexivity|apply Hne, Hk].
    + destruct (decide (k = key)) as [->|Hk].
      * rewrite decide_True by (apply elem_of_cons; left; reflexivity).
        destruct (generateStaticStyle p key true); [|reflexivity].
        apply lookup_insert_eq.
      * rewrite decide_False by (intros [E|E]%elem_of_cons; [congruence|exact (Hnin E)]).
        apply Hne, Hk.
Qed.

(** X7.  With [includePlugins], a key is looked up among the plugin
    components first, then among the plugin utilities, then among the
    built-in static utilities; without it, only the built-in ones are
    there, each as the one style [generateStaticStyle] gives.  In
    [resolveDynamicUtilities] the generator of a plugin comes before the
    built-in one. *)
Theorem resolveUtilities_precedence (p : Processor) (key : string) :
  resolveStaticUtilities p true !! key
  = match pl_components (_plugin p) !! key with
    | Some l => Some l
    | None =>
        match pl_utilities (_plugin p) !! key with
        | Some l => Some l
        | None => resolveStaticUtilities p false !! key
        end
    end
  /\ resolveStaticUtilities p false !! key
     = (if decide (key ∈ staticUtilities_keys)
        then (fun style => [style]) <$> generateStaticStyle p key true
        else None)
  /\ resolveDynamicUtilities p true !! key
     = match pl_dynamic (_plugin p) !! key with
       | Some g => Some (inr g)
       | None => inl <$> dynamicUtilities !! key
       end
  /\ resolveDynamicUtilities p false !! key = (inl <$> dynamicUtilities !! key).
Proof.
  unfold resolveStaticUtilities, resolveDynamicUtilities, spread_map. cbn [negb].
  split; [|split; [|split]].
  - rewrite !lookup_union.
    destruct (pl_components (_plugin p) !! key), (pl_utilities (_plugin p) !! key),
      (fold_left _ _ _ !! key); reflexivity.
  - rewrite static_fold_lookup, lookup_empty.
    destruct (decide _); [|reflexivity]. destruct (generateStaticStyle p key true); reflexivity.
  - rewrite lookup_union, !lookup_fmap.
    destruct (pl_dynamic (_plugin p) !! key), (dynamicUtilities !! key); reflexivity.
  - apply lookup_fmap.
Qed.

(** ** [config('corePlugins')] after [resolveConfig] *)











(** ** [loadPlugin] and the variants registered before it *)




(** ** The walk of [interpret] and the cache of processed tokens *)

Lemma utilities_grow_refl (a : Acc) : utilities_grow a a.
Proof. exists []. symmetry. apply app_nil_r. Qed.

Lemma utilities_grow_trans (a1 a2 a3 : Acc) :
  utilities_grow a1 a2 -> utilities_grow a2 a3 -> utilities_grow a1 a3.
Proof. intros [e1 H1] [e2 H2]. exists (e1 ++ e2). rewrite H2, H1, app_assoc. reflexivity. Qed.

Lemma utilities_grow_same (a a' : Acc) : a_utilities a' = a_utilities a -> utilities_grow a a'.
Proof. intros H. exists []. rewrite H. symmetry. apply app_nil_r. Qed.

Lemma interpret_gAst_utilities (depth : nat) (p : Processor) (ignoreProcessed : bool)
      (handleIgnored : HandleIgnored) (ast : list Element) (a a' : Acc) :
  interpret_gAst depth p ignoreProcessed handleIgnored ast a = Done a' -> utilities_grow a a'.
Proof.
  apply (interpret_gAst_rel utilities_grow).
  - apply utilities_grow_refl.
  - apply utilities_grow_trans.
  - intros. apply utilities_grow_same. eapply interpret_gStyle_utilities. eassumption.
  - intros. apply utilities_grow_same, _hIgnored_utilities.
  - intros x a0. exists [x]. reflexivity.
Qed.

(** After a walk with [ignoreProcessed], the raw text of every token at the
    top level is in the cache. *)
Lemma interpret_gAst_records (depth : nat) (p : Processor) (handleIgnored : HandleIgnored) :
  forall ast a a',
    interpret_gAst depth p true handleIgnored ast a = Done a' ->
    Forall (fun obj => e_raw obj ∈ a_utilities a') ast.
Proof.
  intros ast. induction ast as [|obj ast IH]; intros a a' H; [constructor|].
  rewrite interpret_gAst_fold in H. simpl in H.
  apply obind_Done in H as (a1 & Hstep & Hrest).
  assert (e_raw obj ∈ a_utilities a1) as Hin.
  { unfold interpret_gAst_step in Hstep. cbn [andb] in Hstep.
    destruct (bool_decide (e_raw obj ∈ a_utilities a)) eqn:Hc.
    - injection Hstep as <-. apply bool_decide_eq_true in Hc. exact Hc.
    - assert (utilities_grow (push_utility (e_raw obj) a) a1) as [extra Hg].
      { change (interpret_gAst_step
                  match depth with
                  | O => None
                  | S depth' => Some (interpret_gAst depth' p true handleIgnored)
                  end depth p false handleIgnored (push_utility (e_raw obj) a) obj = Done a1)
          in Hstep.
        eapply (interpret_gAst_step_rel utilities_grow); [..|exact Hstep].
        - apply utilities_grow_refl.
        - apply utilities_grow_trans.
        - intros. apply utilities_grow_same. eapply interpret_gStyle_utilities. eassumption.
        - intros. apply utilities_grow_same, _hIgnored_utilities.
        - intros x a0. exists [x]. reflexivity.
        - intros g body s s' Hg Hb. destruct depth as [|depth']; [discriminate|].
          injection Hg as <-. eapply interpret_gAst_utilities, Hb. }
      rewrite Hg. simpl. apply elem_of_app. left. apply elem_of_app. right.
      apply list_elem_of_singleton. reflexivity. }
  rewrite <- interpret_gAst_fold in Hrest.
  constructor.
  - destruct (interpret_gAst_utilities _ _ _ _ _ _ _ Hrest) as [extra ->].
    apply elem_of_app. left. exact Hin.
  - eapply IH, Hrest.
Qed.

(** A walk with [ignoreProcessed] over tokens that are all in the cache
    changes nothing. *)
Lemma interpret_gAst_skips (depth : nat) (p : Processor) (handleIgnored : HandleIgnored) :
  forall ast a,
    Forall (fun obj => e_raw obj ∈ a_utilities a) ast ->
    interpret_gAst depth p true handleIgnored ast a = Done a.
Proof.
  intros ast a Hall. rewrite interpret_gAst_fold.
  induction Hall as [|obj ast Hin _ IH]; [reflexivity|].
  simpl. unfold interpret_gAst_step at 1. cbn [andb].
  rewrite (bool_decide_eq_true_2 _ Hin). simpl. exact IH.
Qed.

(** X10.  With [ignoreProcessed], [interpret] records the tokens it walks
    in the cache of the processor, and a second call on the same class
    string finds them there: it reports no success, nothing ignored and an
    empty style sheet, and leaves the processor as it is. *)
Theorem interpret_ignoreProcessed_twice (depth depth' : nat) (p p1 : Processor)
        (classNames : string) (handleIgnored handleIgnored' : HandleIgnored)
        (r : InterpretResult) :
  interpret depth p classNames true handleIgnored = Done (r, p1) ->
  interpret depth' p1 classNames true handleIgnored'
  = Done (mkInterpretResult [] [] (sheet_sort (apply_prefixer p1 new_StyleSheet)), p1).
Proof.
  unfold interpret. intros H. apply obind_Done in H as (a1 & Hwalk & H).
  injection H as _ <-.
  apply interpret_gAst_records in Hwalk.
  unfold proc_at at 1 2 3. unfold config_separator. simpl.
  rewrite interpret_gAst_skips by exact Hwalk. simpl.
  unfold proc_at. simpl. destruct p as [c t v [h cl u vs] pl]. reflexivity.
Qed.

(** ** What [interpret] reports for the tokens it does not recognize *)

Lemma _hIgnored_reports (handleIgnored : HandleIgnored) (className : string) (a : Acc) :
  a_success (_hIgnored handleIgnored className a)
  = a_success a ++ reported_success handleIgnored className
  /\ a_ignored (_hIgnored handleIgnored className a)
     = a_ignored a ++ reported_ignored handleIgnored className.
Proof.
  unfold _hIgnored, reported_success, reported_ignored.
  destruct handleIgnored as [h|]; [destruct (h className)|]; simpl;
    rewrite ?app_nil_r, <- ?app_assoc; split; reflexivity.
Qed.

Lemma interpret_step_handed (rec : option (list Element -> Acc -> outcome Acc))
      (depth : nat) (p : Processor) (handleIgnored : HandleIgnored) (a : Acc) (obj : Element) :
  handed_to_hIgnored p obj ->
  interpret_gAst_step rec depth p false handleIgnored a obj
  = Done (_hIgnored handleIgnored (e_raw obj) a).
Proof.
  unfold handed_to_hIgnored, interpret_gAst_step. cbn [andb].
  destruct (e_type obj) eqn:Ht.
  - intros (c & (_ & Hc & Htruthy) & Hex & Hps & Hextract).
    rewrite Hc, Htruthy. unfold interpret_gStyle. rewrite excluded_proc_at, Hex.
    change (plugin_selector (proc_at p a) (e_variants obj) (e_raw obj))
      with (plugin_selector p (e_variants obj) (e_raw obj)).
    rewrite Hps, Hextract. reflexivity.
  - intros [].
  - intros ->. reflexivity.
  - intros ->. reflexivity.
Qed.

(** X11.  When every token of the class string is one [interpret] hands to
    [_hIgnored], the call returns; a token the handler gives a style for is
    listed in [success] and in [ignored] as well, a token the handler
    declines is listed in [ignored] twice, and without a handler every token
    is listed in [ignored] once. *)
Theorem interpret_reports_handled (depth : nat) (p : Processor) (classNames : string)
        (handleIgnored : HandleIgnored) :
  let ast := parse classNames (Some (config_separator p)) (cache_variants (_cache p)) in
  Forall (handed_to_hIgnored p) ast ->
  exists r p',
    interpret depth p classNames false handleIgnored = Done (r, p')
    /\ ir_success r = flat_map (fun obj => reported_success handleIgnored (e_raw obj)) ast
    /\ ir_ignored r = flat_map (fun obj => reported_ignored handleIgnored (e_raw obj)) ast.
Proof.
  cbv zeta. intros Hall. unfold interpret.
  set (ast := parse _ _ _) in *.
  assert (forall a, exists a',
             interpret_gAst depth p false handleIgnored ast a = Done a'
             /\ a_success a'
                = a_success a
                  ++ flat_map (fun obj => reported_success handleIgnored (e_raw obj)) ast
             /\ a_ignored a'
                = a_ignored a
                  ++ flat_map (fun obj => reported_ignored handleIgnored (e_raw obj)) ast)
    as Hwalk.
  { clearbody ast. intros a. rewrite interpret_gAst_fold. revert a.
    induction Hall as [|obj ast Hobj _ IH]; intros a.
    - exists a. simpl. rewrite !app_nil_r. auto.
    - simpl. rewrite (interpret_step_handed _ _ _ _ _ _ Hobj). simpl.
      destruct (IH (_hIgnored handleIgnored (e_raw obj) a)) as (a' & Hrun & Hs & Hi).
      exists a'. split; [exact Hrun|].
      destruct (_hIgnored_reports handleIgnored (e_raw obj) a) as [Es Ei].
      rewrite Hs, Hi, Es, Ei, <- !app_assoc. auto. }
  destruct (Hwalk (mkAcc (cache_utilities (_cache p)) [] [] new_StyleSheet))
    as (a' & -> & Hs & Hi).
  simpl. eexists _, _. split; [reflexivity|]. simpl. auto.
Qed.

(** ** Tokens a walk has no style for *)

Lemma leaves_member_ignored (leaf : Acc -> Leaf -> outcome Acc) (x : string) (l : Leaf) :
  (forall a l a', leaf a l = Done a' -> ignored_grows a a') ->
  (forall s s', leaf s l = Done s' -> x ∈ a_ignored s') ->
  forall ls a a', ofold leaf ls a = Done a' -> l ∈ ls -> x ∈ a_ignored a'.
Proof.
  intros Hgrow Hl ls a a' H Hin.
  apply list_elem_of_split in Hin as (pre & post & ->).
  rewrite ofold_app in H. apply obind_Done in H as (a1 & _ & H). simpl in H.
  apply obind_Done in H as (a2 & H2 & H).
  eapply ignored_grows_elem; [eapply (leaves_grow leaf Hgrow), H|].
  eapply Hl, H2.
Qed.

Lemma push_ignored_elem (x : string) (a : Acc) : x ∈ a_ignored (push_ignored x a).
Proof. simpl. apply elem_of_app. right. left. Qed.

Lemma interpret_gStyle_declined (p : Processor) (handleIgnored : HandleIgnored)
      (c : string) (variants : list string) (selector : string) (important : bool)
      (a a' : Acc) :
  plugin_selector p variants selector = false ->
  (forall q, extract (proc_at p q) c false (config_prefix p) = Done None) ->
  interpret_gStyle p handleIgnored c variants selector important (config_prefix p) a = Done a' ->
  selector ∈ a_ignored a'.
Proof.
  intros Hps Hextract. unfold interpret_gStyle.
  change (plugin_selector (proc_at p a) variants selector)
    with (plugin_selector p variants selector).
  rewrite Hps, Hextract. destruct (excluded (proc_at p a) selector); intros H;
    injection H as <-; [apply push_ignored_elem|apply _hIgnored_ignored].
Qed.

Lemma compile_gStyle_declined (p : Processor) (showComment : bool)
      (handleIgnored : HandleIgnored) (buildSelector baseClass : string)
      (variants : list string) (selector : string) (important : bool) (a a' : Acc) :
  plugin_selector p variants selector = false ->
  extract p baseClass showComment None = Done None ->
  compile_gStyle p showComment handleIgnored buildSelector baseClass variants selector
                 important a = Done a' ->
  selector ∈ a_ignored a'.
Proof.
  intros Hps Hextract. unfold compile_gStyle. rewrite Hps, Hextract.
  destruct (excluded p selector); intros H;
    injection H as <-; [apply push_ignored_elem|apply _hIgnored_ignored].
Qed.

(** X20.  A call of [interpret] or of [compile] that returns, [compile] not
    cut short at line 489, lists in [ignored] every token it has processed
    and has no style for, at the top level, in a group or in the body of an
    alias: the element that is neither a utility, nor a group, nor (in
    [interpret]) an alias of the table, and the class name that is no
    selector of a plugin and that [extract] declines. *)
Theorem unrecognized_tokens_ignored (p : Processor) (handleIgnored : HandleIgnored) :
  (forall depth classNames ignoreProcessed r p',
      interpret depth p classNames ignoreProcessed handleIgnored = Done (r, p') ->
      exists tokens seen,
        interpret_leaves depth p ignoreProcessed
                         (parse classNames (Some (config_separator p))
                                (cache_variants (_cache p)))
                         (cache_utilities (_cache p)) = Done (tokens, seen)
        /\ (forall className, LIgnored className ∈ tokens -> className ∈ ir_ignored r)
        /\ (forall c variants selector important,
               LStyle c variants selector important ∈ tokens ->
               plugin_selector p variants selector = false ->
               (forall q, extract (proc_at p q) c false (config_prefix p) = Done None) ->
               selector ∈ ir_ignored r))
  /\ (forall classNames prefix showComment ignoreGenerated outputClassName r p',
         compile p classNames prefix showComment ignoreGenerated handleIgnored
                 outputClassName = Done (r, p') ->
         ignoreGenerated
         && bool_decide (compile_className classNames prefix outputClassName
                           ∈ cache_classes (_cache p)) = false ->
         let tokens :=
           flat_map compile_leaves
                    (parse classNames (Some (config_separator p))
                           (cache_variants (_cache p))) in
         (forall className, LIgnored className ∈ tokens -> className ∈ cr_ignored r)
         /\ (forall c variants selector important baseClass,
                LStyle c variants selector important ∈ tokens ->
                plugin_selector p variants selector = false ->
                removePrefix p c = Done baseClass ->
                extract p baseClass showComment None = Done None ->
                selector ∈ cr_ignored r)).
Proof.
  split.
  - intros depth classNames ignoreProcessed r p' H. unfold interpret in H.
    apply obind_Done in H as (a' & Ha & H). injection H as <- <-.
    destruct (interpret_gAst_leaves _ _ _ _ _ _ _ Ha) as (tokens & Ht & Hf).
    exists tokens, (a_utilities a'). split; [exact Ht|]. simpl. split.
    + intros className Hin.
      eapply (leaves_member_ignored (interpret_leaf p handleIgnored));
        [apply interpret_leaf_grows| |exact Hf|exact Hin].
      simpl. intros s s' Hs. injection Hs as <-. apply _hIgnored_ignored.
    + intros c variants selector important Hin Hps Hextract.
      eapply (leaves_member_ignored (interpret_leaf p handleIgnored));
        [apply interpret_leaf_grows| |exact Hf|exact Hin].
      simpl. intros s s'. apply interpret_gStyle_declined; assumption.
  - intros classNames prefix showComment ignoreGenerated outputClassName r p' H Hc.
    destruct (compile_walked _ _ _ _ _ _ _ _ _ Hc H) as (a' & Ha & _ & Hi & _).
    cbv zeta. rewrite Hi. rewrite compile_walk_leaves in Ha. split.
    + intros className Hin.
      eapply (leaves_member_ignored (compile_leaf p showComment handleIgnored _));
        [apply compile_leaf_grows| |exact Ha|exact Hin].
      simpl. intros s s' Hs. injection Hs as <-. apply _hIgnored_ignored.
    + intros c variants selector important baseClass Hin Hps Hrm Hextract.
      eapply (leaves_member_ignored (compile_leaf p showComment handleIgnored _));
        [apply compile_leaf_grows| |exact Ha|exact Hin].
      simpl. intros s s'. rewrite Hrm. simpl.
      apply compile_gStyle_declined; assumption.
Qed.

(** ** [addUtilities] and [addComponents] *)

Lemma files_only_under_refl (type : AddPluginType) (p : Processor) :
  files_only_under type p p.
Proof. unfold files_only_under. auto 10. Qed.

Lemma files_only_under_trans (type : AddPluginType) (p1 p2 p3 : Processor) :
  files_only_under type p1 p2 -> files_only_under type p2 p3 -> files_only_under type p1 p3.
Proof.
  intros (A1 & A2 & A3 & A4 & A5 & A6 & A7 & A8) (B1 & B2 & B3 & B4 & B5 & B6 & B7 & B8).
  unfold files_only_under. repeat split; try congruence.
  intros t H1 H2. rewrite (B8 t H1 H2). apply A8; assumption.
Qed.

Lemma _addPluginCache_only (type t : AddPluginType) (p : Processor) (key : string)
      (styles : list Style) (p' : Processor) :
  t = type \/ t = PStatic ->
  _addPluginCache p t key styles = Done p' -> files_only_under type p p'.
Proof.
  intros Ht H. unfold _addPluginCache in H.
  destruct (plugin_cache t (_plugin p) !! key);
    [|destruct (inherited key); [discriminate|]];
    injection H as <-; unfold files_only_under;
    (repeat split; try (destruct t; reflexivity));
    intros t' H1 H2; destruct t, t'; try reflexivity; destruct Ht; congruence.
Qed.

Lemma kept_only (type t : AddPluginType) (p : Processor) (key : string)
      (styles : list Style) :
  t = type \/ t = PStatic ->
  files_only_under type p (fst (kept p (_addPluginCache p t key styles))).
Proof.
  intros Ht. apply (kept_fst (files_only_under type)); [apply files_only_under_refl|].
  intros p'. apply _addPluginCache_only, Ht.
Qed.

Lemma run_calls_only (type : AddPluginType) (styles : ClassGuess -> list Style)
      (l : list ClassGuess) (p : Processor) :
  files_only_under type p
    (fst (run_calls (fun p g => _addPluginCache p type (g_selector g) (styles g)) l p)).
Proof.
  unfold run_calls. apply (run_loop_fst (files_only_under type)).
  - apply files_only_under_refl.
  - apply files_only_under_trans.
  - intros s g. apply kept_only. auto.
Qed.

Lemma base_only (type : AddPluginType) (p : Processor) (base : string) (styles : list Style) :
  files_only_under type p
    (fst (if str_truthy base then kept p (_addPluginCache p PStatic base styles)
          else (p, Done tt))).
Proof.
  destruct (str_truthy base); [apply kept_only; auto|apply files_only_under_refl].
Qed.

Lemma add_at_rule_style_only (type : AddPluginType) (acc : Processor * Guess) (style : Style) :
  files_only_under type (fst acc) (fst (fst (add_at_rule_style type acc style))).
Proof.
  destruct acc as [p className]. unfold add_at_rule_style. simpl.
  match goal with |- context [match ?c with GuessOne _ => _ | GuessMany _ => _ end] =>
    destruct c as [g|l] end.
  - apply kept_only. destruct (g_isClass g); auto.
  - apply (and_then_fst (files_only_under type)).
    + apply files_only_under_trans.
    + apply run_calls_only.
    + apply base_only.
Qed.

Lemma add_selector_list_only (type : AddPluginType) (p : Processor) (l : list ClassGuess)
      (styles : list Style) :
  type = PUtilities \/ type = PComponents ->
  files_only_under type p (fst (add_selector_list type p l styles)).
Proof.
  intros [-> | ->]; unfold add_selector_list.
  - apply (and_then_fst (files_only_under PUtilities)).
    + apply files_only_under_trans.
    + apply run_calls_only.
    + apply base_only.
  - destruct (existsb _ l); [apply base_only|apply run_calls_only].
Qed.

Lemma add_entry_only (type : AddPluginType) (options : PluginUtilOptions) (setLayer : bool)
      (layer : string) (order : Z) (acc : Processor * list Style) (kv : string * TV) :
  type = PUtilities \/ type = PComponents ->
  files_only_under type (fst acc)
                   (fst (fst (add_entry type options setLayer layer order acc kv))).
Proof.
  intros Ht. destruct acc as [p output], kv as [key value]. unfold add_entry. cbv zeta.
  match goal with
  | |- files_only_under _ _
         (fst (fst match snd ?r0 with Done _ => _ | Throw _ => _ | OutOfFuel => _ end)) =>
      assert (files_only_under type p (fst r0)) as Hr; [|destruct (snd r0); exact Hr]
  end.
  destruct (String.eqb (charAt0 key) "@").
  - cbn [fst].
    apply (run_loop_fst (fun a a' => files_only_under type (fst a) (fst a'))
                        (add_at_rule_style type) _
                        (fun a => files_only_under_refl type (fst a))
                        (fun a1 a2 a3 => files_only_under_trans type (fst a1) (fst a2) (fst a3))
                        (add_at_rule_style_only type)
                        (p, guessClassName key)).
  - destruct (guessClassName key) as [g|l].
    + apply kept_only. destruct (g_isClass g); auto.
    + apply add_selector_list_only, Ht.
Qed.

Lemma add_entries_only (type : AddPluginType) (options : PluginUtilOptions) (setLayer : bool)
      (layer : string) (order : Z) (entries : list (string * TV)) :
  type = PUtilities \/ type = PComponents ->
  forall acc,
    files_only_under type (fst acc)
      (fst (fst (run_loop (add_entry type options setLayer layer order) entries acc))).
Proof.
  intros Ht.
  apply (run_loop_fst (fun a a' => files_only_under type (fst a) (fst a'))).
  - intros a. apply files_only_under_refl.
  - intros a1 a2 a3. apply files_only_under_trans.
  - intros a kv. apply add_entry_only, Ht.
Qed.

(** X15.  [addUtilities] files styles under [utilities] and [static] only,
    [addComponents] under [components] and [static] only: the
    configuration, the theme, the variants, the caches and the other tables
    of the plugin record are as they were. *)
Theorem add_styles_files_only (p : Processor) (styles : TV + list TV)
        (options : option (PluginUtilOptions + list string)) :
  files_only_under PUtilities p (fst (addUtilities p styles options))
  /\ files_only_under PComponents p (fst (addComponents p styles options)).
Proof.
  split.
  - unfold addUtilities. apply (add_entries_only PUtilities _ _ _ _ _ (or_introl eq_refl) (p, [])).
  - unfold addComponents.
    apply (add_entries_only PComponents _ _ _ _ _ (or_intror eq_refl) (p, [])).
Qed.

Lemma _addPluginCache_registers (p : Processor) (type : AddPluginType) (key : string)
      (styles : list Style) (p' : Processor) :
  _addPluginCache p type key styles = Done p' ->
  is_Some (plugin_cache type (_plugin p') !! key).
Proof.
  unfold _addPluginCache. intros H.
  destruct (plugin_cache type (_plugin p) !! key);
    [|destruct (inherited key); [discriminate|]];
    injection H as <-; destruct type; simpl; rewrite lookup_insert_eq; eauto.
Qed.

Lemma _addPluginCache_keeps (p : Processor) (type t : AddPluginType) (key k : string)
      (styles : list Style) (p' : Processor) :
  _addPluginCache p type key styles = Done p' ->
  is_Some (plugin_cache t (_plugin p) !! k) ->
  is_Some (plugin_cache t (_plugin p') !! k).
Proof.
  unfold _addPluginCache. intros H Hk.
  destruct (plugin_cache type (_plugin p) !! key);
    [|destruct (inherited key); [discriminate|]];
    injection H as <-;
    (destruct (decide (key = k)) as [->|Hne];
     [destruct type, t; simpl; rewrite ?lookup_insert_eq; eauto
     |destruct type, t; simpl; rewrite ?lookup_insert_ne by exact Hne; exact Hk]).
Qed.

(** A run of [_addPluginCache] over a list of classes that goes through
    has filed every class of the list. *)
Lemma run_calls_registers (type : AddPluginType) (styles : ClassGuess -> list Style)
      (l : list ClassGuess) (p : Processor) (g : ClassGuess) :
  let r := run_calls (fun p g => _addPluginCache p type (g_selector g) (styles g)) l p in
  snd r = Done tt -> g ∈ l ->
  is_Some (plugin_cache type (_plugin (fst r)) !! g_selector g).
Proof.
  cbv zeta. unfold run_calls. intros Hrun Hin.
  apply (run_loop_through (fun _ _ => True)
           (fun g q => is_Some (plugin_cache type (_plugin q) !! g_selector g))
           _ l); [| |exact Hrun|exact Hin].
  - intros s a Hs. apply kept_Done in Hs. eapply _addPluginCache_registers, Hs.
  - intros s a b Hb Hs. apply kept_Done in Hs. eapply _addPluginCache_keeps; eassumption.
Qed.

(** A class whose selector the table inherits, and has no entry for, ends
    the run. *)
Lemma run_calls_inherited (type : AddPluginType) (styles : ClassGuess -> list Style)
      (l : list ClassGuess) (p : Processor) (g : ClassGuess) :
  g ∈ l -> inherited (g_selector g) = true ->
  plugin_cache type (_plugin p) !! g_selector g = None ->
  snd (run_calls (fun p g => _addPluginCache p type (g_selector g) (styles g)) l p) <> Done tt.
Proof.
  intros Hin Hinh Hnone. unfold run_calls.
  apply (run_loop_stops (fun q => plugin_cache type (_plugin q) !! g_selector g = None)
                        _ l g Hin); [| |exact Hnone].
  - intros s a Hs Ha. apply kept_Done in Ha. revert Ha.
    generalize (fst (kept s (_addPluginCache s type (g_selector a) (styles a)))).
    intros s' Ha. unfold _addPluginCache in Ha.
    destruct (decide (g_selector a = g_selector g)) as [E|Hne].
    + rewrite E, Hs, Hinh in Ha. discriminate.
    + destruct (plugin_cache type (_plugin s) !! g_selector a);
        [|destruct (inherited (g_selector a)); [discriminate|]];
        injection Ha as <-; destruct type; simpl in *;
        rewrite lookup_insert_ne by exact Hne; exact Hs.
  - intros s Hs Ha. apply kept_Done in Ha. unfold _addPluginCache in Ha.
    rewrite Hs, Hinh in Ha. discriminate.
Qed.

Lemma run_loop_single {S A : Type} (f : S -> A -> S * outcome unit) (a : A) (s : S) :
  run_loop f [a] s
  = match snd (f s a) with
    | Done _ => (fst (f s a), Done tt)
    | _ => f s a
    end.
Proof. reflexivity. Qed.

Lemma add_entry_list (type : AddPluginType) (options : PluginUtilOptions) (setLayer : bool)
      (layer : string) (order : Z) (p : Processor) (output : list Style)
      (key : string) (value : TV) (l : list ClassGuess) :
  String.eqb (charAt0 key) "@" = false ->
  guessClassName key = GuessMany l ->
  exists styles,
    add_entry type options setLayer layer order (p, output) (key, value)
    = match snd (add_selector_list type p l styles) with
      | Done _ => ((fst (add_selector_list type p l styles), output ++ styles), Done tt)
      | e => ((fst (add_selector_list type p l styles), output), e)
      end.
Proof.
  intros Hat Hguess. unfold add_entry. rewrite Hat, Hguess. eexists. reflexivity.
Qed.

(** [addUtilities] on one key that is a list of selectors. *)
Lemma addUtilities_list (p : Processor) (key : string) (value : TV)
      (options : option (PluginUtilOptions + list string)) (l : list ClassGuess) :
  String.eqb (charAt0 key) "@" = false ->
  guessClassName key = GuessMany l ->
  exists styles,
    fst (addUtilities p (inl (TVObj [(key, value)])) options)
    = fst (add_selector_list PUtilities p l styles)
    /\ forall out, snd (addUtilities p (inl (TVObj [(key, value)])) options) = Done out ->
                   snd (add_selector_list PUtilities p l styles) = Done tt.
Proof.
  intros Hat Hguess. unfold addUtilities. cbv zeta.
  change (tv_entries (merge_objects (inl (TVObj [(key, value)])))) with [(key, value)].
  rewrite run_loop_single.
  match goal with
  | |- context [add_entry PUtilities ?o ?s ?la ?or (p, [])] =>
      destruct (add_entry_list PUtilities o s la or p [] key value l Hat Hguess)
        as [styles ->]
  end.
  exists styles.
  destruct (add_selector_list PUtilities p l styles) as [q [[]| |]]; cbn [fst snd obind];
    (split; [reflexivity|]); intros out H; first [reflexivity|discriminate].
Qed.

Lemma addComponents_list (p : Processor) (key : string) (value : TV)
      (options : option (PluginUtilOptions + list string)) (l : list ClassGuess) :
  String.eqb (charAt0 key) "@" = false ->
  guessClassName key = GuessMany l ->
  exists styles,
    fst (addComponents p (inl (TVObj [(key, value)])) options)
    = fst (add_selector_list PComponents p l styles).
Proof.
  intros Hat Hguess. unfold addComponents. cbv zeta.
  change (tv_entries (merge_objects (inl (TVObj [(key, value)])))) with [(key, value)].
  rewrite run_loop_single.
  match goal with
  | |- context [add_entry PComponents ?o ?s ?la ?or (p, [])] =>
      destruct (add_entry_list PComponents o s la or p [] key value l Hat Hguess)
        as [styles ->]
  end.
  exists styles.
  destruct (add_selector_list PComponents p l styles) as [q [[]| |]]; reflexivity.
Qed.

(** X16.  A key that does not start with [@] and that [guessClassName]
    reads as a list of selectors, one of which is no class: [addComponents]
    files nothing under [components], while [addUtilities], when it
    returns, has filed every class of the list under [utilities]; it does
    not return when the selector of a class of the list is a name the table
    inherits and has no entry for. *)
Theorem add_styles_mixed_selectors (p : Processor) (key : string) (value : TV)
        (options : option (PluginUtilOptions + list string)) (l : list ClassGuess) :
  String.eqb (charAt0 key) "@" = false ->
  guessClassName key = GuessMany l ->
  Exists (fun i => g_isClass i = false) l ->
  pl_components (_plugin (fst (addComponents p (inl (TVObj [(key, value)])) options)))
  = pl_components (_plugin p)
  /\ (forall out,
         snd (addUtilities p (inl (TVObj [(key, value)])) options) = Done out ->
         forall g, g ∈ l -> g_isClass g = true ->
                   is_Some (pl_utilities
                              (_plugin (fst (addUtilities p (inl (TVObj [(key, value)]))
                                                          options)))
                            !! g_selector g))
  /\ (forall g, g ∈ l -> g_isClass g = true ->
                inherited (g_selector g) = true ->
                pl_utilities (_plugin p) !! g_selector g = None ->
                forall out,
                  snd (addUtilities p (inl (TVObj [(key, value)])) options) <> Done out).
Proof.
  intros Hat Hguess Hmixed.
  destruct (addUtilities_list p key value options l Hat Hguess) as (styles & Hfst & Hsnd).
  split; [|split].
  - destruct (addComponents_list p key value options l Hat Hguess) as (styles' & ->).
    assert (existsb (fun i => negb (g_isClass i)) l = true) as Hex.
    { apply existsb_exists. apply Exists_exists in Hmixed as (i & Hi & Hcl).
      exists i. split; [apply list_elem_of_In, Hi|]. rewrite Hcl. reflexivity. }
    unfold add_selector_list. rewrite Hex.
    match goal with
    | |- context [kept p (_addPluginCache p PStatic ?b ?st)] =>
        pose proof (base_only PStatic p b st) as (_ & _ & _ & _ & _ & _ & _ & Hk)
    end.
    exact (Hk PComponents ltac:(discriminate) ltac:(discriminate)).
  - intros out Hout g Hg Hclass. rewrite Hfst. specialize (Hsnd out Hout).
    unfold add_selector_list in *. apply and_then_Done in Hsnd as Hrun.
    pose proof (run_calls_registers PUtilities _ _ p g Hrun
                  ltac:(apply list_elem_of_filter; split; assumption)) as Hreg.
    unfold and_then. rewrite Hrun.
    match goal with
    | |- context [str_truthy ?b] => destruct (str_truthy b); [|exact Hreg]
    end.
    match goal with
    | |- context [kept ?q (_addPluginCache ?q PStatic ?b ?st)] =>
        destruct (_addPluginCache q PStatic b st) as [q'| |] eqn:E; simpl; [|exact Hreg..];
        exact (_addPluginCache_keeps q PStatic PUtilities b _ st q' E Hreg)
    end.
  - intros g Hg Hclass Hinh Hnone out Hout. specialize (Hsnd out Hout).
    unfold add_selector_list in Hsnd. apply and_then_Done in Hsnd. revert Hsnd.
    apply run_calls_inherited with (g := g);
      [apply list_elem_of_filter; split; assumption|exact Hinh|exact Hnone].
Qed.

(** ** The theme of a configuration *)

(** X17.  Without presets of its own and without [theme.extend], the theme
    [_resolveConfig] gives holds, under every key of the user theme, the
    value of the user theme (a function as it is, anything else as the
    object of its own enumerable properties), whatever the theme of the
    presets holds there; under every other key it holds the value of the
    theme of the presets. *)
Theorem user_theme_replaces (fuel : nat) (userConfig presets : Config) (ut : ThemeDict) :
  c_presets userConfig = None -> c_theme userConfig = Some ut ->
  assoc_has "extend" ut = false -> NoDup ut.*1 ->
  exists c theme,
    _resolveConfig (S fuel) userConfig presets = Done c
    /\ c_theme c = Some theme
    /\ forall k,
        tv_get k theme
        = match assoc_get k ut with
          | Some v => if tv_is_fun v then v else TVObj (tv_entries v)
          | None => tv_get k (default [] (c_theme presets))
          end.
Proof.
  intros Hpresets Htheme Hextend Hnd. simpl. rewrite Hpresets. simpl.
  eexists _, _. split; [reflexivity|]. unfold merge_theme.
  rewrite Htheme, Hextend, (assoc_del_absent _ _ Hextend). simpl.
  split; [reflexivity|]. intros k. unfold tv_get.
  change (_reduceFunction ?t (TVObj [])) with t.
  rewrite (assoc_get_fold_set (fun v => if tv_is_fun v then v else TVObj (tv_entries v)) ut k Hnd).
  destruct (assoc_get k ut); reflexivity.
Qed.

Lemma reduce_step_other (theme : ThemeDict) (kv : string * TV) (k : string) :
  k <> fst kv ->
  assoc_get k (let '(key, value) := kv in
               match tv_get key theme with
               | TVFun themeValue => assoc_set key (TVFun (FCombineFun themeValue value)) theme
               | (TVObj _ | TVNull) as themeValue =>
                   assoc_set key (TVFun (FCombineObj themeValue value)) theme
               | _ => assoc_set key value theme
               end)
  = assoc_get k theme.
Proof.
  destruct kv as [key value]. simpl. intros Hne.
  destruct (tv_get key theme); rewrite assoc_get_set, (proj2 (String.eqb_neq k key) Hne);
    reflexivity.
Qed.

Lemma _reduceFunction_other (ext : list (string * TV)) (k : string) :
  k ∉ ext.*1 ->
  forall theme, assoc_get k (_reduceFunction theme (TVObj ext)) = assoc_get k theme.
Proof.
  unfold _reduceFunction. simpl. induction ext as [|kv ext IH]; simpl; intros Hk theme;
    [reflexivity|].
  apply not_elem_of_cons in Hk as [Hne Hk]. rewrite (IH Hk). apply reduce_step_other, Hne.
Qed.

Lemma _reduceFunction_object (ext : list (string * TV)) (k : string) (a : list (string * TV))
      (b : TV) :
  NoDup ext.*1 -> assoc_get k ext = Some b ->
  forall theme,
    assoc_get k theme = Some (TVObj a) ->
    assoc_get k (_reduceFunction theme (TVObj ext))
    = Some (TVFun (FCombineObj (TVObj a) b)).
Proof.
  unfold _reduceFunction. simpl. induction ext as [|[k0 v0] ext IH]; simpl;
    intros Hnd Hb theme Ha; [discriminate|].
  apply NoDup_cons in Hnd as [Hk0 Hnd].
  destruct (String.eqb_spec k k0) as [->|Hne].
  - injection Hb as ->.
    pose proof (_reduceFunction_other ext k0 Hk0) as Hother.
    unfold _reduceFunction in Hother. simpl in Hother. rewrite Hother.
    unfold tv_get. rewrite Ha. rewrite assoc_get_set, String.eqb_refl. reflexivity.
  - apply (IH Hnd Hb). rewrite <- Ha.
    exact (reduce_step_other theme (k0, v0) k Hne).
Qed.

Lemma _reduceFunction_NoDup (ext : list (string * TV)) :
  forall theme, NoDup theme.*1 -> NoDup (_reduceFunction theme (TVObj ext)).*1.
Proof.
  unfold _reduceFunction. simpl. induction ext as [|[k0 v0] ext IH]; simpl; intros theme Hnd;
    [exact Hnd|].
  apply IH. destruct (tv_get k0 theme); apply assoc_set_NoDup, Hnd.
Qed.

Lemma resolve_entries_absent (view : ThemeDict -> option ThemeDict)
      (snapshot : list (string * TV)) (k : string) :
  k ∉ snapshot.*1 ->
  forall theme,
    assoc_get k (resolve_entries view assoc_set snapshot theme) = assoc_get k theme.
Proof.
  unfold resolve_entries. induction snapshot as [|[k1 v1] snapshot IH]; simpl;
    intros Hk theme; [reflexivity|].
  apply not_elem_of_cons in Hk as [Hne Hk]. rewrite (IH Hk).
  destruct v1; try reflexivity.
  rewrite assoc_get_set, (proj2 (String.eqb_neq k k1) Hne). reflexivity.
Qed.

(** The first loop of [_resolveFunction] over a snapshot with distinct
    keys: a key under which the snapshot holds a function reads as what a
    call of that function has returned. *)
Lemma resolve_entries_calls (view : ThemeDict -> option ThemeDict)
      (snapshot : list (string * TV)) (k : string) (f : Fn) :
  NoDup snapshot.*1 -> assoc_get k snapshot = Some (TVFun f) ->
  forall theme,
    exists t, assoc_get k (resolve_entries view assoc_set snapshot theme)
              = Some (call_fn (view t) f).
Proof.
  induction snapshot as [|[k0 v0] snapshot IH]; simpl; intros Hnd Hk theme; [discriminate|].
  apply NoDup_cons in Hnd as [Hk0 Hnd].
  destruct (String.eqb_spec k k0) as [->|Hne].
  - injection Hk as ->. exists theme.
    change (resolve_entries view assoc_set ((k0, TVFun f) :: snapshot) theme)
      with (resolve_entries view assoc_set snapshot
              (assoc_set k0 (call_fn (view theme) f) theme)).
    rewrite (resolve_entries_absent view snapshot k0 Hk0), assoc_get_set, String.eqb_refl.
    reflexivity.
  - destruct v0 as [| | | | | |g]; apply (IH Hnd Hk).
Qed.

(** X18.  A value under [theme.extend] is combined with the value of the
    theme under the same key: when the configuration has no presets and no
    plugins, its theme holds an object under the key and [theme.extend]
    holds a value that is no function there, the resolved theme holds
    [combineConfig] of the two under the key. *)
Theorem theme_extend_combines (fuel : nat) (p p' : Processor) (config : Config)
        (ut ext a : list (string * TV)) (k : string) (b : TV) :
  c_presets config = None -> c_plugins config = None -> c_theme config = Some ut ->
  NoDup ut.*1 -> assoc_get "extend" ut = Some (TVObj ext) -> NoDup ext.*1 ->
  k <> "extend"%string ->
  assoc_get k ut = Some (TVObj a) -> assoc_get k ext = Some b -> tv_is_fun b = false ->
  resolveConfig (S fuel) p (Some config) empty_config = Done p' ->
  theme_key p' k = combineTV (TVObj a) (tv_nullish b (TVObj [])).
Proof.
  intros Hpresets Hplugins Htheme Hnd Hextend Hndext Hk Ha Hb Hfun H.
  unfold resolveConfig in H. cbn [default] in H.
  apply obind_Done in H as (resolved & Hres & H).
  simpl in Hres. rewrite Hpresets in Hres. simpl in Hres. injection Hres as <-.
  apply obind_Done in H as (q & Hq & H).
  unfold merge_theme in Hq. simpl in Hq. rewrite Hplugins in Hq. simpl in Hq.
  injection Hq as <-.
  apply obind_Done in H as (p1 & Hload & H).
  assert (_theme p' = _theme p1) as Hp'.
  { destruct (c_corePlugins (_config p1)); injection H as <-; reflexivity. }
  apply _loadVariables_frame in Hload as (_ & Hth & _). simpl in Hth.
  unfold theme_key. rewrite Hp', Hth. clear H Hp' Hth p1 p'.
  assert ((if assoc_has "extend" ut then tv_nullish (tv_get "extend" ut) (TVObj [])
           else TVObj []) = TVObj ext) as Hext0.
  { unfold assoc_has, tv_get. rewrite Hextend. reflexivity. }
  simpl. rewrite Htheme. simpl.
  rewrite !Hext0. cbn [tv_truthy tv_typeof_object andb].
  set (T1 := fold_left _ (assoc_del "extend" ut) []).
  assert (assoc_get k T1 = Some (TVObj a)) as HT1.
  { subst T1.
    rewrite (assoc_get_fold_set (fun v => if tv_is_fun v then v else TVObj (tv_entries v)))
      by apply (assoc_del_keys _ _ Hnd).
    rewrite (assoc_get_del _ _ _ Hk), Ha. reflexivity. }
  assert (NoDup T1.*1) as HndT1.
  { subst T1.
    apply (fold_set_NoDup (fun v => if tv_is_fun v then v else TVObj (tv_entries v))).
    apply NoDup_nil_2. }
  pose proof (_reduceFunction_object ext k a b Hndext Hb T1 HT1) as HT2.
  pose proof (_reduceFunction_NoDup ext T1 HndT1) as HndT2.
  set (T2 := _reduceFunction T1 (TVObj ext)) in *.
  destruct (resolve_entries_calls (fun theme => Some theme) T2 k _ HndT2 HT2 T2)
    as [t Hcall].
  assert (call_fn (Some t) (FCombineObj (TVObj a) b)
          = combineTV (TVObj a) (tv_nullish b (TVObj []))) as Hval.
  { simpl. destruct b; try reflexivity. discriminate. }
  rewrite Hval in Hcall.
  match goal with
  | |- tv_get k match ?x with _ => _ end = _ => destruct x
  end; unfold tv_get;
    rewrite ?(resolve_entries_extend (fun theme => Some theme) _ k Hk), Hcall; reflexivity.
Qed.

(** X19.  [resolveConfig] hands [_resolveConfig] a configuration with a key
    [exclude] of its own, holding [undefined] when the caller has given
    none, and the spread of line 147 puts that key over the one of the
    presets: without presets and plugins in the configuration and without
    plugins in the presets, the resolved configuration excludes what the
    caller's configuration excludes, and nothing when it has no [exclude],
    whatever the presets exclude. *)
Theorem presets_exclude_dropped (fuel : nat) (p p' : Processor) (config presets : Config) :
  c_presets config = None -> c_plugins config = None -> c_plugins presets = None ->
  resolveConfig (S fuel) p (Some config) presets = Done p' ->
  c_exclude (_config p') = Some (mjoin (c_exclude config))
  /\ (c_exclude config = None -> forall selector, excluded p' selector = false).
Proof.
  intros Hpresets Hplugins Hplugins' H.
  unfold resolveConfig in H. cbn [default] in H.
  apply obind_Done in H as (resolved & Hres & H).
  simpl in Hres. rewrite Hpresets in Hres. simpl in Hres. injection Hres as <-.
  apply obind_Done in H as (q & Hq & H).
  unfold merge_theme in Hq. simpl in Hq. rewrite Hplugins, Hplugins' in Hq. simpl in Hq.
  injection Hq as <-.
  apply obind_Done in H as (p1 & Hload & H).
  assert (_config p' = _config p1) as Hp'.
  { destruct (c_corePlugins (_config p1)); injection H as <-; reflexivity. }
  apply _loadVariables_frame in Hload as (Hc & _). simpl in Hc.
  assert (c_exclude (_config p') = Some (mjoin (c_exclude config))) as Hex.
  { rewrite Hp', Hc. clear H Hp' Hc.
    unfold _resolveFunction. simpl. reflexivity. }
  split; [exact Hex|]. intros Hnone selector. unfold excluded. rewrite Hex, Hnone. reflexivity.
Qed.

End MoreProperties.

(** * Properties of the command line *)

Lemma string_length_app (a b : string) :
  String.length (a +:+ b) = (String.length a + String.length b)%nat.
Proof. induction a as [|c a IH]; simpl; [reflexivity|]. rewrite IH. reflexivity. Qed.

Lemma js_slice_app (a b : string) : js_slice (String.length a) (a +:+ b) = b.
Proof. induction a as [|c a IH]; simpl; [destruct b; reflexivity|exact IH]. Qed.

Lemma js_slice_to_app (a b : string) : js_slice_to (String.length a) (a +:+ b) = a.
Proof.
  induction a as [|c a IH]; simpl; [destruct b; reflexivity|]. rewrite IH. reflexivity.
Qed.

Lemma substring_middle (a b c : string) :
  Cli.substring (a +:+ b +:+ c) (String.length a) (String.length a + String.length b) = b.
Proof.
  unfold Cli.substring. cbv zeta. rewrite !string_length_app.
  rewrite (Nat.min_l (String.length a)) by lia.
  rewrite (Nat.min_l (String.length a + String.length b)) by lia.
  rewrite Nat.max_r, Nat.min_l by lia.
  replace (String.length a + String.length b - String.length a)%nat
    with (String.length b) by lia.
  rewrite js_slice_app. apply js_slice_to_app.
Qed.

Lemma substring_from_end (a b : string) :
  Cli.substring_from (a +:+ b) (String.length a) = b.
Proof.
  unfold Cli.substring_from. rewrite string_length_app, Nat.min_l by lia. apply js_slice_app.
Qed.

Lemma concat_strings_app (l1 l2 : list string) :
  Cli.concat_strings (l1 ++ l2) = Cli.concat_strings l1 +:+ Cli.concat_strings l2.
Proof.
  unfold Cli.concat_strings. induction l1 as [|x l1 IH]; simpl; [reflexivity|].
  rewrite IH, string_app_assoc. reflexivity.
Qed.

(** X12.  The rewritten text of [name.ext] goes to [name.windi.ext]: the
    text [.windi] is put in front of the last dot when word characters, one
    at least, follow it to the end.  A name without a dot is left as it
    is, so the rewritten text goes to the file that was read. *)
Theorem insert_before_extension_cases (ins : string) :
  (forall base ext,
      word_of is_word ext ->
      Cli.insert_before_extension ins (base +:+ "." +:+ ext) = base +:+ ins +:+ "." +:+ ext)
  /\ (forall s, free_of "." s -> Cli.insert_before_extension ins s = s).
Proof.
  split.
  - intros base ext [Hne Hext]. change ("." +:+ ext) with (String "." ext).
    induction base as [|c base IH].
    + simpl. rewrite Hext. destruct ext; [congruence|]. reflexivity.
    + change (Cli.insert_before_extension ins (String c base +:+ String "." ext))
        with (if Ascii.eqb c "." && str_truthy (base +:+ String "." ext)
                 && all_chars is_word (base +:+ String "." ext)
              then ins +:+ String c (base +:+ String "." ext)
              else String c (Cli.insert_before_extension ins (base +:+ String "." ext))).
      rewrite (all_chars_app_false is_word base "." ext eq_refl), andb_false_r, IH.
      reflexivity.
  - unfold free_of. intros s. induction s as [|c s IH]; simpl; [reflexivity|].
    intros [Hc Hs]%andb_true_iff. apply negb_true_iff in Hc. rewrite Hc. simpl.
    rewrite (IH Hs). reflexivity.
Qed.

Section CliProperties.
Context {types : Types} {imports : Imports} {more : MoreImports} {cli : Cli.CliImports}.

Lemma compile_keeps_processor (p p' : Processor) (classNames prefix : string)
      (showComment : bool) (handleIgnored : HandleIgnored) (outputClassName : option string)
      (r : CompileResult) :
  compile p classNames prefix showComment false handleIgnored outputClassName = Done (r, p') ->
  p' = p.
Proof.
  unfold compile. cbn [andb]. intros H. apply obind_Done in H as (a & _ & H).
  injection H as _ <-. destruct (a_success a); reflexivity.
Qed.

Lemma rewrite_classes (p : Processor) (prefix : string) (segs : list Cli.Segment)
      (tail : string) :
  Forall (fun s => is_done (compile p (Cli.seg_result s) prefix true false None None) = true)
         segs ->
  forall (pre : string) (l : Cli.Locals),
    Cli.indexStart l = String.length pre ->
    exists l',
      ofold (Cli.rewrite_class prefix (pre +:+ Cli.doc_html segs tail))
            (Cli.doc_classes (String.length pre) segs) (l, p)
      = Done (l', p)
      /\ Cli.concat_strings (Cli.outputHTML l')
         +:+ Cli.substring_from (pre +:+ Cli.doc_html segs tail) (Cli.indexStart l')
         = Cli.concat_strings (Cli.outputHTML l) +:+ Cli.doc_rewritten p prefix segs tail.
Proof.
  induction 1 as [|s segs Hs _ IH]; intros pre l Hl.
  - exists l. split; [reflexivity|]. simpl. rewrite Hl, substring_from_end. reflexivity.
  - simpl. rewrite Hl.
    destruct (compile p (Cli.seg_result s) prefix true false None None)
      as [[utility p']| |] eqn:Hc; try discriminate.
    pose proof (compile_keeps_processor _ _ _ _ _ _ _ _ Hc) as ->. simpl.
    rewrite substring_middle.
    set (l1 := Cli.mkLocals _ _ _).
    specialize (IH (pre +:+ Cli.seg_text s +:+ Cli.seg_class s) l1).
    rewrite !string_length_app, Nat.add_assoc in IH.
    rewrite !string_app_assoc in IH.
    destruct IH as (l' & Hrun & Hout); [reflexivity|].
    exists l'. split; [exact Hrun|]. rewrite Hout. subst l1. simpl.
    unfold Cli.replaced. rewrite Hc.
    rewrite !concat_strings_app. simpl. rewrite !string_app_nil_r, !string_app_assoc.
    reflexivity.
Qed.

(** X13.  When the parser reports the class attributes of a file one after
    the other, and [compile] returns for each, the file written holds the
    text of the file read with every class attribute replaced by what
    [compile] gives for it: the text between the attributes, before the
    first and after the last is copied as it is, and the line printed names
    the two files. *)
Theorem compile_file_rewrites (args : Cli.Args) (st : Cli.State) (file : string)
        (segs : list Cli.Segment) (tail : string) :
  let html := Cli.doc_html segs tail in
  let prefix := default "windi-"%string (Cli.arg_prefix args) in
  let outputFile := Cli.insert_before_extension ".windi" file in
  Cli.files st !! file = Some html ->
  Cli.parseClasses html = Cli.doc_classes 0 segs ->
  Forall (fun s => is_done (compile (Cli.processor st) (Cli.seg_result s) prefix
                                    true false None None) = true) segs ->
  exists st',
    Cli.compile_file args st file = Done st'
    /\ Cli.files st'
       = <[outputFile := Cli.doc_rewritten (Cli.processor st) prefix segs tail]> (Cli.files st)
    /\ Cli.console st' = Cli.console st ++ [file +:+ " -> " +:+ outputFile].
Proof.
  cbv zeta. intros Hfile Hparse Hdone. unfold Cli.compile_file. rewrite Hfile, Hparse.
  destruct (rewrite_classes _ _ segs tail Hdone EmptyString (Cli.mkLocals 0 [] []) eq_refl)
    as (l' & Hrun & Hout).
  simpl in Hrun, Hout. rewrite Hrun. simpl.
  rewrite concat_strings_app. simpl. rewrite string_app_nil_r, Hout.
  destruct (Cli.arg_preflight args).
  - destruct (preflight _ _ _ _ _ _) as [sheet proc]. eexists. split; [reflexivity|].
    simpl. auto.
  - eexists. split; [reflexivity|]. simpl. auto.
Qed.

(** X14.  The text put in the place of a class attribute is the class name
    and the ignored classes, joined by blanks.  When no class of the
    attribute is compiled there is no class name, and the ignored classes
    come after a blank: [class="a b"] becomes [class=" a b"].  Otherwise
    the class name is the prefix followed by the hash of the words of the
    attribute, one blank between two of them.  The processor is left as it
    is. *)
Theorem replacement_text (p p' : Processor) (classNames prefix : string)
        (utility : CompileResult) :
  compile p classNames prefix true false None None = Done (utility, p') ->
  p' = p
  /\ (cr_success utility = [] ->
      Cli.replacement utility = js_join " " (EmptyString :: cr_ignored utility)
      /\ forall x l, cr_ignored utility = x :: l ->
                     Cli.replacement utility = " " +:+ js_join " " (x :: l))
  /\ (cr_success utility <> [] ->
      Cli.replacement utility
      = js_join " " ((prefix +:+ hash (js_join " " (words classNames)))
                       :: cr_ignored utility)).
Proof.
  intros H. split; [eapply compile_keeps_processor, H|].
  unfold compile in H. cbn [andb] in H. apply obind_Done in H as (a & _ & H).
  injection H as <- _. unfold Cli.replacement. rewrite <- normalize_words. simpl.
  destruct (a_success a) as [|x l]; split; intros Hs; try congruence.
  - split; [reflexivity|]. intros y l' ->. reflexivity.
  - reflexivity.
Qed.

End CliProperties.

(** * The properties at the small instance *)
Module MoreChecks.
Import Sample SampleMore.

Lemma attributify_sorts_attributes_witness :
  exists r,
    attributify p0 attrs0 = Done r
    /\ ir_success r
       = ["[p=" +:+ dquote +:+ "2" +:+ dquote +:+ "]";
          "[bg~=" +:+ dquote +:+ "red" +:+ dquote +:+ "]";
          "[sm=" +:+ dquote +:+ "hover:p-2" +:+ dquote +:+ "]"]
    /\ ir_ignored r = ["[bg~=" +:+ dquote +:+ "!blue" +:+ dquote +:+ "]"].
Proof.
  destruct (attributify_sorts_attributes p0 attrs0) as (r & Hr & Hs & Hi).
  - apply Forall_forall. intros call Hin. apply list_elem_of_In in Hin. vm_compute in Hin.
    repeat (destruct Hin as [<-|Hin];
            [vm_compute; repeat constructor; eexists; reflexivity|]).
    destruct Hin.
  - exists r. split; [exact Hr|]. rewrite Hs, Hi. split; vm_compute; reflexivity.
Defined.

Lemma attributify_unknown_variant_raises_witness :
  attr_split p0 "data-p" "2" = Some (["data"%string], "p-2"%string)
  /\ attributify p0 attrs_data = Throw "TypeError: this._variants[i] is not a function".
Proof.
  split; [vm_compute; reflexivity|].
  apply (attributify_unknown_variant_raises p0 attrs_data "data-p" "2" true
           ["data"%string] "p-2" (padded "0.5rem") "data") with (rest := []).
  - intros s sel. reflexivity.
  - apply list_elem_of_In. left. reflexivity.
  - vm_compute. reflexivity.
  - reflexivity.
  - constructor. reflexivity.
  - apply list_elem_of_In. left. reflexivity.
  - vm_compute. reflexivity.
  - vm_compute. reflexivity.
  - reflexivity.
Defined.

Lemma attributify_names_utility_witness :
  attr_split p0 "hover-bg" "sm:-red" = Some (["hover"; "sm"]%string, "-bg-red"%string).
Proof.
  apply (attributify_names_utility p0 "-" ["hover"%string] "bg" ["sm"%string] "-red").
  - split; [discriminate|reflexivity].
  - repeat constructor; discriminate.
  - split; [discriminate|reflexivity].
  - vm_compute. reflexivity.
  - vm_compute. reflexivity.
  - apply (bool_decide_eq_false_1 ("bg"%string ∈ special_keys)). vm_compute. reflexivity.
  - intros m H. injection H as <-. split; discriminate.
  - repeat constructor.
  - reflexivity.
Defined.

Lemma attributify_variant_attribute_witness :
  attr_split p0 "sm" "hover:p-2" = Some (["sm"; "hover"]%string, "p-2"%string).
Proof.
  apply (attributify_variant_attribute p0 "-" [] "sm" ["hover"%string] "p-2").
  - split; [discriminate|reflexivity].
  - constructor.
  - split; [discriminate|reflexivity].
  - eexists. vm_compute. reflexivity.
  - discriminate.
  - repeat constructor.
  - reflexivity.
Defined.

Lemma prefix_selector_inserts_witness :
  prefix_selector p_prefixed ".btn" = ".tw-btn"%string
  /\ prefix_selector p_prefixed "> *" = "> *"%string.
Proof.
  destruct (prefix_selector_inserts p_prefixed "tw-" eq_refl eq_refl) as [Hin Hout].
  split.
  - exact (Hin "."%string "b"%char "tn"%string eq_refl eq_refl).
  - exact (Hout "> *"%string eq_refl).
Defined.

Lemma preflight_once_witness :
  preflight (snd (preflight p0 (Some "<p>"%string) true true true true))
            (Some "<p>"%string) true true true true
  = (new_StyleSheet, snd (preflight p0 (Some "<p>"%string) true true true true))
  /\ cache_html (_cache (snd (preflight p0 (Some "<p>"%string) true true true true)))
     = ["3"%string].
Proof.
  assert (str_truthy (hash "<p>") = true) as Hid by (vm_compute; reflexivity).
  destruct (preflight_once p0 "<p>" true true true true true true eq_refl Hid)
    as (Hsecond & Hfirst & _).
  split; [exact Hsecond|].
  destruct Hfirst as [_ Hcache].
  - vm_compute. intros H. apply list_elem_of_In in H. destruct H.
  - exact Hcache.
Defined.


Lemma interpret_ignoreProcessed_twice_witness :
  ir_success (fst interpreted_once) = ["hover:bg-red"; "hover:p-2"; "bg-red"; "!sm:p-2"]%string
  /\ interpret 2 (snd interpreted_once) classes0 true None
     = Done (mkInterpretResult [] [] (sheet_sort (apply_prefixer (snd interpreted_once)
                                                                new_StyleSheet)),
             snd interpreted_once).
Proof.
  split; [reflexivity|].
  apply (interpret_ignoreProcessed_twice 2 2 p0 (snd interpreted_once) classes0 None None
           (fst interpreted_once)).
  vm_compute. reflexivity.
Defined.

Lemma interpret_reports_handled_witness :
  exists r p',
    interpret 2 p0 "nope nada" false (Some handler0) = Done (r, p')
    /\ ir_success r = ["nope"%string]
    /\ ir_ignored r = ["nope"; "nada"; "nada"]%string.
Proof.
  destruct (interpret_reports_handled 2 p0 "nope nada" (Some handler0))
    as (r & p' & Hr & Hs & Hi).
  - repeat constructor.
    + exists "nope"%string. repeat split.
    + exists "nada"%string. repeat split.
  - exists r, p'. split; [exact Hr|]. rewrite Hs, Hi. split; reflexivity.
Defined.

Lemma compile_file_rewrites_witness :
  exists st',
    Cli.compile_file args0 state0 "index.html" = Done st'
    /\ Cli.files st' !! "index.windi.html"%string
       = Some ("<a class=" +:+ dquote +:+ "windi-8 nope" +:+ dquote +:+ "><b class="
               +:+ dquote +:+ " nada" +:+ dquote +:+ "></b></a>")
    /\ Cli.console st' = ["index.html -> index.windi.html"%string].
Proof.
  destruct (compile_file_rewrites args0 state0 "index.html" segs0 tail0)
    as (st' & Hrun & Hfiles & Hlog).
  - reflexivity.
  - vm_compute. reflexivity.
  - repeat constructor.
  - exists st'. split; [exact Hrun|]. rewrite Hfiles, Hlog. split.
    + vm_compute. reflexivity.
    + reflexivity.
Defined.

Lemma replacement_text_witness :
  Cli.replacement (fst compiled_nothing) = " nope nada"%string
  /\ snd compiled_nothing = p0.
Proof.
  destruct (replacement_text p0 (snd compiled_nothing) "nope nada" "windi-"
              (fst compiled_nothing)) as (Hp & Hnone & _).
  - vm_compute. reflexivity.
  - split; [|exact Hp].
    destruct (Hnone eq_refl) as [_ Hlead].
    exact (Hlead "nope"%string ["nada"%string] eq_refl).
Defined.

(** Under the key [.btn,h1] nothing is filed among the components and
    [btn] is filed among the utilities; under the key [.constructor,h1]
    [addUtilities] does not return. *)
Lemma add_styles_mixed_selectors_witness :
  pl_components (_plugin (fst (addComponents p0 (inl (TVObj [(".btn,h1"%string, TVObj [])]))
                                             None)))
  = pl_components (_plugin p0)
  /\ is_Some (pl_utilities
                (_plugin (fst (addUtilities p0 (inl (TVObj [(".btn,h1"%string, TVObj [])]))
                                            None)))
              !! "btn"%string)
  /\ snd (addUtilities p0 (inl (TVObj [(".constructor,h1"%string, TVObj [])])) None)
     = Throw "TypeError: this._plugin[type][key] is not iterable".
Proof.
  destruct (add_styles_mixed_selectors p0 ".btn,h1" (TVObj []) None
              [mkGuess "btn" true None; mkGuess "h1" false None])
    as (Hcomponents & Hutilities & _).
  - reflexivity.
  - reflexivity.
  - apply Exists_cons_tl. constructor. reflexivity.
  - destruct (add_styles_mixed_selectors p0 ".constructor,h1" (TVObj []) None
                [mkGuess "constructor" true None; mkGuess "h1" false None])
      as (_ & _ & Hraises);
      [reflexivity|reflexivity|apply Exists_cons_tl; constructor; reflexivity|].
    split; [exact Hcomponents|]. split.
    + destruct (snd (addUtilities p0 (inl (TVObj [(".btn,h1"%string, TVObj [])])) None))
        as [out| |] eqn:Hout; [|discriminate Hout..].
      apply (Hutilities out eq_refl (mkGuess "btn" true None)); [|reflexivity].
      apply list_elem_of_In. left. reflexivity.
    + specialize (Hraises (mkGuess "constructor" true None)
                          ltac:(apply list_elem_of_In; left; reflexivity)
                          eq_refl eq_refl eq_refl).
      destruct (snd (addUtilities p0 (inl (TVObj [(".constructor,h1"%string, TVObj [])]))
                                  None)) as [out|e|] eqn:Hout;
        [destruct (Hraises out eq_refl)|vm_compute in Hout; symmetry; exact Hout
        |discriminate Hout].
Defined.

Lemma user_theme_replaces_witness :
  exists c theme,
    _resolveConfig 1 config_user_theme config_preset_theme = Done c
    /\ c_theme c = Some theme
    /\ tv_get "colors" theme = TVObj [("primary"%string, TVStr "blue")]
    /\ tv_get "spacing" theme = TVObj []
    /\ tv_get "opacity" theme = TVObj [("50"%string, TVStr "0.5")].
Proof.
  destruct (user_theme_replaces 0 config_user_theme config_preset_theme
              [("colors"%string, TVObj [("primary"%string, TVStr "blue")]);
               ("spacing"%string, TVNum 4)] eq_refl eq_refl eq_refl)
    as (c & theme & Hc & Ht & Hk).
  - apply NoDup_cons. split; [|apply NoDup_singleton].
    intros H. apply list_elem_of_In in H. simpl in H. intuition discriminate.
  - exists c, theme. split; [exact Hc|]. split; [exact Ht|].
    rewrite (Hk "colors"%string), (Hk "spacing"%string), (Hk "opacity"%string).
    repeat split.
Defined.

Lemma theme_extend_combines_witness :
  theme_key resolved_extend "colors"
  = TVObj [("primary"%string, TVStr "blue"); ("accent"%string, TVStr "pink")].
Proof.
  assert (NoDup ["colors"; "extend"]%string) as Hnd.
  { apply NoDup_cons. split; [|apply NoDup_singleton].
    intros H. apply list_elem_of_In in H. simpl in H. intuition discriminate. }
  rewrite (theme_extend_combines 0 initial_state resolved_extend config_extend
             theme_extending [("colors"%string, TVObj [("accent"%string, TVStr "pink")])]
             [("primary"%string, TVStr "blue")] "colors"
             (TVObj [("accent"%string, TVStr "pink")])
             eq_refl eq_refl eq_refl Hnd eq_refl (NoDup_singleton _)
             ltac:(discriminate) eq_refl eq_refl eq_refl eq_refl).
  reflexivity.
Defined.

Lemma presets_exclude_dropped_witness :
  c_exclude config_preset_theme = Some (Some ["hidden"%string])
  /\ c_exclude (_config resolved_over_preset) = Some None
  /\ excluded resolved_over_preset "hidden" = false.
Proof.
  assert (resolveConfig 1 initial_state (Some config_user_theme) config_preset_theme
          = Done resolved_over_preset) as Hrun by (vm_compute; reflexivity).
  destruct (presets_exclude_dropped 0 initial_state resolved_over_preset config_user_theme
              config_preset_theme eq_refl eq_refl eq_refl Hrun) as [Hex Hnone].
  split; [reflexivity|]. split; [exact Hex|]. apply Hnone. reflexivity.
Defined.

Lemma unrecognized_tokens_ignored_witness :
  "nope"%string ∈ ir_ignored (fst interpreted)
  /\ "*btn"%string ∈ cr_ignored (fst first_call)
  /\ "nope"%string ∈ cr_ignored (fst first_call).
Proof.
  destruct (unrecognized_tokens_ignored p0 None) as [Hi Hc]. split.
  - destruct (Hi 2%nat classes0 false (fst interpreted) (snd interpreted))
      as (tokens & seen & Ht & _ & Hs); [vm_compute; reflexivity|].
    vm_compute in Ht. injection Ht as <- <-.
    apply (Hs "nope"%string [] "nope"%string false).
    + repeat constructor.
    + reflexivity.
    + intros q. reflexivity.
  - destruct (Hc classes0 default_prefix false true None (fst first_call) (snd first_call))
      as [Hel Hs]; [vm_compute; reflexivity|reflexivity|].
    split.
    + apply Hel. vm_compute. repeat constructor.
    + apply (Hs "nope"%string [] "nope"%string false "nope"%string).
      * vm_compute. repeat constructor.
      * reflexivity.
      * vm_compute. reflexivity.
      * reflexivity.
Defined.

End MoreChecks.
